(** * Brewken record store ([database/DbRecords.cpp]): a shallow embedding

    The development follows [src/database/DbRecords.cpp].  The Qt classes the
    file relies on ([QVariant], [QHash], [QMultiHash], [QSqlDatabase],
    [QSqlQuery], [QObject]) are represented by small executable models.  On
    top of them the enum codec, the transaction guard, the junction helpers
    and the operations [loadAll], [contains], [getById], [insert], [update],
    [updateProperty], [softDelete] and [hardDelete] are transcribed in a
    state and abort monad, so that early [return]s, [Q_ASSERT]s, the RAII
    guard and the order of side effects stay visible.  [createTables], which
    the source leaves unfinished, is left out. *)

From Stdlib Require Import ZArith String DecimalString.
From stdpp Require Import gmap strings list fin_maps.

Set Warnings "-register-all,-clear-no-such-hyp".

Local Open Scope Z_scope.
Local Open Scope string_scope.
Local Open Scope list_scope.

(** ** QVariant *)

(** The payloads the record store itself inspects: integers (primary keys,
    enum natives, order numbers), strings (enum encodings) and lists
    (relation properties).  [Invalid] is the default constructed [QVariant()];
    [VNull] is a valid variant carrying SQL NULL.  Doubles and dates only
    pass through the store and have no constructor here. *)
Inductive QVariant : Type :=
| Invalid
| VNull
| VInt (z : Z)
| VString (s : string)
| VList (l : list QVariant).

Fixpoint QVariant_eqb (a b : QVariant) {struct a} : bool :=
  match a, b with
  | Invalid, Invalid => true
  | VNull, VNull => true
  | VInt x, VInt y => Z.eqb x y
  | VString s, VString t => String.eqb s t
  | VList l, VList m =>
      (fix go (l m : list QVariant) {struct l} : bool :=
         match l, m with
         | [], [] => true
         | x :: l', y :: m' => QVariant_eqb x y && go l' m'
         | _, _ => false
         end) l m
  | _, _ => false
  end.

Definition isValid (v : QVariant) : bool :=
  match v with Invalid => false | _ => true end.

(** [int] is 32 bits wide: conversion of a wider integer truncates. *)
Definition wrap32 (z : Z) : Z := (z + 2 ^ 31) mod 2 ^ 32 - 2 ^ 31.

Definition int_range (z : Z) : Prop := - 2 ^ 31 <= z < 2 ^ 31.

(** [QString::toInt]: a decimal numeral with an optional minus sign, [0] when
    the text is no numeral or does not fit an [int]. *)
Definition stringToInt (s : string) : Z :=
  match NilZero.int_of_string s with
  | Some d => let z := Z.of_int d in
              if Z.leb (- 2 ^ 31) z && Z.ltb z (2 ^ 31) then z else 0
  | None => 0
  end.

(** [QVariant::toInt()] *)
Definition toInt (v : QVariant) : Z :=
  match v with
  | VInt z => wrap32 z
  | VString s => stringToInt s
  | _ => 0
  end.

(** [QVariant::toString()] *)
Definition toString (v : QVariant) : string :=
  match v with
  | VInt z => NilZero.string_of_int (Z.to_int z)
  | VString s => s
  | _ => ""
  end.

(** [QVariant::toList()] *)
Definition toList (v : QVariant) : list QVariant :=
  match v with
  | VList l => l
  | _ => []
  end.

(** ** Field descriptors *)

Inductive FieldType : Type :=
| FtBool | FtInt | FtUInt | FtDouble | FtString | FtDate | FtEnum.

Definition FieldType_eqb (a b : FieldType) : bool :=
  match a, b with
  | FtBool, FtBool | FtInt, FtInt | FtUInt, FtUInt | FtDouble, FtDouble
  | FtString, FtString | FtDate, FtDate | FtEnum, FtEnum => true
  | _, _ => false
  end.

Record EnumAndItsDbString : Type := {
  native : Z;
  dbString : string
}.

(** [enumMapping] is a pointer in the source: [None] is [nullptr]. *)
Record FieldSimpleDefn : Type := {
  fieldType : FieldType;
  columnName : string;
  propertyName : string;
  enumMapping : option (list EnumAndItsDbString)
}.

(** [orderByColumn] is the empty string when there is no order column. *)
Record FieldManyToManyDefn : Type := {
  m2mTableName : string;
  m2mPropertyName : string;
  thisPrimaryKeyColumn : string;
  otherPrimaryKeyColumn : string;
  orderByColumn : string;
  assumeMaxOneEntry : bool
}.

(** The immutable part of [DbRecords::impl]; the cache [allObjects] lives in
    the mutable [World] below. *)
Record impl : Type := {
  tableName : string;
  fieldSimpleDefns : list FieldSimpleDefn;
  fieldManyToManyDefns : list FieldManyToManyDefn
}.

(** ** The relational database behind [QSqlDatabase]

    A table has declared columns, an optional auto-assigned integer key column
    ("id INTEGER PRIMARY KEY autoincrement" in the source's own words) and its
    rows in storage order.  A row maps column names to values; a column that
    was never written reads as NULL. *)

Definition Row : Type := list (string * QVariant).

Fixpoint rowValue (col : string) (r : Row) : QVariant :=
  match r with
  | [] => VNull
  | (c, v) :: r' => if String.eqb c col then v else rowValue col r'
  end.

Fixpoint rowSet (col : string) (v : QVariant) (r : Row) : Row :=
  match r with
  | [] => [(col, v)]
  | (c, x) :: r' =>
      if String.eqb c col then (c, v) :: r' else (c, x) :: rowSet col v r'
  end.

Record Table : Type := {
  tblColumns : list string;
  tblAutoKey : option string;
  tblNextId : Z;
  tblRows : list Row
}.

Abbreviation Database := (gmap string Table).

(** The statements the store issues, with named placeholders [:col] for the
    values.  The source assembles them as text; only their shape matters
    here. *)
Inductive Query : Type :=
| SelectFrom (cols : list string) (table : string)
| SelectOrderBy (cols : list string) (table : string) (orderCols : list string)
| InsertInto (table : string) (cols : list string)
| UpdateSet (table : string) (cols : list string) (whereCol : string)
| DeleteFrom (table : string) (whereCol : string).

(** Values bound to the placeholders of a [QSqlQuery]: [bindValue] replaces
    an earlier binding of the same placeholder. *)
Definition Binds : Type := list (string * QVariant).
Definition bindValue (name : string) (v : QVariant) (b : Binds) : Binds :=
  rowSet name v b.
Definition boundValue (name : string) (b : Binds) : QVariant :=
  rowValue name b.

Definition hasColumn (t : Table) (c : string) : bool :=
  existsb (String.eqb c) (tblColumns t).

Fixpoint distinctNames (l : list string) : bool :=
  match l with
  | [] => true
  | c :: l' => negb (existsb (String.eqb c) l') && distinctNames l'
  end.

Definition isNullVariant (v : QVariant) : bool :=
  match v with Invalid | VNull => true | _ => false end.

(** SQL [=]: NULL equals nothing. *)
Definition sqlEq (a b : QVariant) : bool :=
  negb (isNullVariant a) && negb (isNullVariant b) && QVariant_eqb a b.

Definition sqlRank (v : QVariant) : nat :=
  match v with
  | Invalid | VNull => 0%nat
  | VInt _ => 1%nat
  | VString _ => 2%nat
  | VList _ => 3%nat
  end.

(** SQL ordering: NULL first, then numbers, then text. *)
Definition sqlCompare (a b : QVariant) : comparison :=
  match a, b with
  | VInt x, VInt y => Z.compare x y
  | VString s, VString t => String.compare s t
  | _, _ => Nat.compare (sqlRank a) (sqlRank b)
  end.

Fixpoint rowCompare (ords : list string) (r1 r2 : Row) : comparison :=
  match ords with
  | [] => Eq
  | c :: cs =>
      match sqlCompare (rowValue c r1) (rowValue c r2) with
      | Eq => rowCompare cs r1 r2
      | o => o
      end
  end.

Fixpoint insertSorted (ords : list string) (r : Row) (rows : list Row) : list Row :=
  match rows with
  | [] => [r]
  | x :: xs =>
      match rowCompare ords r x with
      | Gt => x :: insertSorted ords r xs
      | _ => r :: x :: xs
      end
  end.

Definition orderBy (ords : list string) (rows : list Row) : list Row :=
  foldr (insertSorted ords) [] rows.

(** An invalid variant is stored, and read back, as NULL. *)
Definition toSql (v : QVariant) : QVariant :=
  match v with Invalid => VNull | _ => v end.

Definition project (cols : list string) (r : Row) : Row :=
  map (fun c => (c, toSql (rowValue c r))) cols.

Definition isEmptyList {A : Type} (l : list A) : bool :=
  match l with [] => true | _ => false end.

(** What a successful statement yields: the new database, the result rows and
    [lastInsertId()]. *)
Record ExecResult : Type := {
  resDatabase : Database;
  resRows : list Row;
  resLastInsertId : QVariant
}.

Definition insertRow (t : Table) (cols : list string) (b : Binds) : Table :=
  let given := map (fun c => (c, toSql (boundValue c b))) cols in
  let row :=
    match tblAutoKey t with
    | Some k =>
        if existsb (String.eqb k) cols then given
        else (k, VInt (tblNextId t)) :: given
    | None => given
    end in
  {| tblColumns := tblColumns t; tblAutoKey := tblAutoKey t;
     tblNextId := tblNextId t + 1; tblRows := tblRows t ++ [row] |}.

Definition updateRows (t : Table) (cols : list string) (whereCol : string)
    (b : Binds) : Table :=
  let upd (r : Row) :=
    if sqlEq (rowValue whereCol r) (boundValue whereCol b)
    then foldl (fun r' c => rowSet c (toSql (boundValue c b)) r') r cols
    else r in
  {| tblColumns := tblColumns t; tblAutoKey := tblAutoKey t;
     tblNextId := tblNextId t; tblRows := map upd (tblRows t) |}.

Definition deleteRows (t : Table) (whereCol : string) (b : Binds) : Table :=
  {| tblColumns := tblColumns t; tblAutoKey := tblAutoKey t;
     tblNextId := tblNextId t;
     tblRows := List.filter
                  (fun r => negb (sqlEq (rowValue whereCol r) (boundValue whereCol b)))
                  (tblRows t) |}.

(** A statement fails ([None]) when it names a missing table or column, or
    when its column list is empty or (for INSERT) repeats a column, as the
    text the source would generate is then rejected by the database. *)
Definition execQuery (q : Query) (b : Binds) (d : Database) : option ExecResult :=
  match q with
  | SelectFrom cols table =>
      match d !! table with
      | Some t =>
          if negb (isEmptyList cols) && forallb (hasColumn t) cols
          then Some {| resDatabase := d;
                       resRows := map (project cols) (tblRows t);
                       resLastInsertId := Invalid |}
          else None
      | None => None
      end
  | SelectOrderBy cols table ords =>
      match d !! table with
      | Some t =>
          if forallb (hasColumn t) cols && forallb (hasColumn t) ords
          then Some {| resDatabase := d;
                       resRows := map (project cols) (orderBy ords (tblRows t));
                       resLastInsertId := Invalid |}
          else None
      | None => None
      end
  | InsertInto table cols =>
      match d !! table with
      | Some t =>
          if negb (isEmptyList cols) && distinctNames cols && forallb (hasColumn t) cols
          then Some {| resDatabase := <[table := insertRow t cols b]> d;
                       resRows := [];
                       resLastInsertId := VInt (tblNextId t) |}
          else None
      | None => None
      end
  | UpdateSet table cols whereCol =>
      match d !! table with
      | Some t =>
          if negb (isEmptyList cols) && forallb (hasColumn t) cols && hasColumn t whereCol
          then Some {| resDatabase := <[table := updateRows t cols whereCol b]> d;
                       resRows := [];
                       resLastInsertId := Invalid |}
          else None
      | None => None
      end
  | DeleteFrom table whereCol =>
      match d !! table with
      | Some t =>
          if hasColumn t whereCol
          then Some {| resDatabase := <[table := deleteRows t whereCol b]> d;
                       resRows := [];
                       resLastInsertId := Invalid |}
          else None
      | None => None
      end
  end.

(** ** The world the store runs in *)

(** A [QObject] seen through its named properties, as the store sees it:
    [property] of an unknown name is an invalid variant, [setProperty] stores
    the value under the name. *)
Abbreviation Object := (gmap string QVariant).

(** A [std::shared_ptr<QObject>]: objects are shared, so the cache and the
    callers hold handles into one heap. *)
Definition Handle : Type := nat.

(** What [qCritical()] reports. *)
Inductive Critical : Type :=
| CouldNotDecode (stringValue column property : string)
| ErrorExecuting (q : Query)
| ErrorReadingColumn (column table : string)
| IgnoringRecord (table : string) (key : Z).

(** Observable steps, in the order they happen.  [qDebug()] output is left
    out. *)
Inductive Event : Type :=
| EvTransaction
| EvCommit (succeeded : bool)
| EvRollback
| EvExec (q : Query) (b : Binds) (succeeded : bool)
| EvCritical (c : Critical)
| EvObjectInserted (id : Z).

(** The conditions under which the process stops: the [Q_ASSERT]s of the file
    (active, as in a debug build), the bounds assertions of the Qt containers
    it indexes, and the dereference of a handle that owns no object. *)
Inductive Fatal : Type :=
| AssertFieldIsEnum
| AssertEnumMappingSet
| AssertEnumMatch
| AssertParameterOnce
| AssertKeyNotLoaded
| AssertKeyUnset
| AssertLastInsertId
| AssertKeyNotCached
| AssertPropertyKnown
| AssertIndexInRange
| NullDereference.

(** - [database]: what the connection currently sees;
    - [savepoint]: the state at which the open transaction began, to which
      [rollback()] returns; nothing when no transaction is open;
    - [faults]: which of the coming [exec()] and [commit()] calls fail for
      reasons outside the model (constraint, connectivity): each call takes
      the head, an empty list means no further failure;
    - [driverHasLastInsertId]: [hasFeature(QSqlDriver::LastInsertId)];
    - [allObjects]: the cache of the store, [impl::allObjects];
    - [heap], [nextHandle]: the objects that shared pointers own;
    - [trace]: the events so far, oldest first. *)
Record World : Type := {
  database : Database;
  savepoint : option Database;
  faults : list bool;
  driverHasLastInsertId : bool;
  allObjects : gmap Z Handle;
  heap : gmap Handle Object;
  nextHandle : Handle;
  trace : list Event
}.

Definition setDatabase (d : Database) (w : World) : World :=
  {| database := d; savepoint := savepoint w; faults := faults w;
     driverHasLastInsertId := driverHasLastInsertId w;
     allObjects := allObjects w; heap := heap w; nextHandle := nextHandle w;
     trace := trace w |}.

Definition setSavepoint (s : option Database) (w : World) : World :=
  {| database := database w; savepoint := s; faults := faults w;
     driverHasLastInsertId := driverHasLastInsertId w;
     allObjects := allObjects w; heap := heap w; nextHandle := nextHandle w;
     trace := trace w |}.

Definition setFaults (f : list bool) (w : World) : World :=
  {| database := database w; savepoint := savepoint w; faults := f;
     driverHasLastInsertId := driverHasLastInsertId w;
     allObjects := allObjects w; heap := heap w; nextHandle := nextHandle w;
     trace := trace w |}.

Definition setAllObjects (c : gmap Z Handle) (w : World) : World :=
  {| database := database w; savepoint := savepoint w; faults := faults w;
     driverHasLastInsertId := driverHasLastInsertId w;
     allObjects := c; heap := heap w; nextHandle := nextHandle w;
     trace := trace w |}.

Definition setHeap (h : gmap Handle Object) (n : Handle) (w : World) : World :=
  {| database := database w; savepoint := savepoint w; faults := faults w;
     driverHasLastInsertId := driverHasLastInsertId w;
     allObjects := allObjects w; heap := h; nextHandle := n;
     trace := trace w |}.

Definition record (e : Event) (w : World) : World :=
  {| database := database w; savepoint := savepoint w; faults := faults w;
     driverHasLastInsertId := driverHasLastInsertId w;
     allObjects := allObjects w; heap := heap w; nextHandle := nextHandle w;
     trace := trace w ++ [e] |}.

(** ** The monad: state, plus abort of the whole process *)

Inductive Outcome (A : Type) : Type :=
| Done (a : A) (w : World)
| Aborted (why : Fatal).
Arguments Done {A} a w.
Arguments Aborted {A} why.

Definition M (A : Type) : Type := World -> Outcome A.

Definition ret {A : Type} (a : A) : M A := fun w => Done a w.

Definition bind {A B : Type} (m : M A) (k : A -> M B) : M B :=
  fun w => match m w with
           | Done a w' => k a w'
           | Aborted why => Aborted why
           end.

Notation "'let*' x ':=' c1 'in' c2" := (bind c1 (fun x => c2))
  (at level 10, x name, c1 at level 100, c2 at level 200).
Notation "c1 ;;; c2" := (bind c1 (fun _ => c2))
  (at level 100, c2 at level 200, right associativity).

Definition abort {A : Type} (why : Fatal) : M A := fun _ => Aborted why.

(** [Q_ASSERT(cond)] *)
Definition Q_ASSERT (cond : bool) (why : Fatal) : M unit :=
  if cond then ret tt else abort why.

Definition emitEvent (e : Event) : M unit := fun w => Done tt (record e w).

Definition qCritical (c : Critical) : M unit := emitEvent (EvCritical c).

(** *** Connection *)

Definition takeFault (w : World) : bool * World :=
  match faults w with
  | [] => (false, w)
  | f :: rest => (f, setFaults rest w)
  end.

(** [QSqlDatabase::transaction()]: begins a transaction at the current state
    of the database.  The call is refused ([false]) when a transaction is
    already open on the connection; the open one then stays as it is, with
    the state it began at, so that a later [rollback()] returns to where the
    open transaction began. *)
Definition transaction : M bool :=
  fun w =>
    let begun := match savepoint w with Some _ => false | None => true end in
    let start := default (database w) (savepoint w) in
    Done begun (record EvTransaction (setSavepoint (Some start) w)).

(** [QSqlDatabase::commit()]: on success the changes since [transaction()]
    become permanent; on failure nothing is made permanent.  The store calls
    it inside a [DbTransaction] scope only, where a transaction is open. *)
Definition commitConnection : M bool :=
  fun w =>
    let '(failed, w1) := takeFault w in
    if failed then Done false (record (EvCommit false) w1)
    else Done true (record (EvCommit true) (setSavepoint None w1)).

(** [QSqlDatabase::rollback()] *)
Definition rollback : M unit :=
  fun w =>
    match savepoint w with
    | Some d => Done tt (record EvRollback (setSavepoint None (setDatabase d w)))
    | None => Done tt (record EvRollback w)
    end.

(** [QSqlQuery::exec()]: [None] is the [false] return; a failed statement
    leaves the database as it was and the transaction open.  The source hands
    the statement text to the constructor of [QSqlQuery], which makes Qt run
    the text once on construction, before any value is bound; that run reads
    only (the SELECTs) or is refused for its unbound placeholders (the
    others), and its result is not looked at, so the model starts at the
    [exec()] calls that the source writes. *)
Definition exec (q : Query) (b : Binds) : M (option ExecResult) :=
  fun w =>
    let '(failed, w1) := takeFault w in
    if failed then Done None (record (EvExec q b false) w1)
    else match execQuery q b (database w1) with
         | Some r => Done (Some r)
                       (record (EvExec q b true) (setDatabase (resDatabase r) w1))
         | None => Done None (record (EvExec q b false) w1)
         end.

(** *** Objects *)

(** [object->property(name)]; [name] is [None] for a null [char const *]. *)
Definition property (h : Handle) (name : option string) : M QVariant :=
  fun w =>
    match heap w !! h with
    | Some o =>
        match name with
        | Some n => Done (default Invalid (o !! n)) w
        | None => Done Invalid w
        end
    | None => Aborted NullDereference
    end.

(** [object->setProperty(name, value)] *)
Definition setProperty (h : Handle) (name : option string) (v : QVariant) : M unit :=
  fun w =>
    match heap w !! h with
    | Some o =>
        match name with
        | Some n => Done tt (setHeap (<[h := <[n := v]> o]> (heap w)) (nextHandle w) w)
        | None => Done tt w
        end
    | None => Aborted NullDereference
    end.

(** ** Enum codec *)

(** [stringToEnum] (lines 35-55) *)
Definition stringToEnum (fieldDefn : FieldSimpleDefn) (valueFromDb : QVariant) : M Z :=
  Q_ASSERT (FieldType_eqb (fieldType fieldDefn) FtEnum) AssertFieldIsEnum ;;;
  match enumMapping fieldDefn with
  | None => abort AssertEnumMappingSet
  | Some mapping =>
      let stringValue := toString valueFromDb in
      match List.find (fun ii => String.eqb stringValue (dbString ii)) mapping with
      | None =>
          qCritical (CouldNotDecode stringValue (columnName fieldDefn)
                                    (propertyName fieldDefn)) ;;;
          ret 0
      | Some found => ret (native found)
      end
  end.

(** [enumToString] (lines 61-77) *)
Definition enumToString (fieldDefn : FieldSimpleDefn) (propertyValue : QVariant) : M string :=
  Q_ASSERT (FieldType_eqb (fieldType fieldDefn) FtEnum) AssertFieldIsEnum ;;;
  match enumMapping fieldDefn with
  | None => abort AssertEnumMappingSet
  | Some mapping =>
      let nativeValue := toInt propertyValue in
      match List.find (fun ii => Z.eqb nativeValue (native ii)) mapping with
      | None => abort AssertEnumMatch
      | Some found => ret (dbString found)
      end
  end.

(** ** Transaction scope *)

(** [DbTransaction] (lines 82-106): the constructor begins, the destructor
    rolls back unless [commit()] succeeded.  The constructor (lines 83-87)
    only logs what [transaction()] answers, so a scope that is entered while
    a transaction is open runs inside that transaction.  [scope] is the code
    between the two and yields the [committed] flag with which the guard is
    destroyed: the result of [commit()] where the scope calls it, [false]
    where it returns before. *)
Definition DbTransaction_ctor : M unit :=
  let* succeeded := transaction in
  ret tt.

Definition DbTransaction (scope : M bool) : M unit :=
  DbTransaction_ctor ;;;
  let* committed := scope in
  if committed then ret tt else rollback.

(** ** Junction tables *)

Definition hasOrderByColumn (d : FieldManyToManyDefn) : bool :=
  negb (String.eqb (orderByColumn d) "").

Definition junctionInsertQuery (d : FieldManyToManyDefn) : Query :=
  InsertInto (m2mTableName d)
    ([thisPrimaryKeyColumn d; otherPrimaryKeyColumn d]
       ++ (if hasOrderByColumn d then [orderByColumn d] else [])).

(** The loop of [insertIntoFieldManyToManyDefn] (lines 166-182); [binds] is
    the state of the one [QSqlQuery] that every iteration rebinds and runs. *)
Fixpoint insertJunctionRows (d : FieldManyToManyDefn) (primaryKey : QVariant)
    (itemNumber : Z) (binds : Binds) (list : list QVariant) : M bool :=
  match list with
  | [] => ret true
  | curValue :: rest =>
      let binds := bindValue (thisPrimaryKeyColumn d) primaryKey binds in
      let binds := bindValue (otherPrimaryKeyColumn d) curValue binds in
      let binds := if hasOrderByColumn d
                   then bindValue (orderByColumn d) (VInt itemNumber) binds
                   else binds in
      let* r := exec (junctionInsertQuery d) binds in
      match r with
      | None => qCritical (ErrorExecuting (junctionInsertQuery d)) ;;; ret false
      | Some _ => insertJunctionRows d primaryKey (itemNumber + 1) binds rest
      end
  end.

(** [insertIntoFieldManyToManyDefn] (lines 128-185) *)
Definition insertIntoFieldManyToManyDefn (d : FieldManyToManyDefn)
    (object : Handle) (primaryKey : QVariant) : M bool :=
  let* bindValues := property object (Some (m2mPropertyName d)) in
  let bindValues := if assumeMaxOneEntry d then VList [bindValues] else bindValues in
  insertJunctionRows d primaryKey 1 [] (toList bindValues).

Definition junctionDeleteQuery (d : FieldManyToManyDefn) : Query :=
  DeleteFrom (m2mTableName d) (thisPrimaryKeyColumn d).

(** [deleteFromFieldManyToManyDefn] (lines 187-217) *)
Definition deleteFromFieldManyToManyDefn (d : FieldManyToManyDefn)
    (primaryKey : QVariant) : M bool :=
  let binds := bindValue (thisPrimaryKeyColumn d) primaryKey [] in
  let* r := exec (junctionDeleteQuery d) binds in
  match r with
  | None => qCritical (ErrorExecuting (junctionDeleteQuery d)) ;;; ret false
  | Some _ => ret true
  end.

(** ** The cache *)

(** [DbRecords::contains] (line 547) *)
Definition contains (id : Z) : M bool :=
  fun w => Done (bool_decide (is_Some (allObjects w !! id))) w.

(** [DbRecords::getById] (line 551): [QHash::value] of an absent key is a
    default constructed, that is null, shared pointer. *)
Definition getById (id : Z) : M (option Handle) :=
  fun w => Done (allObjects w !! id) w.

(** [allObjects.insert(key, object)]: replaces an entry of the same key. *)
Definition cacheInsert (id : Z) (object : Handle) : M unit :=
  fun w => Done tt (setAllObjects (<[id := object]> (allObjects w)) w).

(** [allObjects.remove(id)] *)
Definition cacheRemove (id : Z) : M unit :=
  fun w => Done tt (setAllObjects (delete id (allObjects w)) w).

(** [DbRecords::softDelete] (lines 856-859) *)
Definition softDelete (id : Z) : M unit := cacheRemove id.

(** ** Record store: loading *)

(** [impl::appendColumNames] (lines 250-270), as the list of the names it
    writes. *)
Fixpoint appendColumNames (defns : list FieldSimpleDefn)
    (includePrimaryKey skippedPrimaryKey : bool) : list string :=
  match defns with
  | [] => []
  | fieldDefn :: rest =>
      if negb includePrimaryKey && negb skippedPrimaryKey
      then appendColumNames rest includePrimaryKey true
      else columnName fieldDefn :: appendColumNames rest includePrimaryKey skippedPrimaryKey
  end.

(** [QSqlQuery::value(name)] on the current result row: invalid when the
    result has no field of that name. *)
Fixpoint resultValue (name : string) (r : Row) : QVariant :=
  match r with
  | [] => Invalid
  | (c, v) :: r' => if String.eqb c name then v else resultValue name r'
  end.

Abbreviation NamedParameterBundle := (gmap string QVariant).

(** Modelled from the spec: [createNewObject] is a virtual member that the
    subclasses of [DbRecords] define outside this file; per the spec it
    constructs a new domain object directly from the named-value bundle, so
    the new object carries exactly the bundle as its properties. *)
Definition createNewObject (namedParameterBundle : NamedParameterBundle) : M Handle :=
  fun w =>
    Done (nextHandle w)
         (setHeap (<[nextHandle w := namedParameterBundle]> (heap w))
                  (S (nextHandle w)) w).

(** The loop over the field definitions for one row (lines 419-445).  The
    result is the bundle and [primaryKey] as they stand when the loop is
    left, by exhaustion or by [break]. *)
Fixpoint readFields (table : string) (defns : list FieldSimpleDefn) (row : Row)
    (namedParameterBundle : NamedParameterBundle) (primaryKey : Z)
    (readPrimaryKey : bool) : M (NamedParameterBundle * Z) :=
  match defns with
  | [] => ret (namedParameterBundle, primaryKey)
  | fieldDefn :: rest =>
      let fieldValue := resultValue (columnName fieldDefn) row in
      if negb (isValid fieldValue)
      then qCritical (ErrorReadingColumn (columnName fieldDefn) table) ;;;
           ret (namedParameterBundle, primaryKey)
      else
        let* fieldValue :=
          (if FieldType_eqb (fieldType fieldDefn) FtEnum
           then let* n := stringToEnum fieldDefn fieldValue in ret (VInt n)
           else ret fieldValue) in
        Q_ASSERT (negb (bool_decide (is_Some (namedParameterBundle !! propertyName fieldDefn))))
                 AssertParameterOnce ;;;
        let namedParameterBundle :=
          <[propertyName fieldDefn := fieldValue]> namedParameterBundle in
        let primaryKey := if readPrimaryKey then primaryKey else toInt fieldValue in
        readFields table rest row namedParameterBundle primaryKey true
  end.

(** The [while (sqlQuery.next())] loop over the main table (lines 375-455) *)
Fixpoint loadRows (st : impl) (rows : list Row) : M unit :=
  match rows with
  | [] => ret tt
  | row :: rest =>
      let* read := readFields (tableName st) (fieldSimpleDefns st) row ∅ (-1) false in
      let* object := createNewObject (fst read) in
      let* known := contains (snd read) in
      Q_ASSERT (negb known) AssertKeyNotLoaded ;;;
      cacheInsert (snd read) object ;;;
      loadRows st rest
  end.

(** [QMultiHash<int, QVariant>]: the items, most recently inserted first.
    [values(key)] lists the values of a key "from the most recently inserted
    to the least recently inserted" (Qt documentation of
    [QMultiHash::values]); the order in which [uniqueKeys()] lists different
    keys is left open by Qt and fixed here to first occurrence. *)
Definition QMultiHash : Type := list (Z * QVariant).

Definition multiInsert (key : Z) (value : QVariant) (m : QMultiHash) : QMultiHash :=
  (key, value) :: m.

Fixpoint values (key : Z) (m : QMultiHash) : list QVariant :=
  match m with
  | [] => []
  | (k, v) :: m' => if Z.eqb k key then v :: values key m' else values key m'
  end.

Fixpoint uniqueKeys (m : QMultiHash) : list Z :=
  match m with
  | [] => []
  | (k, _) :: m' => k :: List.filter (fun k' => negb (Z.eqb k' k)) (uniqueKeys m')
  end.

(** The [while (sqlQuery.next())] loop over a junction table (lines 497-501) *)
Definition readJunctionRows (d : FieldManyToManyDefn) (rows : list Row) : QMultiHash :=
  fold_left
    (fun m row =>
       multiInsert (toInt (resultValue (thisPrimaryKeyColumn d) row))
                   (resultValue (otherPrimaryKeyColumn d) row) m)
    rows [].

(** Dereference of a shared pointer. *)
Definition deref (p : option Handle) : M Handle :=
  match p with
  | Some h => ret h
  | None => abort NullDereference
  end.

(** One turn of the loop over [uniqueKeys()] (lines 506-540) *)
Definition applyOtherKeys (d : FieldManyToManyDefn) (thisToOtherKeys : QMultiHash)
    (currentKey : Z) : M unit :=
  let* known := contains currentKey in
  if negb known
  then qCritical (IgnoringRecord (m2mTableName d) currentKey)
  else
    let* p := getById currentKey in
    let* currentObject := deref p in
    let otherKeys := values currentKey thisToOtherKeys in
    if assumeMaxOneEntry d
    then match otherKeys with
         | [] => abort AssertIndexInRange
         | first :: _ => setProperty currentObject (Some (m2mPropertyName d)) first
         end
    else setProperty currentObject (Some (m2mPropertyName d)) (VList otherKeys).

Fixpoint forEachKey (d : FieldManyToManyDefn) (thisToOtherKeys : QMultiHash)
    (keys : list Z) : M unit :=
  match keys with
  | [] => ret tt
  | currentKey :: rest =>
      applyOtherKeys d thisToOtherKeys currentKey ;;;
      forEachKey d thisToOtherKeys rest
  end.

Definition junctionSelectQuery (d : FieldManyToManyDefn) : Query :=
  SelectOrderBy [thisPrimaryKeyColumn d; otherPrimaryKeyColumn d] (m2mTableName d)
    [thisPrimaryKeyColumn d;
     if hasOrderByColumn d then orderByColumn d else otherPrimaryKeyColumn d].

(** The loop over the many-to-many definitions (lines 464-541); [false]
    when the function returned from inside the loop. *)
Fixpoint loadJunctionTables (defns : list FieldManyToManyDefn) : M bool :=
  match defns with
  | [] => ret true
  | d :: rest =>
      let* r := exec (junctionSelectQuery d) [] in
      match r with
      | None => qCritical (ErrorExecuting (junctionSelectQuery d)) ;;; ret false
      | Some res =>
          let thisToOtherKeys := readJunctionRows d (resRows res) in
          forEachKey d thisToOtherKeys (uniqueKeys thisToOtherKeys) ;;;
          loadJunctionTables rest
      end
  end.

Definition mainSelectQuery (st : impl) : Query :=
  SelectFrom (appendColumNames (fieldSimpleDefns st) true false) (tableName st).

(** [DbRecords::loadAll] (lines 339-545) *)
Definition loadAll (st : impl) : M unit :=
  DbTransaction (
    let* r := exec (mainSelectQuery st) [] in
    match r with
    | None => qCritical (ErrorExecuting (mainSelectQuery st)) ;;; ret false
    | Some res =>
        loadRows st (resRows res) ;;;
        let* finished := loadJunctionTables (fieldManyToManyDefns st) in
        if finished then commitConnection else ret false
    end).

(** ** Record store: writing *)

(** [VString] of the database string for an enum field, the value itself
    otherwise ("Enums need to be converted to strings first"). *)
Definition encodeForDb (fieldDefn : FieldSimpleDefn) (bindValue : QVariant) : M QVariant :=
  if FieldType_eqb (fieldType fieldDefn) FtEnum
  then let* s := enumToString fieldDefn bindValue in ret (VString s)
  else ret bindValue.

(** The binding loop of [insert] (lines 588-606): the first definition gives
    [primaryKeyParameter], the others are bound. *)
Fixpoint bindInsertValues (defns : list FieldSimpleDefn) (object : Handle)
    (skippedPrimaryKey : bool) (primaryKeyParameter : option string)
    (binds : Binds) : M (Binds * option string) :=
  match defns with
  | [] => ret (binds, primaryKeyParameter)
  | fieldDefn :: rest =>
      if negb skippedPrimaryKey
      then bindInsertValues rest object true (Some (propertyName fieldDefn)) binds
      else
        let* v := property object (Some (propertyName fieldDefn)) in
        let* v := encodeForDb fieldDefn v in
        bindInsertValues rest object skippedPrimaryKey primaryKeyParameter
                         (bindValue (columnName fieldDefn) v binds)
  end.

(** The loop over the junction tables in [insert] (lines 649-651): the
    result of [insertIntoFieldManyToManyDefn] is not looked at. *)
Fixpoint insertJunctionTables (defns : list FieldManyToManyDefn) (object : Handle)
    (primaryKey : QVariant) : M unit :=
  match defns with
  | [] => ret tt
  | d :: rest =>
      insertIntoFieldManyToManyDefn d object primaryKey ;;;
      insertJunctionTables rest object primaryKey
  end.

Definition insertQuery (st : impl) : Query :=
  InsertInto (tableName st) (appendColumNames (fieldSimpleDefns st) false false).

(** The second half of [insert] (lines 625-659), entered once the statement
    for the main table has succeeded with result [res]. *)
Definition insertRecorded (st : impl) (object : Handle)
    (primaryKeyParameter : option string) (res : ExecResult) : M bool :=
  let* hasFeature := (fun w => Done (driverHasLastInsertId w) w) in
  Q_ASSERT hasFeature AssertLastInsertId ;;;
  let primaryKey := resLastInsertId res in
  setProperty object primaryKeyParameter primaryKey ;;;
  let* known := contains (toInt primaryKey) in
  Q_ASSERT (negb known) AssertKeyNotCached ;;;
  cacheInsert (toInt primaryKey) object ;;;
  insertJunctionTables (fieldManyToManyDefns st) object primaryKey ;;;
  emitEvent (EvObjectInserted (toInt primaryKey)) ;;;
  commitConnection.

(** [DbRecords::insert] (lines 555-660) *)
Definition insert (st : impl) (object : Handle) : M unit :=
  DbTransaction (
    let* bound := bindInsertValues (fieldSimpleDefns st) object false None [] in
    let primaryKeyParameter := snd bound in
    let* current := property object primaryKeyParameter in
    let currentPrimaryKey := toInt current in
    Q_ASSERT (Z.leb currentPrimaryKey 0) AssertKeyUnset ;;;
    let* r := exec (insertQuery st) (fst bound) in
    match r with
    | None => qCritical (ErrorExecuting (insertQuery st)) ;;; ret false
    | Some res => insertRecorded st object primaryKeyParameter res
    end).

(** The binding loop of [update] (lines 709-719): every definition is bound,
    the primary key included. *)
Fixpoint bindUpdateValues (defns : list FieldSimpleDefn) (object : Handle)
    (binds : Binds) : M Binds :=
  match defns with
  | [] => ret binds
  | fieldDefn :: rest =>
      let* v := property object (Some (propertyName fieldDefn)) in
      let* v := encodeForDb fieldDefn v in
      bindUpdateValues rest object (bindValue (columnName fieldDefn) v binds)
  end.

(** The loop over the junction tables in [update] (lines 733-751); [false]
    when the function returned from inside the loop. *)
Fixpoint updateJunctionTables (defns : list FieldManyToManyDefn) (object : Handle)
    (primaryKey : QVariant) : M bool :=
  match defns with
  | [] => ret true
  | d :: rest =>
      let* deleted := deleteFromFieldManyToManyDefn d primaryKey in
      if negb deleted then ret false
      else
        let* inserted := insertIntoFieldManyToManyDefn d object primaryKey in
        if negb inserted then ret false
        else updateJunctionTables rest object primaryKey
  end.

(** The SET list of lines 686-699 names every column but the first. *)
Definition updateQuery (st : impl) (primaryKeyColumn : string) : Query :=
  UpdateSet (tableName st) (appendColumNames (fieldSimpleDefns st) false false)
            primaryKeyColumn.

(** [DbRecords::update] (lines 662-755) *)
Definition update (st : impl) (object : Handle) : M unit :=
  DbTransaction (
    match fieldSimpleDefns st with
    | [] => abort AssertIndexInRange
    | keyDefn :: _ =>
        let primaryKeyColumn := columnName keyDefn in
        let* primaryKey := property object (Some (propertyName keyDefn)) in
        let* binds := bindUpdateValues (fieldSimpleDefns st) object [] in
        let* r := exec (updateQuery st primaryKeyColumn) binds in
        match r with
        | None => qCritical (ErrorExecuting (updateQuery st primaryKeyColumn)) ;;; ret false
        | Some _ =>
            let* finished := updateJunctionTables (fieldManyToManyDefns st) object primaryKey in
            if finished then commitConnection else ret false
        end
    end).

(** [DbRecords::updateProperty] (lines 757-853).  The first search compares
    the texts ([strcmp]); the second (line 807) compares the pointers, which
    the texts do not decide: [samePointer fd] tells whether the caller's
    pointer is the very [fd.propertyName]. *)
Definition updateProperty (st : impl) (object : Handle)
    (propertyToUpdateInDb : string) (samePointer : FieldSimpleDefn -> bool) : M unit :=
  DbTransaction (
    match fieldSimpleDefns st with
    | [] => abort AssertIndexInRange
    | keyDefn :: _ =>
        let primaryKeyColumn := columnName keyDefn in
        let* primaryKey := property object (Some (propertyName keyDefn)) in
        match List.find (fun fd => String.eqb (propertyName fd) propertyToUpdateInDb)
                        (fieldSimpleDefns st) with
        | Some matchingFieldDefn =>
            let columnToUpdateInDb := columnName matchingFieldDefn in
            let q := UpdateSet (tableName st) [columnToUpdateInDb] primaryKeyColumn in
            let* propertyBindValue := property object (Some propertyToUpdateInDb) in
            match List.find samePointer (fieldSimpleDefns st) with
            | None => abort AssertPropertyKnown
            | Some fieldDefn =>
                let* propertyBindValue := encodeForDb fieldDefn propertyBindValue in
                let binds := bindValue columnToUpdateInDb propertyBindValue [] in
                let binds := bindValue primaryKeyColumn primaryKey binds in
                let* r := exec q binds in
                match r with
                | None => qCritical (ErrorExecuting q) ;;; ret false
                | Some _ => commitConnection
                end
            end
        | None =>
            match List.find (fun jt => String.eqb (m2mPropertyName jt) propertyToUpdateInDb)
                            (fieldManyToManyDefns st) with
            | None => abort AssertPropertyKnown
            | Some d =>
                let* deleted := deleteFromFieldManyToManyDefn d primaryKey in
                if negb deleted then ret false
                else
                  let* inserted := insertIntoFieldManyToManyDefn d object primaryKey in
                  if negb inserted then ret false
                  else commitConnection
            end
        end
    end).

(** The loop over the junction tables in [hardDelete] (lines 900-904) *)
Fixpoint deleteJunctionTables (defns : list FieldManyToManyDefn)
    (primaryKey : QVariant) : M bool :=
  match defns with
  | [] => ret true
  | d :: rest =>
      let* deleted := deleteFromFieldManyToManyDefn d primaryKey in
      if negb deleted then ret false
      else deleteJunctionTables rest primaryKey
  end.

(** [DbRecords::hardDelete] (lines 862-913) *)
Definition hardDelete (st : impl) (id : Z) : M unit :=
  DbTransaction (
    match fieldSimpleDefns st with
    | [] => abort AssertIndexInRange
    | keyDefn :: _ =>
        let primaryKeyColumn := columnName keyDefn in
        let q := DeleteFrom (tableName st) primaryKeyColumn in
        let primaryKey := VInt id in
        let* r := exec q (bindValue primaryKeyColumn primaryKey []) in
        match r with
        | None => qCritical (ErrorExecuting q) ;;; ret false
        | Some _ =>
            let* finished := deleteJunctionTables (fieldManyToManyDefns st) primaryKey in
            if negb finished then ret false
            else cacheRemove id ;;; commitConnection
        end
    end).

(** [DbRecords::findMatching] (lines 916-922): [std::find_if] over the
    cache; [None] is [std::nullopt].  Qt leaves the order in which a [QHash]
    is traversed open; the model takes the order of [map_to_list].  The
    match function is given the shared pointer and may look at the objects. *)
Definition findMatching (matchFunction : Handle -> World -> bool) : M (option Handle) :=
  fun w =>
    Done (snd <$> List.find (fun entry => matchFunction (snd entry) w)
                            (map_to_list (allObjects w)))
         w.

(** * Vocabulary of the statements *)

(** [m] keeps the property [I] of the world. *)
Definition keeps (I : World -> Prop) {A : Type} (m : M A) : Prop :=
  forall w a w', I w -> m w = Done a w' -> I w'.

(** The events of statement level: a statement that ran, an error that was
    reported. *)
Definition isExecOrCritical (e : Event) : bool :=
  match e with EvExec _ _ _ | EvCritical _ => true | _ => false end.

(** "Mapping is bijective within a field": no native value and no database
    string occurs twice. *)
Definition bijective (mapping : list EnumAndItsDbString) : Prop :=
  NoDup (map native mapping) /\ NoDup (map dbString mapping).

(** The [primaryKeyParameter] with which the binding loop of [insert] ends:
    the property of the first definition the loop meets, unless it had
    skipped one before. *)
Definition firstPropertyName (skipped : bool) (primaryKeyParameter : option string)
    (defns : list FieldSimpleDefn) : option string :=
  if skipped then primaryKeyParameter
  else match defns with
       | [] => primaryKeyParameter
       | fieldDefn :: _ => Some (propertyName fieldDefn)
       end.

(** The key an object presents to the store: the integer value of the
    property named by the first field definition. *)
Definition primaryKeyOf (st : impl) (o : Object) : Z :=
  toInt match firstPropertyName false None (fieldSimpleDefns st) with
        | Some n => default Invalid (o !! n)
        | None => Invalid
        end.

(** Which assertions a computation can stop at. *)
Definition abortsIn {A : Type} (E : Fatal -> Prop) (m : M A) : Prop :=
  forall w why, m w = Aborted why -> E why.

(** The relation list that [insertIntoFieldManyToManyDefn] writes for an
    object: the list held by the property or, under [assumeMaxOneEntry], the
    one-element list of the property value. *)
Definition relationList (d : FieldManyToManyDefn) (o : Object) : list QVariant :=
  let bindValues := default Invalid (o !! m2mPropertyName d) in
  toList (if assumeMaxOneEntry d then VList [bindValues] else bindValues).

(** The rows of a junction table that belong to a key. *)
Definition junctionRowsOf (d : FieldManyToManyDefn) (key : QVariant) (t : Table) : list Row :=
  List.filter (fun r => sqlEq (rowValue (thisPrimaryKeyColumn d) r) key) (tblRows t).

(** The rows of a junction table that belong to other keys. *)
Definition otherRowsOf (d : FieldManyToManyDefn) (key : QVariant) (t : Table) : list Row :=
  List.filter (fun r => negb (sqlEq (rowValue (thisPrimaryKeyColumn d) r) key)) (tblRows t).

(** What the resynchronisation establishes for one junction table: the rows
    of other keys are as before, and the rows of this key are the relation
    list, entry by entry, numbered from 1 where there is an order column. *)
Definition resynced (d : FieldManyToManyDefn) (key : QVariant) (o : Object)
    (t t' : Table) : Prop :=
  otherRowsOf d key t' = otherRowsOf d key t /\
  map (rowValue (otherPrimaryKeyColumn d)) (junctionRowsOf d key t')
    = map toSql (relationList d o) /\
  (hasOrderByColumn d = true ->
   map (rowValue (orderByColumn d)) (junctionRowsOf d key t')
     = map VInt (seqZ 1 (Z.of_nat (length (relationList d o))))).

(** Two worlds that differ at most in their trace. *)
Definition sameButTrace (w w' : World) : Prop :=
  database w' = database w /\ savepoint w' = savepoint w /\ faults w' = faults w /\
  allObjects w' = allObjects w /\ heap w' = heap w /\ nextHandle w' = nextHandle w.

(** The schema a store is built from is well formed when no property is
    declared twice and every enum field comes with its mapping: the "coding
    errors" that the assertions of [loadAll] and [stringToEnum] guard. *)
Definition wellFormed (st : impl) : Prop :=
  NoDup (map propertyName (fieldSimpleDefns st)) /\
  Forall (fun fd => fieldType fd = FtEnum -> is_Some (enumMapping fd))
         (fieldSimpleDefns st).

(** Every cached shared pointer owns an object. *)
Definition cacheOwnsObjects (w : World) : Prop :=
  forall id h, allObjects w !! id = Some h -> is_Some (heap w !! h).

(** The native value [stringToEnum] decodes a database value to. *)
Definition decodeEnum (fieldDefn : FieldSimpleDefn) (valueFromDb : QVariant) : Z :=
  match enumMapping fieldDefn with
  | Some mapping =>
      match List.find (fun ii => String.eqb (toString valueFromDb) (dbString ii)) mapping with
      | Some found => native found
      | None => 0
      end
  | None => 0
  end.

(** The key [loadAll] files a result row under: the integer value of the
    first declared column, after decoding if that column is an enum; [-1]
    when the row has no valid value there, or when nothing is declared. *)
Definition rowKey (st : impl) (row : Row) : Z :=
  match fieldSimpleDefns st with
  | [] => -1
  | fieldDefn :: _ =>
      let fieldValue := resultValue (columnName fieldDefn) row in
      if negb (isValid fieldValue) then -1
      else if FieldType_eqb (fieldType fieldDefn) FtEnum
           then toInt (VInt (decodeEnum fieldDefn fieldValue))
           else toInt fieldValue
  end.

(** [primaryKey] as the loop over the fields of a row leaves it, when it
    was entered with the given [readPrimaryKey] and [primaryKey]. *)
Definition keyAfter (readPrimaryKey : bool) (primaryKey : Z)
    (defns : list FieldSimpleDefn) (row : Row) : Z :=
  if readPrimaryKey then primaryKey
  else match defns with
       | [] => primaryKey
       | fieldDefn :: _ =>
           let fieldValue := resultValue (columnName fieldDefn) row in
           if negb (isValid fieldValue) then primaryKey
           else if FieldType_eqb (fieldType fieldDefn) FtEnum
                then toInt (VInt (decodeEnum fieldDefn fieldValue))
                else toInt fieldValue
       end.

(** The keys are new to the cache and pairwise different. *)
Definition freshKeys (cache : gmap Z Handle) (keys : list Z) : Prop :=
  NoDup keys /\ Forall (fun k => cache !! k = None) keys.

(** The answer of the next [exec()]: nothing when a fault is due or the
    database rejects the statement. *)
Definition execAnswer (q : Query) (b : Binds) (w : World) : option ExecResult :=
  if hd false (faults w) then None else execQuery q b (database w).

(** The rows that the SELECT over the main table delivers, if it succeeds. *)
Definition mainRows (st : impl) (w : World) : option (list Row) :=
  resRows <$> execAnswer (mainSelectQuery st) [] w.


(** A statement that ran and succeeded. *)
Definition isSuccessfulExec (e : Event) : bool :=
  match e with EvExec _ _ succeeded => succeeded | _ => false end.

(** Events inside a transaction scope, as opposed to its begin, commit and
    rollback. *)
Definition isInsideScope (e : Event) : bool :=
  match e with EvTransaction | EvCommit _ | EvRollback => false | _ => true end.

(** No statement failed and no error was reported. *)
Definition noFailure (e : Event) : bool :=
  match e with EvExec _ _ succeeded => succeeded | EvCritical _ => false | _ => true end.

(** How an operation that is all-or-nothing can end, seen from the trace and
    the database: nothing failed and the commit succeeded; or nothing failed
    before the commit, the commit failed and the scope rolled back; or the
    operation returned without any commit and the scope rolled back.  In the
    last two cases the database is as before. *)
Definition allOrNothing (w w' : World) : Prop :=
  exists evs,
    forallb isInsideScope evs = true /\
    ((forallb noFailure evs = true /\
      trace w' = trace w ++ [EvTransaction] ++ evs ++ [EvCommit true])
     \/
     (forallb noFailure evs = true /\
      trace w' = trace w ++ [EvTransaction] ++ evs ++ [EvCommit false; EvRollback] /\
      database w' = database w)
     \/
     (trace w' = trace w ++ [EvTransaction] ++ evs ++ [EvRollback] /\
      database w' = database w)).

(** A step that answers whether it succeeded: it leaves the savepoint alone,
    adds statement events only, and answers [true] only if all of its
    statements succeeded. *)
Definition stepOk (m : M bool) : Prop :=
  forall w r w', m w = Done r w' ->
    savepoint w' = savepoint w /\
    exists evs, trace w' = trace w ++ evs /\
                forallb isExecOrCritical evs = true /\
                (r = true -> forallb isSuccessfulExec evs = true).


(** The table [updateProperty] writes for a property name: the main table
    for the property of a simple field, the junction table for the property
    of a many-to-many field (lines 781-799). *)
Definition tableOfProperty (st : impl) (propertyToUpdateInDb : string) : option string :=
  match List.find (fun fd => String.eqb (propertyName fd) propertyToUpdateInDb)
                  (fieldSimpleDefns st) with
  | Some _ => Some (tableName st)
  | None =>
      m2mTableName <$>
        List.find (fun jt => String.eqb (m2mPropertyName jt) propertyToUpdateInDb)
                  (fieldManyToManyDefns st)
  end.

(** ** A running example

    A recipe store: main table [recipe(id, name, type)], where [type] is an
    enum, and one relation, the hops of a recipe, kept in the junction table
    [hop_in_recipe(recipe_id, hop_id, hop_number)]. *)

Module Sample.

Definition lager : EnumAndItsDbString := {| native := 1; dbString := "Lager" |}.

Definition typeMapping : list EnumAndItsDbString :=
  [ {| native := 0; dbString := "Ale" |}; lager ].

Definition keyField : FieldSimpleDefn :=
  {| fieldType := FtInt; columnName := "id"; propertyName := "key";
     enumMapping := None |}.

Definition nameField : FieldSimpleDefn :=
  {| fieldType := FtString; columnName := "name"; propertyName := "name";
     enumMapping := None |}.

Definition typeField : FieldSimpleDefn :=
  {| fieldType := FtEnum; columnName := "type"; propertyName := "type";
     enumMapping := Some typeMapping |}.

Definition hops (one : bool) : FieldManyToManyDefn :=
  {| m2mTableName := "hop_in_recipe"; m2mPropertyName := "hopIds";
     thisPrimaryKeyColumn := "recipe_id"; otherPrimaryKeyColumn := "hop_id";
     orderByColumn := "hop_number"; assumeMaxOneEntry := one |}.

Definition recipes (one : bool) : impl :=
  {| tableName := "recipe"; fieldSimpleDefns := [keyField; nameField; typeField];
     fieldManyToManyDefns := [hops one] |}.

Definition recipeTable (rows : list Row) : Table :=
  {| tblColumns := ["id"; "name"; "type"]; tblAutoKey := Some "id";
     tblNextId := 1 + Z.of_nat (length rows); tblRows := rows |}.

Definition hopTable (rows : list Row) : Table :=
  {| tblColumns := ["recipe_id"; "hop_id"; "hop_number"]; tblAutoKey := None;
     tblNextId := 1; tblRows := rows |}.

Definition brewery (recipeRows hopRows : list Row) : Database :=
  <["recipe" := recipeTable recipeRows]> (<["hop_in_recipe" := hopTable hopRows]> ∅).

Definition recipeRow (id : Z) (name type : string) : Row :=
  [("id", VInt id); ("name", VString name); ("type", VString type)].

Definition hopRow (recipe hop number : Z) : Row :=
  [("recipe_id", VInt recipe); ("hop_id", VInt hop); ("hop_number", VInt number)].

Definition ipa (key : Z) (hopIds : QVariant) : Object :=
  <["key" := VInt key]> (<["name" := VString "IPA"]> (<["type" := VInt 1]>
    (<["hopIds" := hopIds]> ∅))).

(** A world with one object, at handle 0, and nothing cached. *)
Definition world (d : Database) (o : Object) (f : list bool) : World :=
  {| database := d; savepoint := None; faults := f; driverHasLastInsertId := true;
     allObjects := ∅; heap := <[0%nat := o]> ∅; nextHandle := 1%nat; trace := [] |}.

(** The world of a store that has just been created. *)
Definition startup (d : Database) : World :=
  {| database := d; savepoint := None; faults := []; driverHasLastInsertId := true;
     allObjects := ∅; heap := ∅; nextHandle := 0%nat; trace := [] |}.

(** The world of a store that keeps one object, cached under key 1. *)
Definition keeping (d : Database) (o : Object) : World :=
  {| database := d; savepoint := None; faults := []; driverHasLastInsertId := true;
     allObjects := <[1 := 0%nat]> ∅; heap := <[0%nat := o]> ∅; nextHandle := 1%nat;
     trace := [] |}.

Definition worldAfter {A : Type} (o : Outcome A) (otherwise : World) : World :=
  match o with Done _ w => w | Aborted _ => otherwise end.

End Sample.

(** * Reasoning about the monad *)

Lemma bind_Done {A B : Type} (m : M A) (k : A -> M B) (w w' : World) (b : B) :
  bind m k w = Done b w' <-> exists a w1, m w = Done a w1 /\ k a w1 = Done b w'.
Proof.
  unfold bind. split.
  - destruct (m w) as [a w1|why]; [eauto | discriminate].
  - intros (a & w1 & -> & H). exact H.
Qed.

Lemma bind_Aborted {A B : Type} (m : M A) (k : A -> M B) (w : World) (why : Fatal) :
  bind m k w = Aborted why <->
  m w = Aborted why \/ exists a w1, m w = Done a w1 /\ k a w1 = Aborted why.
Proof.
  unfold bind. split.
  - destruct (m w) as [a w1|why']; intros H; [right; eauto | left; congruence].
  - intros [-> | (a & w1 & -> & H)]; [reflexivity | exact H].
Qed.

(** ** Frames: what the database-only steps leave alone *)

Section Frame.
Variable I : World -> Prop.
Hypothesis I_record : forall e w, isExecOrCritical e = true -> I w -> I (record e w).
Hypothesis I_setDatabase : forall d w, I w -> I (setDatabase d w).
Hypothesis I_setFaults : forall f w, I w -> I (setFaults f w).

Lemma keeps_ret {A : Type} (a : A) : keeps I (ret a).
Proof. intros w a' w' Hw [= _ <-]. exact Hw. Qed.

Lemma keeps_abort {A : Type} why : keeps I (@abort A why).
Proof. intros w a w' _ [=]. Qed.

Lemma keeps_bind {A B : Type} (m : M A) (k : A -> M B) :
  keeps I m -> (forall a, keeps I (k a)) -> keeps I (bind m k).
Proof.
  intros Hm Hk w b w' Hw H. apply bind_Done in H as (a & w1 & H1 & H2).
  eapply Hk; [|exact H2]. eapply Hm; eauto.
Qed.

Lemma keeps_assert cond why : keeps I (Q_ASSERT cond why).
Proof. unfold Q_ASSERT. destruct cond; [apply keeps_ret | apply keeps_abort]. Qed.

Lemma keeps_emitEvent e : isExecOrCritical e = true -> keeps I (emitEvent e).
Proof. intros He w a w' Hw [= _ <-]. auto. Qed.

Lemma keeps_qCritical c : keeps I (qCritical c).
Proof. apply keeps_emitEvent. reflexivity. Qed.

Lemma I_takeFault w : I w -> I (snd (takeFault w)).
Proof. unfold takeFault. destruct (faults w); simpl; auto. Qed.

Lemma keeps_exec q b : keeps I (exec q b).
Proof.
  intros w a w' Hw. unfold exec.
  pose proof (I_takeFault w Hw) as H1.
  destruct (takeFault w) as [[] w1]; simpl in *.
  - intros [= _ <-]; auto.
  - destruct (execQuery q b (database w1)); intros [= _ <-]; auto.
Qed.

Lemma keeps_property h name : keeps I (property h name).
Proof.
  intros w a w' Hw. unfold property.
  destruct (heap w !! h); [|discriminate].
  destruct name; intros [= _ <-]; auto.
Qed.

Lemma keeps_enumToString fd v : keeps I (enumToString fd v).
Proof.
  unfold enumToString. apply keeps_bind; [apply keeps_assert|intros _].
  destruct (enumMapping fd); [|apply keeps_abort].
  destruct (List.find _ _); [apply keeps_ret | apply keeps_abort].
Qed.

Lemma keeps_encodeForDb fd v : keeps I (encodeForDb fd v).
Proof.
  unfold encodeForDb. destruct (FieldType_eqb _ _); [|apply keeps_ret].
  apply keeps_bind; [apply keeps_enumToString | intros; apply keeps_ret].
Qed.

Lemma keeps_insertJunctionRows d pk l : forall n b, keeps I (insertJunctionRows d pk n b l).
Proof.
  induction l as [|v l IH]; intros n b; simpl; [apply keeps_ret|].
  apply keeps_bind; [apply keeps_exec|intros [r|]].
  - apply IH.
  - apply keeps_bind; [apply keeps_qCritical | intros; apply keeps_ret].
Qed.

Lemma keeps_insertIntoFieldManyToManyDefn d h pk :
  keeps I (insertIntoFieldManyToManyDefn d h pk).
Proof.
  unfold insertIntoFieldManyToManyDefn.
  apply keeps_bind; [apply keeps_property | intros; apply keeps_insertJunctionRows].
Qed.

Lemma keeps_deleteFromFieldManyToManyDefn d pk :
  keeps I (deleteFromFieldManyToManyDefn d pk).
Proof.
  unfold deleteFromFieldManyToManyDefn.
  apply keeps_bind; [apply keeps_exec|intros [r|]]; [apply keeps_ret|].
  apply keeps_bind; [apply keeps_qCritical | intros; apply keeps_ret].
Qed.

Lemma keeps_bindUpdateValues defns h : forall b, keeps I (bindUpdateValues defns h b).
Proof.
  induction defns as [|fd defns IH]; intros b; simpl; [apply keeps_ret|].
  apply keeps_bind; [apply keeps_property|intros v].
  apply keeps_bind; [apply keeps_encodeForDb|intros v']. apply IH.
Qed.

Lemma keeps_updateJunctionTables defns h pk : keeps I (updateJunctionTables defns h pk).
Proof.
  induction defns as [|d defns IH]; simpl; [apply keeps_ret|].
  apply keeps_bind; [apply keeps_deleteFromFieldManyToManyDefn|intros []]; simpl;
    [|apply keeps_ret].
  apply keeps_bind; [apply keeps_insertIntoFieldManyToManyDefn|intros []]; simpl;
    [apply IH | apply keeps_ret].
Qed.

Lemma keeps_deleteJunctionTables defns pk : keeps I (deleteJunctionTables defns pk).
Proof.
  induction defns as [|d defns IH]; simpl; [apply keeps_ret|].
  apply keeps_bind; [apply keeps_deleteFromFieldManyToManyDefn|intros []]; simpl;
    [apply IH | apply keeps_ret].
Qed.

Lemma keeps_contains id : keeps I (contains id).
Proof. intros w a w' Hw [= _ <-]. exact Hw. Qed.

Lemma keeps_getById id : keeps I (getById id).
Proof. intros w a w' Hw [= _ <-]. exact Hw. Qed.

Lemma keeps_stringToEnum fd v : keeps I (stringToEnum fd v).
Proof.
  unfold stringToEnum. apply keeps_bind; [apply keeps_assert|intros _].
  destruct (enumMapping fd); [|apply keeps_abort].
  destruct (List.find _ _); [apply keeps_ret|].
  apply keeps_bind; [apply keeps_qCritical | intros; apply keeps_ret].
Qed.

Lemma keeps_bindInsertValues defns h :
  forall skipped pk b, keeps I (bindInsertValues defns h skipped pk b).
Proof.
  induction defns as [|fd defns IH]; intros skipped pk b; simpl; [apply keeps_ret|].
  destruct skipped; simpl; [|apply IH].
  apply keeps_bind; [apply keeps_property|intros v].
  apply keeps_bind; [apply keeps_encodeForDb|intros v']. apply IH.
Qed.

Lemma keeps_insertJunctionTables defns h pk : keeps I (insertJunctionTables defns h pk).
Proof.
  induction defns as [|d defns IH]; simpl; [apply keeps_ret|].
  apply keeps_bind; [apply keeps_insertIntoFieldManyToManyDefn | intros _; apply IH].
Qed.

Section WithSavepoint.
Hypothesis I_setSavepoint : forall s w, I w -> I (setSavepoint s w).
Hypothesis I_recordAny : forall e w, I w -> I (record e w).

Lemma keeps_transaction : keeps I transaction.
Proof. intros w a w' Hw [= _ <-]. auto. Qed.

Lemma keeps_DbTransaction_ctor : keeps I DbTransaction_ctor.
Proof. intros w a w' Hw [= _ <-]. apply I_recordAny, I_setSavepoint, Hw. Qed.

Lemma keeps_commitConnection : keeps I commitConnection.
Proof.
  intros w a w' Hw. unfold commitConnection.
  pose proof (I_takeFault w Hw) as H1.
  destruct (takeFault w) as [[] w1]; simpl in *; intros [= _ <-]; auto.
Qed.

Lemma keeps_rollback : keeps I rollback.
Proof.
  intros w a w' Hw. unfold rollback.
  destruct (savepoint w); intros [= _ <-]; auto.
Qed.

Lemma keeps_DbTransaction scope : keeps I scope -> keeps I (DbTransaction scope).
Proof.
  intros H. unfold DbTransaction.
  apply keeps_bind; [apply keeps_DbTransaction_ctor|intros _].
  apply keeps_bind; [exact H|intros []]; [apply keeps_ret | apply keeps_rollback].
Qed.

Lemma keeps_update st h : keeps I (update st h).
Proof.
  unfold update. apply keeps_DbTransaction.
  destruct (fieldSimpleDefns st) as [|keyDefn rest] eqn:E; [apply keeps_abort|].
  apply keeps_bind; [apply keeps_property|intros pk].
  apply keeps_bind; [apply keeps_bindUpdateValues|intros b].
  apply keeps_bind; [apply keeps_exec|intros [r|]].
  - apply keeps_bind; [apply keeps_updateJunctionTables|intros []];
      [apply keeps_commitConnection | apply keeps_ret].
  - apply keeps_bind; [apply keeps_qCritical | intros; apply keeps_ret].
Qed.

Lemma keeps_updateProperty st h prop same : keeps I (updateProperty st h prop same).
Proof.
  unfold updateProperty. apply keeps_DbTransaction.
  destruct (fieldSimpleDefns st) as [|keyDefn rest] eqn:E; [apply keeps_abort|].
  apply keeps_bind; [apply keeps_property|intros pk].
  destruct (List.find _ (keyDefn :: rest)) as [matching|].
  - apply keeps_bind; [apply keeps_property|intros v].
    destruct (List.find same _) as [fd|]; [|apply keeps_abort].
    apply keeps_bind; [apply keeps_encodeForDb|intros v'].
    apply keeps_bind; [apply keeps_exec|intros [r|]];
      [apply keeps_commitConnection|].
    apply keeps_bind; [apply keeps_qCritical | intros; apply keeps_ret].
  - destruct (List.find _ (fieldManyToManyDefns st)) as [d|]; [|apply keeps_abort].
    apply keeps_bind; [apply keeps_deleteFromFieldManyToManyDefn|intros []]; simpl;
      [|apply keeps_ret].
    apply keeps_bind; [apply keeps_insertIntoFieldManyToManyDefn|intros []]; simpl;
      [apply keeps_commitConnection | apply keeps_ret].
Qed.
End WithSavepoint.
End Frame.

(** * Enum codec: round trip *)

Lemma wrap32_small (z : Z) : int_range z -> wrap32 z = z.
Proof.
  unfold int_range, wrap32. intros H.
  rewrite Z.mod_small; lia.
Qed.

Lemma NoDup_map_injective {A B : Type} (f : A -> B) (l : list A) (x y : A) :
  NoDup (map f l) -> In x l -> In y l -> f x = f y -> x = y.
Proof.
  induction l as [|a l IH]; simpl; [tauto|].
  intros Hnd Hx Hy Hf. inversion Hnd as [|? ? Hnotin Hnd']; subst.
  destruct Hx as [->|Hx], Hy as [->|Hy]; auto.
  - exfalso. apply Hnotin. rewrite Hf. apply list_elem_of_In, in_map. exact Hy.
  - exfalso. apply Hnotin. rewrite <- Hf. apply list_elem_of_In, in_map. exact Hx.
Qed.

Lemma find_first_of {A : Type} (f : A -> bool) (l : list A) (x : A) :
  In x l -> f x = true -> exists y, List.find f l = Some y /\ In y l /\ f y = true.
Proof.
  intros Hin Hf.
  destruct (List.find f l) as [y|] eqn:E.
  - apply List.find_some in E. eauto.
  - exfalso. pose proof (List.find_none f l E x Hin) as H. congruence.
Qed.

(** C8.  For an enum field whose mapping is bijective, and for every pair
    (native, string) of the mapping, encoding the native value with
    [enumToString] and decoding the result with [stringToEnum] gives the
    native value back; nothing is logged on the way. *)
Theorem enum_round_trip (fieldDefn : FieldSimpleDefn)
    (mapping : list EnumAndItsDbString) (e : EnumAndItsDbString) (w : World) :
  fieldType fieldDefn = FtEnum ->
  enumMapping fieldDefn = Some mapping ->
  bijective mapping ->
  In e mapping ->
  int_range (native e) ->
  (let* s := enumToString fieldDefn (VInt (native e)) in
   stringToEnum fieldDefn (VString s)) w = Done (native e) w.
Proof.
  intros Hty Hmap [Hnat Hstr] Hin Hrange.
  unfold bind, enumToString, stringToEnum, bind, Q_ASSERT.
  rewrite Hty, Hmap. simpl. rewrite (wrap32_small _ Hrange).
  destruct (find_first_of (fun ii => Z.eqb (native e) (native ii)) mapping e Hin
              (Z.eqb_refl _)) as (e1 & -> & Hin1 & Heq1).
  apply Z.eqb_eq in Heq1.
  assert (e1 = e) as -> by (apply (NoDup_map_injective native mapping); auto).
  simpl.
  destruct (find_first_of (fun ii => String.eqb (dbString e) (dbString ii)) mapping e Hin
              (String.eqb_refl _)) as (e2 & -> & Hin2 & Heq2).
  apply String.eqb_eq in Heq2.
  assert (e2 = e) as -> by (apply (NoDup_map_injective dbString mapping); auto).
  reflexivity.
Qed.

(** * The cache under [softDelete], [update] and [updateProperty] *)

(** C9.  [softDelete(id)] removes the cache entry of [id] and nothing else:
    [contains(id)] is false afterwards, every other cache entry is as before,
    and the database, the objects and the trace of executed statements are
    untouched. *)
Theorem softDelete_cache_only (id : Z) (w : World) :
  exists w',
    softDelete id w = Done tt w' /\
    allObjects w' = delete id (allObjects w) /\
    contains id w' = Done false w' /\
    (forall id', id' <> id -> allObjects w' !! id' = allObjects w !! id') /\
    database w' = database w /\ savepoint w' = savepoint w /\
    trace w' = trace w /\ heap w' = heap w /\ faults w' = faults w.
Proof.
  eexists. split; [reflexivity|]. simpl. repeat split.
  - unfold contains. simpl. rewrite lookup_delete_eq. reflexivity.
  - intros id' Hne. apply lookup_delete_ne. congruence.
Qed.

(** C10.  [update] and [updateProperty] leave the cache map as it is,
    however they end (commit, or return after a failed statement or a failed
    commit): no entry is added, removed or re-keyed, and [contains] and
    [getById] answer as before. *)
Theorem update_keeps_cache (st : impl) (object : Handle) (w w' : World) :
  (update st object w = Done tt w' \/
   exists propertyToUpdateInDb samePointer,
     updateProperty st object propertyToUpdateInDb samePointer w = Done tt w') ->
  allObjects w' = allObjects w /\
  forall id,
    (exists b, contains id w = Done b w /\ contains id w' = Done b w') /\
    (exists p, getById id w = Done p w /\ getById id w' = Done p w').
Proof.
  intros H.
  assert (allObjects w' = allObjects w) as Heq.
  { destruct H as [H | (prop & same & H)].
    - exact (keeps_update (fun x => allObjects x = allObjects w)
               ltac:(auto) ltac:(auto) ltac:(auto) ltac:(auto) ltac:(auto) st object w tt w' eq_refl H).
    - exact (keeps_updateProperty (fun x => allObjects x = allObjects w)
               ltac:(auto) ltac:(auto) ltac:(auto) ltac:(auto) ltac:(auto) st object prop same w tt w' eq_refl H). }
  split; [exact Heq|]. intros id. unfold contains, getById. rewrite Heq.
  split; eexists; split; reflexivity.
Qed.

(** * [insert] *)

Lemma bind_eq_Done {A B : Type} (m : M A) (k : A -> M B) (w w1 : World) (a : A) :
  m w = Done a w1 -> bind m k w = k a w1.
Proof. unfold bind. intros ->. reflexivity. Qed.

Lemma bind_eq_Aborted {A B : Type} (m : M A) (k : A -> M B) (w : World) why :
  m w = Aborted why -> bind m k w = Aborted why.
Proof. unfold bind. intros ->. reflexivity. Qed.

Lemma Q_ASSERT_Done (cond : bool) why (w w' : World) (a : unit) :
  Q_ASSERT cond why w = Done a w' -> cond = true /\ w' = w.
Proof. unfold Q_ASSERT. destruct cond; [intros [= _ <-]; auto | discriminate]. Qed.

Lemma property_Done (h : Handle) name (w w' : World) (v : QVariant) :
  property h name w = Done v w' ->
  w' = w /\ exists o, heap w !! h = Some o /\
            v = match name with Some n => default Invalid (o !! n) | None => Invalid end.
Proof.
  unfold property. destruct (heap w !! h) as [o|]; [|discriminate].
  destruct name; intros [= <- <-]; eauto.
Qed.

Lemma property_of_object (h : Handle) name (w : World) (o : Object) :
  heap w !! h = Some o ->
  property h name w =
  Done (match name with Some n => default Invalid (o !! n) | None => Invalid end) w.
Proof. unfold property. intros ->. destruct name; reflexivity. Qed.

Lemma enumToString_Done fd v (w w' : World) s :
  enumToString fd v w = Done s w' -> w' = w.
Proof.
  unfold enumToString. intros H. apply bind_Done in H as ([] & w1 & H1 & H).
  apply Q_ASSERT_Done in H1 as [_ ->].
  destruct (enumMapping fd); [|discriminate].
  destruct (List.find _ _); [|discriminate]. injection H. auto.
Qed.

Lemma encodeForDb_Done fd v (w w' : World) v' :
  encodeForDb fd v w = Done v' w' -> w' = w.
Proof.
  unfold encodeForDb. destruct (FieldType_eqb _ _).
  - intros H. apply bind_Done in H as (s & w1 & H1 & H).
    apply enumToString_Done in H1 as ->. injection H. auto.
  - intros [= _ <-]. reflexivity.
Qed.

(** Encoding a value either yields a value or stops at one of the two
    assertions of [enumToString] that depend on the mapping. *)
Lemma encodeForDb_cases fd v (w : World) :
  (exists v', encodeForDb fd v w = Done v' w) \/
  encodeForDb fd v w = Aborted AssertEnumMappingSet \/
  encodeForDb fd v w = Aborted AssertEnumMatch.
Proof.
  unfold encodeForDb. destruct (FieldType_eqb _ _) eqn:E; [|left; eexists; reflexivity].
  unfold enumToString, bind, Q_ASSERT. rewrite E. simpl.
  destruct (enumMapping fd); [|auto].
  destruct (List.find _ _); [left; eexists; reflexivity | auto].
Qed.

Lemma bindInsertValues_Done defns h :
  forall skipped pk b (w w' : World) r,
    bindInsertValues defns h skipped pk b w = Done r w' ->
    w' = w /\ snd r = firstPropertyName skipped pk defns.
Proof.
  induction defns as [|fd defns IH]; intros skipped pk b w w' r; simpl.
  - intros [= <- <-]. destruct skipped; auto.
  - destruct skipped; simpl.
    + intros H. apply bind_Done in H as (v & w1 & H1 & H).
      apply property_Done in H1 as [-> _].
      apply bind_Done in H as (v' & w2 & H2 & H).
      apply encodeForDb_Done in H2 as ->.
      apply IH in H. exact H.
    + intros H. apply IH in H. exact H.
Qed.

Lemma bindInsertValues_cases defns h (o : Object) :
  forall skipped pk b (w : World),
    heap w !! h = Some o ->
    (exists r, bindInsertValues defns h skipped pk b w = Done r w) \/
    bindInsertValues defns h skipped pk b w = Aborted AssertEnumMappingSet \/
    bindInsertValues defns h skipped pk b w = Aborted AssertEnumMatch.
Proof.
  induction defns as [|fd defns IH]; intros skipped pk b w Hh; simpl.
  - left. eexists. reflexivity.
  - destruct skipped; simpl; [|apply IH; exact Hh].
    rewrite (bind_eq_Done _ _ _ _ _ (property_of_object h _ w o Hh)).
    destruct (encodeForDb_cases fd (default Invalid (o !! propertyName fd)) w)
      as [[v' Hv] | [Hv | Hv]].
    + rewrite (bind_eq_Done _ _ _ _ _ Hv). apply IH. exact Hh.
    + rewrite (bind_eq_Aborted _ _ _ _ Hv). auto.
    + rewrite (bind_eq_Aborted _ _ _ _ Hv). auto.
Qed.

Lemma abortsIn_bind {A B : Type} (E : Fatal -> Prop) (m : M A) (k : A -> M B) :
  abortsIn E m -> (forall a, abortsIn E (k a)) -> abortsIn E (bind m k).
Proof.
  intros Hm Hk w why H. apply bind_Aborted in H as [H | (a & w1 & _ & H)].
  - exact (Hm w why H).
  - exact (Hk a w1 why H).
Qed.

Lemma abortsIn_total {A : Type} (E : Fatal -> Prop) (m : M A) :
  (forall w, exists a w', m w = Done a w') -> abortsIn E m.
Proof. intros H w why Hw. destruct (H w) as (a & w' & Ha). congruence. Qed.

Lemma abortsIn_abort {A : Type} (E : Fatal -> Prop) why : E why -> abortsIn E (@abort A why).
Proof. intros H w why' [= <-]. exact H. Qed.

Lemma abortsIn_assert (E : Fatal -> Prop) cond why : E why -> abortsIn E (Q_ASSERT cond why).
Proof.
  intros H. unfold Q_ASSERT. destruct cond; [|apply abortsIn_abort; exact H].
  intros w why' [=].
Qed.

Lemma abortsIn_exec (E : Fatal -> Prop) q b : abortsIn E (exec q b).
Proof.
  apply abortsIn_total. intros w. unfold exec.
  destruct (takeFault w) as [[] w1]; [eauto|].
  destruct (execQuery q b (database w1)); eauto.
Qed.

Lemma abortsIn_commitConnection (E : Fatal -> Prop) : abortsIn E commitConnection.
Proof.
  apply abortsIn_total. intros w. unfold commitConnection.
  destruct (takeFault w) as [[] w1]; eauto.
Qed.

Lemma abortsIn_rollback (E : Fatal -> Prop) : abortsIn E rollback.
Proof.
  apply abortsIn_total. intros w. unfold rollback. destruct (savepoint w); eauto.
Qed.

Lemma abortsIn_property (E : Fatal -> Prop) h name :
  E NullDereference -> abortsIn E (property h name).
Proof.
  intros H w why. unfold property. destruct (heap w !! h); [destruct name; discriminate|].
  intros [= <-]. exact H.
Qed.

Lemma abortsIn_setProperty (E : Fatal -> Prop) h name v :
  E NullDereference -> abortsIn E (setProperty h name v).
Proof.
  intros H w why. unfold setProperty. destruct (heap w !! h); [destruct name; discriminate|].
  intros [= <-]. exact H.
Qed.

Lemma abortsIn_insertJunctionRows (E : Fatal -> Prop) d pk l :
  forall n b, abortsIn E (insertJunctionRows d pk n b l).
Proof.
  induction l as [|v l IH]; intros n b; simpl.
  - intros w why [=].
  - apply abortsIn_bind; [apply abortsIn_exec|intros [r|]]; [apply IH|].
    apply abortsIn_bind; [|intros _ w why [=]]. intros w why [=].
Qed.

Lemma abortsIn_insertJunctionTables (E : Fatal -> Prop) defns h pk :
  E NullDereference -> abortsIn E (insertJunctionTables defns h pk).
Proof.
  intros H. induction defns as [|d defns IH]; simpl.
  - intros w why [=].
  - apply abortsIn_bind; [|intros _; exact IH].
    unfold insertIntoFieldManyToManyDefn.
    apply abortsIn_bind; [apply abortsIn_property; exact H|intros v].
    apply abortsIn_insertJunctionRows.
Qed.

Lemma abortsIn_insertRecorded (E : Fatal -> Prop) st h name res :
  E NullDereference -> E AssertLastInsertId -> E AssertKeyNotCached ->
  abortsIn E (insertRecorded st h name res).
Proof.
  intros H1 H2 H3. unfold insertRecorded.
  apply abortsIn_bind; [intros ? ? [=]|intros hf].
  apply abortsIn_bind; [apply abortsIn_assert; exact H2|intros _].
  apply abortsIn_bind; [apply abortsIn_setProperty; exact H1|intros _].
  apply abortsIn_bind; [intros ? ? [=]|intros known].
  apply abortsIn_bind; [apply abortsIn_assert; exact H3|intros _].
  apply abortsIn_bind; [intros ? ? [=]|intros _].
  apply abortsIn_bind; [apply abortsIn_insertJunctionTables; exact H1|intros _].
  apply abortsIn_bind; [intros ? ? [=]|intros _].
  apply abortsIn_commitConnection.
Qed.

(** [insert] up to the check of the key, for an object that exists. *)
Lemma insert_unfold (st : impl) (object : Handle) (o : Object) (w : World) r :
  heap w !! object = Some o ->
  let w1 := record EvTransaction (setSavepoint (Some (default (database w) (savepoint w))) w) in
  bindInsertValues (fieldSimpleDefns st) object false None [] w1 = Done r w1 ->
  insert st object w =
  (let* committed :=
     (Q_ASSERT (Z.leb (primaryKeyOf st o) 0) AssertKeyUnset ;;;
      let* r0 := exec (insertQuery st) (fst r) in
      match r0 with
      | None => qCritical (ErrorExecuting (insertQuery st)) ;;; ret false
      | Some res => insertRecorded st object (snd r) res
      end) in
   if committed then ret tt else rollback) w1.
Proof.
  intros Hh w1 Hr.
  pose proof (bindInsertValues_Done _ _ _ _ _ _ _ _ Hr) as [_ Hname].
  unfold insert, DbTransaction.
  rewrite (bind_eq_Done DbTransaction_ctor _ w w1 tt eq_refl).
  unfold bind at 1. unfold bind at 1. fold w1. rewrite Hr.
  rewrite (bind_eq_Done _ _ _ _ _ (property_of_object object (snd r) w1 o Hh)).
  unfold primaryKeyOf. rewrite <- Hname. reflexivity.
Qed.

(** C7.  [insert] requires an object whose primary key is unset.  Called on
    an object whose key is positive it stops at an assertion: at the check of
    the key, unless the encoding of an enum property failed an assertion of
    its own before.  Called on an object whose key is at most zero it never
    stops at the check of the key. *)
Theorem insert_requires_unset_key (st : impl) (object : Handle) (o : Object) (w : World) :
  heap w !! object = Some o ->
  (0 < primaryKeyOf st o ->
     insert st object w = Aborted AssertKeyUnset \/
     insert st object w = Aborted AssertEnumMappingSet \/
     insert st object w = Aborted AssertEnumMatch) /\
  (primaryKeyOf st o <= 0 -> insert st object w <> Aborted AssertKeyUnset).
Proof.
  intros Hh.
  set (w1 := record EvTransaction (setSavepoint (Some (default (database w) (savepoint w))) w)).
  assert (heap w1 !! object = Some o) as Hh1 by exact Hh.
  destruct (bindInsertValues_cases (fieldSimpleDefns st) object o false None [] w1 Hh1)
    as [[r Hr] | [Hr | Hr]].
  - rewrite (insert_unfold st object o w r Hh Hr). fold w1. split.
    + intros Hpos. left.
      destruct (Z.leb_spec (primaryKeyOf st o) 0) as [Hle|_]; [lia|]. reflexivity.
    + intros Hle Habs.
      destruct (Z.leb_spec (primaryKeyOf st o) 0) as [_|Hgt]; [|lia].
      apply bind_Aborted in Habs as [Habs | (c & w2 & _ & Habs)].
      * rewrite (bind_eq_Done (Q_ASSERT true AssertKeyUnset) _ w1 w1 tt eq_refl) in Habs.
        apply bind_Aborted in Habs as [Habs | ([res|] & w2 & _ & Habs)].
        -- exact (abortsIn_exec (fun why => why <> AssertKeyUnset) _ _ w1 _ Habs eq_refl).
        -- refine (abortsIn_insertRecorded (fun why => why <> AssertKeyUnset)
                     st object (snd r) res _ _ _ w2 _ Habs eq_refl); discriminate.
        -- discriminate.
      * destruct c; [discriminate|].
        exact (abortsIn_rollback (fun why => why <> AssertKeyUnset) w2 _ Habs eq_refl).
  - assert (insert st object w = Aborted AssertEnumMappingSet) as ->.
    { unfold insert, DbTransaction.
      rewrite (bind_eq_Done DbTransaction_ctor _ w w1 tt eq_refl).
      unfold bind at 1. unfold bind at 1. fold w1. rewrite Hr. reflexivity. }
    split; [auto | discriminate].
  - assert (insert st object w = Aborted AssertEnumMatch) as ->.
    { unfold insert, DbTransaction.
      rewrite (bind_eq_Done DbTransaction_ctor _ w w1 tt eq_refl).
      unfold bind at 1. unfold bind at 1. fold w1. rewrite Hr. reflexivity. }
    split; [auto | discriminate].
Qed.

(** ** The order of notification and commit *)

Lemma takeFault_frame (w : World) :
  let w1 := snd (takeFault w) in
  database w1 = database w /\ savepoint w1 = savepoint w /\
  allObjects w1 = allObjects w /\ heap w1 = heap w /\
  nextHandle w1 = nextHandle w /\ trace w1 = trace w /\
  driverHasLastInsertId w1 = driverHasLastInsertId w.
Proof. unfold takeFault. destruct (faults w); simpl; repeat split. Qed.

Lemma exec_Done q b (w w' : World) r :
  exec q b w = Done r w' ->
  savepoint w' = savepoint w /\ allObjects w' = allObjects w /\ heap w' = heap w /\
  nextHandle w' = nextHandle w /\
  match r with
  | Some res => execQuery q b (database w) = Some res /\
                database w' = resDatabase res /\
                trace w' = trace w ++ [EvExec q b true]
  | None => database w' = database w /\ trace w' = trace w ++ [EvExec q b false]
  end.
Proof.
  unfold exec. pose proof (takeFault_frame w) as (Hd & Hs & Hc & Hh & Hn & Ht & _).
  destruct (takeFault w) as [failed w1]. simpl in *.
  destruct failed.
  - intros [= <- <-]. simpl. rewrite Hd, Hs, Hc, Hh, Hn, Ht. repeat split.
  - rewrite Hd. destruct (execQuery q b (database w)) as [res|] eqn:E.
    + intros [= <- <-]. simpl. rewrite Hs, Hc, Hh, Hn, Ht. repeat split.
    + intros [= <- <-]. simpl. rewrite Hd, Hs, Hc, Hh, Hn, Ht. repeat split.
Qed.

Lemma commitConnection_Done (w w' : World) ok :
  commitConnection w = Done ok w' ->
  database w' = database w /\ allObjects w' = allObjects w /\ heap w' = heap w /\
  trace w' = trace w ++ [EvCommit ok] /\
  savepoint w' = (if ok then None else savepoint w).
Proof.
  unfold commitConnection. pose proof (takeFault_frame w) as (Hd & Hs & Hc & Hh & _ & Ht & _).
  destruct (takeFault w) as [failed w1]. simpl in *.
  destruct failed; intros [= <- <-]; simpl; rewrite ?Hd, ?Hs, ?Hc, ?Hh, ?Ht; repeat split.
Qed.

Lemma rollback_Done (w w' : World) a :
  rollback w = Done a w' ->
  allObjects w' = allObjects w /\ heap w' = heap w /\
  trace w' = trace w ++ [EvRollback] /\
  forall d, savepoint w = Some d -> database w' = d.
Proof.
  unfold rollback. destruct (savepoint w) as [d|]; intros [= _ <-]; simpl; repeat split.
  - intros d' [= <-]. reflexivity.
  - discriminate.
Qed.

Lemma setProperty_Done h name v (w w' : World) a :
  setProperty h name v w = Done a w' ->
  database w' = database w /\ savepoint w' = savepoint w /\
  allObjects w' = allObjects w /\ trace w' = trace w /\ faults w' = faults w /\
  exists o, heap w !! h = Some o /\
    heap w' = match name with
              | Some n => <[h := <[n := v]> o]> (heap w)
              | None => heap w
              end.
Proof.
  unfold setProperty. destruct (heap w !! h) as [o|]; [|discriminate].
  destruct name; intros [= _ <-]; simpl; repeat split; eauto.
Qed.

(** Writing the junction rows leaves the savepoint and the cache alone and
    adds only statement and error events to the trace. *)
Lemma insertJunctionTables_Done defns h pk (w w' : World) a :
  insertJunctionTables defns h pk w = Done a w' ->
  savepoint w' = savepoint w /\ allObjects w' = allObjects w /\
  exists evs, trace w' = trace w ++ evs /\ forallb isExecOrCritical evs = true.
Proof.
  intros H.
  pose proof (keeps_insertJunctionTables
    (fun x => savepoint x = savepoint w /\ allObjects x = allObjects w /\
              exists evs, trace x = trace w ++ evs /\ forallb isExecOrCritical evs = true))
    as K.
  refine (K _ _ _ defns h pk w a w' _ H).
  - intros e x He (Hs & Hc & evs & Ht & Hall). simpl. repeat split; auto.
    exists (evs ++ [e]). rewrite Ht, app_assoc, forallb_app, Hall. simpl.
    rewrite He. auto.
  - intros d x Hx. exact Hx.
  - intros f x Hx. exact Hx.
  - repeat split. exists []. rewrite app_nil_r. auto.
Qed.

Lemma insertRecorded_Done st h name res (w w' : World) ok :
  insertRecorded st h name res w = Done ok w' ->
  savepoint w' = (if ok then None else savepoint w) /\
  exists evs,
    forallb isExecOrCritical evs = true /\
    trace w' = trace w ++ evs
                 ++ [EvObjectInserted (toInt (resLastInsertId res)); EvCommit ok].
Proof.
  unfold insertRecorded. intros H.
  apply bind_Done in H as (hf & w1 & [= <- <-] & H).
  apply bind_Done in H as ([] & w2 & H2 & H). apply Q_ASSERT_Done in H2 as [_ ->].
  apply bind_Done in H as ([] & w3 & H3 & H).
  apply setProperty_Done in H3 as (_ & Hs3 & _ & Ht3 & _).
  apply bind_Done in H as (known & w4 & [= <- <-] & H).
  apply bind_Done in H as ([] & w5 & H5 & H). apply Q_ASSERT_Done in H5 as [_ ->].
  apply bind_Done in H as ([] & w6 & [= <-] & H).
  apply bind_Done in H as ([] & w7 & H7 & H).
  apply insertJunctionTables_Done in H7 as (Hs7 & _ & evs & Ht7 & Hall).
  apply bind_Done in H as ([] & w8 & [= <-] & H).
  apply commitConnection_Done in H as (_ & _ & _ & Ht & Hs).
  simpl in *. split.
  - rewrite Hs, Hs7, Hs3. reflexivity.
  - exists evs. split; [exact Hall|].
    rewrite Ht, Ht7, Ht3, <- !app_assoc. reflexivity.
Qed.

Lemma exec_is_answer q b (w w' : World) r :
  exec q b w = Done r w' -> r = execAnswer q b w.
Proof.
  unfold exec, execAnswer, takeFault.
  destruct (faults w) as [|[] rest]; simpl.
  - destruct (execQuery q b (database w)); intros [= <- _]; reflexivity.
  - intros [= <- _]. reflexivity.
  - destruct (execQuery q b (database w)); intros [= <- _]; reflexivity.
Qed.

Lemma last_app_two {A : Type} (l : list A) (a b : A) : last (l ++ [a; b]) = Some b.
Proof. change [a; b] with ([a] ++ [b]). rewrite app_assoc. apply last_snoc. Qed.

(** C4.  Let [insert] be called with no transaction open, and let it return.
    When the statement for the main table succeeds, the "inserted"
    notification carrying the key the database assigned is emitted, and only
    then is the commit attempted: in the trace the notification comes right
    before the commit, whatever the commit answers.  When the commit fails
    the transaction is rolled back, so the database is as it was before
    [insert], although the listeners have been notified.  Only when the
    statement for the main table fails is there neither notification nor
    commit. *)
Theorem insert_notifies_before_commit (st : impl) (object : Handle) (w w' : World) :
  savepoint w = None ->
  insert st object w = Done tt w' ->
  (exists b,
     execAnswer (insertQuery st) b w = None /\
     trace w' = trace w ++ [EvTransaction; EvExec (insertQuery st) b false;
                            EvCritical (ErrorExecuting (insertQuery st)); EvRollback] /\
     database w' = database w)
  \/
  (exists b res evs ok,
     execAnswer (insertQuery st) b w = Some res /\
     forallb isExecOrCritical evs = true /\
     trace w' = trace w ++ [EvTransaction; EvExec (insertQuery st) b true] ++ evs
                  ++ [EvObjectInserted (toInt (resLastInsertId res)); EvCommit ok]
                  ++ (if ok then [] else [EvRollback]) /\
     (ok = false -> database w' = database w)).
Proof.
  unfold insert, DbTransaction. intros Hclosed H.
  apply bind_Done in H as ([] & w1 & [= <-] & H).
  apply bind_Done in H as (committed & w2 & Hscope & Hend).
  apply bind_Done in Hscope as (bound & w1' & Hb & Hscope).
  apply bindInsertValues_Done in Hb as [-> _].
  apply bind_Done in Hscope as (current & w1' & Hp & Hscope).
  apply property_Done in Hp as [-> _].
  apply bind_Done in Hscope as ([] & w1' & Ha & Hscope).
  apply Q_ASSERT_Done in Ha as [_ ->].
  apply bind_Done in Hscope as (r & w3 & Hx & Hscope).
  pose proof (exec_is_answer _ _ _ _ _ Hx) as Hans.
  change (r = execAnswer (insertQuery st) (fst bound) w) in Hans.
  apply exec_Done in Hx as (Hs3 & _ & _ & _ & Hr).
  simpl in Hs3. rewrite Hclosed in Hs3. simpl in Hs3.
  destruct r as [res|].
  - destruct Hr as (_ & Hd3 & Ht3). right.
    apply insertRecorded_Done in Hscope as (Hs2 & evs & Hall & Ht2).
    exists (fst bound), res, evs, committed. simpl in Ht3.
    split; [symmetry; exact Hans|]. split; [exact Hall|].
    destruct committed.
    + injection Hend as <-. split; [|discriminate].
      rewrite Ht2, Ht3, <- !app_assoc. reflexivity.
    + apply rollback_Done in Hend as (_ & _ & Ht & Hd). split.
      * rewrite Ht, Ht2, Ht3, <- !app_assoc. reflexivity.
      * intros _. apply Hd. rewrite Hs2, Hs3. reflexivity.
  - destruct Hr as (Hd3 & Ht3). left.
    apply bind_Done in Hscope as ([] & w4 & [= <-] & [= <- <-]).
    apply rollback_Done in Hend as (_ & _ & Ht & Hd). simpl in Ht, Hd, Ht3.
    exists (fst bound). split; [symmetry; exact Hans|]. split.
    + rewrite Ht, Ht3, <- !app_assoc. reflexivity.
    + apply Hd. exact Hs3.
Qed.

(** * [update]: resynchronisation of the junction tables *)

Lemma rowValue_rowSet_eq c v (r : Row) : rowValue c (rowSet c v r) = v.
Proof.
  induction r as [|[c' x] r IH]; simpl.
  - rewrite String.eqb_refl. reflexivity.
  - destruct (String.eqb c' c) eqn:E; simpl; rewrite E; auto.
Qed.

Lemma rowValue_rowSet_ne c c' v (r : Row) :
  c <> c' -> rowValue c (rowSet c' v r) = rowValue c r.
Proof.
  intros Hne. induction r as [|[c0 x] r IH]; simpl.
  - destruct (String.eqb c' c) eqn:E; [apply String.eqb_eq in E; congruence | reflexivity].
  - destruct (String.eqb c0 c') eqn:E'; simpl.
    + apply String.eqb_eq in E' as ->.
      destruct (String.eqb c' c) eqn:E; [apply String.eqb_eq in E; congruence | reflexivity].
    + destruct (String.eqb c0 c); auto.
Qed.

Lemma rowValue_given (f : string -> QVariant) (cols : list string) c :
  In c cols -> rowValue c (map (fun c' => (c', f c')) cols) = f c.
Proof.
  induction cols as [|c0 cols IH]; simpl; [tauto|].
  intros [-> | Hin].
  - rewrite String.eqb_refl. reflexivity.
  - destruct (String.eqb c0 c) eqn:E; [apply String.eqb_eq in E as ->; reflexivity | auto].
Qed.

Lemma existsb_eqb_In c (cols : list string) :
  existsb (String.eqb c) cols = true <-> In c cols.
Proof.
  rewrite existsb_exists. split.
  - intros (x & Hin & Hx). apply String.eqb_eq in Hx as ->. exact Hin.
  - intros Hin. exists c. split; [exact Hin | apply String.eqb_refl].
Qed.

(** The row that an INSERT stores reads, at each listed column, as the bound
    value. *)
Lemma insertRow_rows (t : Table) cols b :
  exists row, tblRows (insertRow t cols b) = tblRows t ++ [row] /\
    forall c, In c cols -> rowValue c row = toSql (boundValue c b).
Proof.
  unfold insertRow. simpl.
  destruct (tblAutoKey t) as [k|].
  - destruct (existsb (String.eqb k) cols) eqn:E.
    + eexists. split; [reflexivity|]. intros c Hc.
      apply (rowValue_given (fun c' => toSql (boundValue c' b))). exact Hc.
    + eexists. split; [reflexivity|]. intros c Hc. simpl.
      destruct (String.eqb k c) eqn:Ek.
      * apply String.eqb_eq in Ek as ->.
        apply existsb_eqb_In in Hc. congruence.
      * apply (rowValue_given (fun c' => toSql (boundValue c' b))). exact Hc.
  - eexists. split; [reflexivity|]. intros c Hc.
    apply (rowValue_given (fun c' => toSql (boundValue c' b))). exact Hc.
Qed.

Lemma execQuery_InsertInto table cols b (db : Database) res :
  execQuery (InsertInto table cols) b db = Some res ->
  exists t, db !! table = Some t /\ distinctNames cols = true /\
            resDatabase res = <[table := insertRow t cols b]> db.
Proof.
  simpl. destruct (db !! table) as [t|]; [|discriminate].
  destruct (negb (isEmptyList cols)); [|discriminate].
  destruct (distinctNames cols); [|discriminate]. simpl.
  destruct (forallb _ _); [|discriminate].
  intros [= <-]. eauto.
Qed.

Lemma execQuery_DeleteFrom table whereCol b (db : Database) res :
  execQuery (DeleteFrom table whereCol) b db = Some res ->
  exists t, db !! table = Some t /\
            resDatabase res = <[table := deleteRows t whereCol b]> db.
Proof.
  simpl. destruct (db !! table) as [t|]; [|discriminate].
  destruct (hasColumn t whereCol); [|discriminate].
  intros [= <-]. eauto.
Qed.

Lemma execQuery_UpdateSet table cols whereCol b (db : Database) res :
  execQuery (UpdateSet table cols whereCol) b db = Some res ->
  exists t', resDatabase res = <[table := t']> db.
Proof.
  simpl. destruct (db !! table) as [t|]; [|discriminate].
  destruct (_ && _); [|discriminate].
  intros [= <-]. eauto.
Qed.

Lemma distinct_junction_columns (d : FieldManyToManyDefn) :
  distinctNames ([thisPrimaryKeyColumn d; otherPrimaryKeyColumn d]
                   ++ (if hasOrderByColumn d then [orderByColumn d] else [])) = true ->
  thisPrimaryKeyColumn d <> otherPrimaryKeyColumn d /\
  (hasOrderByColumn d = true ->
   thisPrimaryKeyColumn d <> orderByColumn d /\ otherPrimaryKeyColumn d <> orderByColumn d).
Proof.
  destruct (hasOrderByColumn d); simpl.
  - destruct (String.eqb_spec (thisPrimaryKeyColumn d) (otherPrimaryKeyColumn d)); simpl;
      [discriminate|].
    destruct (String.eqb_spec (thisPrimaryKeyColumn d) (orderByColumn d)); simpl;
      [discriminate|].
    destruct (String.eqb_spec (otherPrimaryKeyColumn d) (orderByColumn d)); simpl;
      [discriminate|]. auto.
  - destruct (String.eqb_spec (thisPrimaryKeyColumn d) (otherPrimaryKeyColumn d)); simpl;
      [discriminate|]. intros _. split; [auto | discriminate].
Qed.

(** The loop of [insertIntoFieldManyToManyDefn], when it reports success,
    appends one row per list entry to the junction table, in the order of the
    list, and touches no other table. *)
Lemma insertJunctionRows_true (d : FieldManyToManyDefn) (pk : QVariant) (l : list QVariant) :
  forall (n : Z) (b : Binds) (w w' : World) (t : Table),
    insertJunctionRows d pk n b l w = Done true w' ->
    database w !! m2mTableName d = Some t ->
    heap w' = heap w /\
    (forall T, T <> m2mTableName d -> database w' !! T = database w !! T) /\
    exists t' news,
      database w' !! m2mTableName d = Some t' /\
      tblRows t' = tblRows t ++ news /\
      Forall (fun r => rowValue (thisPrimaryKeyColumn d) r = toSql pk) news /\
      map (rowValue (otherPrimaryKeyColumn d)) news = map toSql l /\
      (hasOrderByColumn d = true ->
       map (rowValue (orderByColumn d)) news = map VInt (seqZ n (Z.of_nat (length l)))).
Proof.
  induction l as [|cur l IH]; intros n b w w' t H Ht.
  - simpl in H. injection H as <-. split; [reflexivity|]. split; [auto|].
    exists t, []. rewrite app_nil_r. repeat split; auto.
  - simpl in H. apply bind_Done in H as (r & w1 & Hx & H).
    apply exec_Done in Hx as (_ & _ & Hh1 & _ & Hr).
    destruct r as [res|].
    2:{ apply bind_Done in H as ([] & w2 & _ & [=]). }
    destruct Hr as (Hq & Hd1 & _).
    unfold junctionInsertQuery in Hq.
    apply execQuery_InsertInto in Hq as (t0 & Ht0 & Hdist & Hres).
    rewrite Ht in Ht0. injection Ht0 as <-.
    apply distinct_junction_columns in Hdist as (Hne1 & Hne2).
    set (cols := [thisPrimaryKeyColumn d; otherPrimaryKeyColumn d]
                   ++ (if hasOrderByColumn d then [orderByColumn d] else [])) in *.
    set (b' := if hasOrderByColumn d
               then bindValue (orderByColumn d) (VInt n)
                      (bindValue (otherPrimaryKeyColumn d) cur
                         (bindValue (thisPrimaryKeyColumn d) pk b))
               else bindValue (otherPrimaryKeyColumn d) cur
                      (bindValue (thisPrimaryKeyColumn d) pk b)) in *.
    destruct (insertRow_rows t cols b') as (row & Hrows & Hrow).
    assert (database w1 !! m2mTableName d = Some (insertRow t cols b')) as Ht1.
    { rewrite Hd1, Hres. apply lookup_insert_eq. }
    destruct (IH _ _ _ _ _ H Ht1) as (Hh & Hframe & t' & news & Ht' & Hrows' & Hthis & Hother & Hord).
    split; [congruence|]. split.
    { intros T HT. rewrite (Hframe T HT), Hd1, Hres. apply lookup_insert_ne. congruence. }
    exists t', (row :: news). split; [exact Ht'|]. split.
    { rewrite Hrows', Hrows, <- app_assoc. reflexivity. }
    assert (boundValue (thisPrimaryKeyColumn d) b' = pk) as Hbthis.
    { unfold b', boundValue, bindValue. destruct (hasOrderByColumn d).
      - destruct (Hne2 eq_refl) as (Hn1 & Hn2).
        rewrite rowValue_rowSet_ne by exact Hn1.
        rewrite rowValue_rowSet_ne by exact Hne1.
        apply rowValue_rowSet_eq.
      - rewrite rowValue_rowSet_ne by exact Hne1. apply rowValue_rowSet_eq. }
    assert (boundValue (otherPrimaryKeyColumn d) b' = cur) as Hbother.
    { unfold b', boundValue, bindValue. destruct (hasOrderByColumn d).
      - destruct (Hne2 eq_refl) as (Hn1 & Hn2).
        rewrite rowValue_rowSet_ne by exact Hn2.
        apply rowValue_rowSet_eq.
      - apply rowValue_rowSet_eq. }
    split; [|split].
    + constructor; [|exact Hthis]. rewrite Hrow, Hbthis; [reflexivity|].
      unfold cols. simpl. auto.
    + simpl. rewrite Hother, Hrow, Hbother; [reflexivity|].
      unfold cols. simpl. auto.
    + intros Ho. simpl length. rewrite Nat2Z.inj_succ, seqZ_cons by lia.
      simpl. rewrite Z.pred_succ, (Hord Ho). f_equal.
      rewrite Hrow.
      * unfold b', boundValue, bindValue. rewrite Ho.
        rewrite rowValue_rowSet_eq. reflexivity.
      * unfold cols. rewrite Ho. simpl. auto.
Qed.

Lemma deleteFromFieldManyToManyDefn_true (d : FieldManyToManyDefn) (pk : QVariant)
    (w w' : World) :
  deleteFromFieldManyToManyDefn d pk w = Done true w' ->
  heap w' = heap w /\
  (forall T, T <> m2mTableName d -> database w' !! T = database w !! T) /\
  exists t t',
    database w !! m2mTableName d = Some t /\
    database w' !! m2mTableName d = Some t' /\
    tblRows t' = otherRowsOf d pk t.
Proof.
  unfold deleteFromFieldManyToManyDefn. intros H.
  apply bind_Done in H as (r & w1 & Hx & H).
  apply exec_Done in Hx as (_ & _ & Hh1 & _ & Hr).
  destruct r as [res|].
  2:{ apply bind_Done in H as ([] & w2 & _ & [=]). }
  injection H as <-. destruct Hr as (Hq & Hd1 & _).
  apply execQuery_DeleteFrom in Hq as (t & Ht & Hres).
  split; [exact Hh1|]. split.
  - intros T HT. rewrite Hd1, Hres. apply lookup_insert_ne. congruence.
  - exists t, (deleteRows t (thisPrimaryKeyColumn d)
                 (bindValue (thisPrimaryKeyColumn d) pk [])).
    split; [exact Ht|]. split.
    + rewrite Hd1, Hres. apply lookup_insert_eq.
    + unfold deleteRows, otherRowsOf. simpl. rewrite String.eqb_refl. reflexivity.
Qed.

Lemma filter_all {A : Type} (f : A -> bool) (l : list A) :
  Forall (fun x => f x = true) l -> List.filter f l = l.
Proof.
  induction 1 as [|x l Hx _ IH]; simpl; [reflexivity|]. rewrite Hx, IH. reflexivity.
Qed.

Lemma filter_none {A : Type} (f : A -> bool) (l : list A) :
  Forall (fun x => f x = false) l -> List.filter f l = [].
Proof.
  induction 1 as [|x l Hx _ IH]; simpl; [reflexivity|]. rewrite Hx, IH. reflexivity.
Qed.

Lemma filter_filter_negb {A : Type} (f : A -> bool) (l : list A) :
  List.filter f (List.filter (fun x => negb (f x)) l) = [].
Proof.
  apply filter_none. apply Forall_forall. intros x Hx.
  apply list_elem_of_In, List.filter_In in Hx as [_ Hx].
  destruct (f x); [discriminate | reflexivity].
Qed.

Lemma filter_idem {A : Type} (f : A -> bool) (l : list A) :
  List.filter f (List.filter f l) = List.filter f l.
Proof.
  apply filter_all. apply Forall_forall. intros x Hx.
  apply list_elem_of_In, List.filter_In in Hx as [_ Hx]. exact Hx.
Qed.

(** Delete, then insert: one junction table resynchronised. *)
Lemma resync_one (d : FieldManyToManyDefn) (object : Handle) (o : Object) (k : Z)
    (w wa wb : World) :
  heap w !! object = Some o ->
  deleteFromFieldManyToManyDefn d (VInt k) w = Done true wa ->
  insertIntoFieldManyToManyDefn d object (VInt k) wa = Done true wb ->
  heap wb = heap w /\
  (forall T, T <> m2mTableName d -> database wb !! T = database w !! T) /\
  exists t t',
    database w !! m2mTableName d = Some t /\
    database wb !! m2mTableName d = Some t' /\
    resynced d (VInt k) o t t'.
Proof.
  intros Hh Hdel Hins.
  apply deleteFromFieldManyToManyDefn_true in Hdel as (Hha & Hfa & t & ta & Ht & Hta & Hrows).
  unfold insertIntoFieldManyToManyDefn in Hins.
  assert (heap wa !! object = Some o) as Hh' by (rewrite Hha; exact Hh).
  rewrite (bind_eq_Done _ _ _ _ _ (property_of_object object _ wa o Hh')) in Hins.
  fold (relationList d o) in Hins.
  destruct (insertJunctionRows_true d (VInt k) (relationList d o) 1 [] wa wb ta Hins Hta)
    as (Hhb & Hfb & t' & news & Ht' & Hrows' & Hthis & Hother & Hord).
  split; [congruence|]. split.
  { intros T HT. rewrite (Hfb T HT). apply Hfa. exact HT. }
  exists t, t'. split; [exact Ht|]. split; [exact Ht'|].
  assert (Forall (fun r => sqlEq (rowValue (thisPrimaryKeyColumn d) r) (VInt k) = true) news)
    as Hmatch.
  { eapply Forall_impl; [exact Hthis|]. intros r ->. simpl.
    unfold sqlEq. simpl. apply Z.eqb_refl. }
  assert (junctionRowsOf d (VInt k) t' = news) as Hmine.
  { unfold junctionRowsOf. rewrite Hrows', Hrows, List.filter_app.
    unfold otherRowsOf. rewrite filter_filter_negb. simpl.
    apply filter_all. exact Hmatch. }
  unfold resynced. rewrite Hmine. split; [|split; assumption].
  unfold otherRowsOf at 1. rewrite Hrows', Hrows, List.filter_app.
  unfold otherRowsOf. rewrite filter_idem.
  rewrite (filter_none _ news); [apply app_nil_r|].
  eapply Forall_impl; [exact Hmatch|]. intros r ->. reflexivity.
Qed.

(** The loop of [update] over junction tables with pairwise different
    names. *)
Lemma updateJunctionTables_true (object : Handle) (o : Object) (k : Z)
    (defns : list FieldManyToManyDefn) :
  forall (w w' : World),
    heap w !! object = Some o ->
    NoDup (map m2mTableName defns) ->
    updateJunctionTables defns object (VInt k) w = Done true w' ->
    (forall T, ~ In T (map m2mTableName defns) -> database w' !! T = database w !! T) /\
    forall d, In d defns ->
      exists t t',
        database w !! m2mTableName d = Some t /\
        database w' !! m2mTableName d = Some t' /\
        resynced d (VInt k) o t t'.
Proof.
  induction defns as [|d defns IH]; intros w w' Hh Hnd H.
  - simpl in H. injection H as <-. split; [auto | intros d []].
  - simpl in H. inversion Hnd as [|? ? Hnotin Hnd']; subst.
    apply bind_Done in H as (deleted & wa & Hdel & H).
    destruct deleted; simpl in H; [|discriminate].
    apply bind_Done in H as (inserted & wb & Hins & H).
    destruct inserted; simpl in H; [|discriminate].
    destruct (resync_one d object o k w wa wb Hh Hdel Hins)
      as (Hhb & Hframe & t & t' & Ht & Ht' & Hres).
    assert (heap wb !! object = Some o) as Hh' by (rewrite Hhb; exact Hh).
    destruct (IH wb w' Hh' Hnd' H) as (Hframe' & Hrest).
    split.
    + intros T HT. simpl in HT.
      rewrite Hframe' by tauto. apply Hframe. intros ->. tauto.
    + intros d' [<- | Hin].
      * exists t, t'. split; [exact Ht|]. split; [|exact Hres].
        rewrite Hframe'; [exact Ht'|]. rewrite <- list_elem_of_In. exact Hnotin.
      * destruct (Hrest d' Hin) as (t1 & t1' & Ht1 & Ht1' & Hres1).
        exists t1, t1'. split; [|auto].
        rewrite <- Ht1. symmetry. apply Hframe. intros Heq.
        apply Hnotin. rewrite <- Heq. apply list_elem_of_In, in_map. exact Hin.
Qed.

Lemma bindUpdateValues_Done defns h :
  forall b (w w' : World) r, bindUpdateValues defns h b w = Done r w' -> w' = w.
Proof.
  induction defns as [|fd defns IH]; intros b w w' r; simpl.
  - intros [= _ <-]. reflexivity.
  - intros H. apply bind_Done in H as (v & w1 & H1 & H).
    apply property_Done in H1 as [-> _].
    apply bind_Done in H as (v' & w2 & H2 & H).
    apply encodeForDb_Done in H2 as ->.
    apply IH in H. exact H.
Qed.

(** C3.  Let the object have an integer primary key [k], let the tables of
    the store have pairwise different names, and let [update] commit.  Then,
    for every many-to-many definition, the junction rows of other keys are as
    before, and the junction rows of [k] are exactly one row per entry of the
    object's current relation list, in the order of the list and numbered
    from 1 where there is an order column: whatever rows [k] had before are
    gone.  In particular a relation list [[x]] leaves exactly one junction
    row for [k], the row of [x]. *)
Theorem update_resyncs_junction_rows (st : impl) (object : Handle) (o : Object)
    (keyDefn : FieldSimpleDefn) (rest : list FieldSimpleDefn) (k : Z) (w w' : World) :
  fieldSimpleDefns st = keyDefn :: rest ->
  heap w !! object = Some o ->
  o !! propertyName keyDefn = Some (VInt k) ->
  NoDup (tableName st :: map m2mTableName (fieldManyToManyDefns st)) ->
  update st object w = Done tt w' ->
  last (trace w') = Some (EvCommit true) ->
  forall d, In d (fieldManyToManyDefns st) ->
    exists t t',
      database w !! m2mTableName d = Some t /\
      database w' !! m2mTableName d = Some t' /\
      resynced d (VInt k) o t t' /\
      (forall x, relationList d o = [x] ->
         exists row, junctionRowsOf d (VInt k) t' = [row] /\
                     rowValue (otherPrimaryKeyColumn d) row = toSql x).
Proof.
  intros Hdefns Hh Hkey Hnd H Hlast d Hd.
  unfold update, DbTransaction in H. rewrite Hdefns in H.
  apply bind_Done in H as ([] & w1 & [= <-] & H).
  apply bind_Done in H as (committed & w2 & Hscope & Hend).
  destruct committed.
  2:{ apply rollback_Done in Hend as (_ & _ & Ht & _).
      rewrite Ht, last_snoc in Hlast. discriminate. }
  injection Hend as <-.
  apply bind_Done in Hscope as (pk & w1' & Hp & Hscope).
  apply property_Done in Hp as [-> (o' & Ho' & ->)].
  simpl in Ho'. rewrite Hh in Ho'. injection Ho' as <-.
  rewrite Hkey in Hscope.
  change (default Invalid (Some (VInt k))) with (VInt k) in Hscope.
  apply bind_Done in Hscope as (binds & w1' & Hb & Hscope).
  apply bindUpdateValues_Done in Hb as ->.
  apply bind_Done in Hscope as (r & w3 & Hx & Hscope).
  apply exec_Done in Hx as (_ & _ & Hh3 & _ & Hr).
  destruct r as [res|].
  2:{ apply bind_Done in Hscope as ([] & w4 & _ & [=]). }
  destruct Hr as (Hq & Hd3 & _). simpl in Hq.
  apply bind_Done in Hscope as (finished & w4 & Hj & Hscope).
  destruct finished; [|discriminate].
  apply commitConnection_Done in Hscope as (Hd2 & _).
  inversion Hnd as [|? ? Hnotin Hnd']; subst.
  assert (heap w3 !! object = Some o) as Hh' by (rewrite Hh3; exact Hh).
  destruct (updateJunctionTables_true object o k _ w3 w4 Hh' Hnd' Hj) as (_ & Hall).
  destruct (Hall d Hd) as (t & t' & Ht & Ht' & Hres).
  exists t, t'. split; [|split; [|split]].
  - rewrite <- Ht, Hd3.
    apply (execQuery_UpdateSet (tableName st)) in Hq as (tm & ->).
    symmetry. apply lookup_insert_ne. intros Heq. apply Hnotin.
    rewrite Heq. apply list_elem_of_In, in_map. exact Hd.
  - rewrite Hd2. exact Ht'.
  - exact Hres.
  - intros x Hx. destruct Hres as (_ & Hother & _). rewrite Hx in Hother.
    destruct (junctionRowsOf d (VInt k) t') as [|row [|row' l]]; try discriminate.
    exists row. split; [reflexivity|]. simpl in Hother. congruence.
Qed.

(** * [loadAll] *)

Lemma sameButTrace_refl (w : World) : sameButTrace w w.
Proof. repeat split. Qed.

Lemma sameButTrace_trans (w1 w2 w3 : World) :
  sameButTrace w1 w2 -> sameButTrace w2 w3 -> sameButTrace w1 w3.
Proof.
  unfold sameButTrace. intros (? & ? & ? & ? & ? & ?) (? & ? & ? & ? & ? & ?).
  repeat split; congruence.
Qed.

Lemma sameButTrace_record (e : Event) (w : World) : sameButTrace w (record e w).
Proof. repeat split. Qed.

Lemma FieldType_eqb_eq (a b : FieldType) : FieldType_eqb a b = true <-> a = b.
Proof. destruct a, b; simpl; split; congruence. Qed.

Lemma stringToEnum_total fieldDefn v (w : World) :
  fieldType fieldDefn = FtEnum -> is_Some (enumMapping fieldDefn) ->
  exists w', stringToEnum fieldDefn v w = Done (decodeEnum fieldDefn v) w' /\
             sameButTrace w w'.
Proof.
  intros Hty [mapping Hmap]. unfold stringToEnum, decodeEnum, bind, Q_ASSERT.
  rewrite Hty, Hmap. simpl.
  destruct (List.find _ mapping).
  - eexists. split; [reflexivity | apply sameButTrace_refl].
  - eexists. split; [reflexivity | apply sameButTrace_record].
Qed.

(** On a well-formed schema the loop over the fields of a row always
    completes, with the key of the row, and changes nothing but the trace. *)
Lemma readFields_total table (defns : list FieldSimpleDefn) (row : Row) :
  forall (bundle : NamedParameterBundle) (pk : Z) (read : bool) (w : World),
    NoDup (map propertyName defns) ->
    Forall (fun fd => fieldType fd = FtEnum -> is_Some (enumMapping fd)) defns ->
    Forall (fun fd => bundle !! propertyName fd = None) defns ->
    exists bundle' w',
      readFields table defns row bundle pk read w
        = Done (bundle', keyAfter read pk defns row) w' /\
      sameButTrace w w'.
Proof.
  induction defns as [|fd defns IH]; intros bundle pk read w Hnd Henum Hfresh.
  - exists bundle, w. split; [|apply sameButTrace_refl].
    simpl. unfold keyAfter. destruct read; reflexivity.
  - inversion Hnd as [|? ? Hnotin Hnd']; subst.
    inversion Henum as [|? ? Hfd Henum']; subst.
    inversion Hfresh as [|? ? Hnone Hfresh']; subst.
    simpl. destruct (isValid (resultValue (columnName fd) row)) eqn:Hvalid; simpl.
    2:{ exists bundle, (record (EvCritical (ErrorReadingColumn (columnName fd) table)) w).
        split; [|apply sameButTrace_record].
        unfold keyAfter. rewrite Hvalid. simpl. destruct read; reflexivity. }
    assert (exists v w1,
              (if FieldType_eqb (fieldType fd) FtEnum
               then let* n := stringToEnum fd (resultValue (columnName fd) row) in ret (VInt n)
               else ret (resultValue (columnName fd) row)) w = Done v w1 /\
              sameButTrace w w1 /\
              toInt v = (if FieldType_eqb (fieldType fd) FtEnum
                         then toInt (VInt (decodeEnum fd (resultValue (columnName fd) row)))
                         else toInt (resultValue (columnName fd) row)))
      as (v & w1 & Hv & Hsame1 & Hint).
    { destruct (FieldType_eqb (fieldType fd) FtEnum) eqn:E.
      - apply FieldType_eqb_eq in E.
        destruct (stringToEnum_total fd (resultValue (columnName fd) row) w E (Hfd E))
          as (w1 & Hs & Hsame).
        eexists _, w1. rewrite (bind_eq_Done _ _ _ _ _ Hs). repeat split; apply Hsame.
      - eexists _, w. split; [reflexivity|]. split; [apply sameButTrace_refl | reflexivity]. }
    rewrite (bind_eq_Done _ _ _ _ _ Hv).
    rewrite Hnone. simpl.
    destruct (IH (<[propertyName fd := v]> bundle)
                 (if read then pk else toInt v) true w1 Hnd' Henum')
      as (bundle' & w' & Hrec & Hsame').
    { apply Forall_forall. intros fd' Hin.
      rewrite lookup_insert_ne.
      - rewrite Forall_forall in Hfresh'. apply Hfresh'. exact Hin.
      - intros Heq. apply Hnotin. rewrite Heq. apply list_elem_of_fmap. eauto. }
    exists bundle', w'. split; [|eapply sameButTrace_trans; eassumption].
    unfold bind at 1. simpl. rewrite Hrec. unfold keyAfter at 1. simpl.
    unfold keyAfter. rewrite Hvalid. simpl. rewrite Hint. destruct read; reflexivity.
Qed.

Lemma freshKeys_cons (cache : gmap Z Handle) (k : Z) (h : Handle) (keys : list Z) :
  cache !! k = None ->
  (freshKeys (<[k := h]> cache) keys <-> freshKeys cache (k :: keys)).
Proof.
  intros Hk. unfold freshKeys. rewrite !Forall_forall. split.
  - intros [Hnd Hall]. split; [|].
    + constructor; [|exact Hnd]. intros Hin.
      specialize (Hall k Hin). rewrite lookup_insert_eq in Hall. discriminate.
    + intros k' Hin. apply elem_of_cons in Hin as [-> | Hin]; [exact Hk|].
      specialize (Hall k' Hin).
      destruct (decide (k = k')) as [-> | Hne].
      * rewrite lookup_insert_eq in Hall. discriminate.
      * rewrite lookup_insert_ne in Hall by exact Hne. exact Hall.
  - intros [Hnd Hall]. inversion Hnd as [|? ? Hnotin Hnd']; subst.
    split; [exact Hnd'|]. intros k' Hin.
    rewrite lookup_insert_ne.
    + apply Hall. apply elem_of_cons. auto.
    + intros ->. exact (Hnotin Hin).
Qed.

Lemma keyAfter_rowKey (st : impl) (row : Row) :
  keyAfter false (-1) (fieldSimpleDefns st) row = rowKey st row.
Proof. unfold keyAfter, rowKey. destruct (fieldSimpleDefns st); reflexivity. Qed.

(** The loop over the rows of the main table, on a well-formed schema: it
    completes exactly when the keys of the rows are pairwise different and
    new to the cache, and then the cache has gained one entry per row; it
    stops at the duplicate-key assertion otherwise. *)
Lemma loadRows_outcome (st : impl) (rows : list Row) :
  wellFormed st ->
  forall w, cacheOwnsObjects w ->
    match loadRows st rows w with
    | Done _ w' =>
        freshKeys (allObjects w) (map (rowKey st) rows) /\
        cacheOwnsObjects w' /\
        dom (allObjects w') = dom (allObjects w) ∪ list_to_set (map (rowKey st) rows) /\
        size (allObjects w') = (size (allObjects w) + length rows)%nat /\
        database w' = database w /\ savepoint w' = savepoint w /\ faults w' = faults w
    | Aborted why =>
        why = AssertKeyNotLoaded /\ ~ freshKeys (allObjects w) (map (rowKey st) rows)
    end.
Proof.
  intros [Hnd Henum]. induction rows as [|row rows IH]; intros w Hown.
  - simpl. split; [split; constructor|]. split; [exact Hown|].
    split; [set_solver|]. split; [lia|]. auto.
  - simpl.
    destruct (readFields_total (tableName st) (fieldSimpleDefns st) row ∅ (-1) false w
                Hnd Henum) as (bundle & w1 & Hread & Hsame).
    { apply Forall_forall. intros fd _. apply lookup_empty. }
    rewrite keyAfter_rowKey in Hread.
    rewrite (bind_eq_Done _ _ _ _ _ Hread). simpl.
    destruct Hsame as (Hd1 & Hs1 & Hf1 & Hc1 & Hh1 & Hn1).
    unfold bind at 1. unfold createNewObject at 1.
    unfold bind at 1. unfold contains at 1. simpl. rewrite Hc1.
    destruct (allObjects w !! rowKey st row) as [h|] eqn:Hk.
    + rewrite bool_decide_eq_true_2 by eauto. simpl.
      split; [reflexivity|]. intros [_ Hall].
      apply Forall_cons in Hall as [Hall _]. congruence.
    + rewrite bool_decide_eq_false_2 by (intros [? ?]; discriminate). simpl.
      unfold bind at 1. simpl. unfold bind at 1. unfold cacheInsert at 1. simpl.
      match goal with |- match loadRows st rows ?x with _ => _ end =>
        set (w3 := x); specialize (IH w3) end.
      assert (cacheOwnsObjects w3) as Hown3.
      { intros id h. unfold w3. simpl. rewrite Hc1, Hh1, Hn1.
        intros Hl. destruct (decide (rowKey st row = id)) as [<- | Hne].
        - rewrite lookup_insert_eq in Hl. injection Hl as <-.
          rewrite lookup_insert_eq. eauto.
        - rewrite lookup_insert_ne in Hl by exact Hne.
          destruct (decide (nextHandle w = h)) as [-> | Hneh].
          + rewrite lookup_insert_eq. eauto.
          + rewrite lookup_insert_ne by exact Hneh. exact (Hown id h Hl). }
      specialize (IH Hown3).
      destruct (loadRows st rows w3) as [[] w'|why].
      * destruct IH as (Hfresh & Hown' & Hdom & Hsize & Hd & Hs & Hf).
        unfold w3 in Hfresh, Hdom, Hsize, Hd, Hs, Hf. simpl in *.
        rewrite Hc1 in Hfresh, Hdom, Hsize.
        split; [apply (freshKeys_cons _ _ (nextHandle w1)); assumption|].
        split; [exact Hown'|]. split.
        { rewrite Hdom, dom_insert_L. set_solver. }
        split.
        { rewrite Hsize, map_size_insert_None by exact Hk. lia. }
        repeat split; congruence.
      * destruct IH as (-> & Hnot). split; [reflexivity|].
        intros Hfresh. apply Hnot. unfold w3. simpl. rewrite Hc1.
        apply freshKeys_cons; assumption.
Qed.

Lemma uniqueKeys_In (m : QMultiHash) (k : Z) :
  In k (uniqueKeys m) -> In k (map fst m).
Proof.
  induction m as [|[k0 v] m IH]; simpl; [tauto|].
  intros [-> | Hin]; [auto|]. right. apply IH.
  apply List.filter_In in Hin as [Hin _]. exact Hin.
Qed.

Lemma values_nonempty (m : QMultiHash) (k : Z) :
  In k (map fst m) -> values k m <> [].
Proof.
  induction m as [|[k0 v] m IH]; simpl; [tauto|].
  intros [-> | Hin].
  - rewrite Z.eqb_refl. discriminate.
  - destruct (Z.eqb k0 k); [discriminate | auto].
Qed.

Lemma exec_total q b (w : World) : exists r w', exec q b w = Done r w'.
Proof.
  unfold exec. destruct (takeFault w) as [[] w1]; [eauto|].
  destruct (execQuery q b (database w1)); eauto.
Qed.

Lemma cacheOwnsObjects_setProperty (w : World) (h : Handle) (o : Object) :
  cacheOwnsObjects w ->
  cacheOwnsObjects (setHeap (<[h := o]> (heap w)) (nextHandle w) w).
Proof.
  intros Hown id h' Hl. simpl in *.
  destruct (decide (h = h')) as [-> | Hne].
  - rewrite lookup_insert_eq. eauto.
  - rewrite lookup_insert_ne by exact Hne. exact (Hown id h' Hl).
Qed.

(** One turn of the loop over the keys of a junction table never stops the
    load and never touches the cache map; for a key without a loaded object
    it does nothing but report the record it ignores. *)
Lemma applyOtherKeys_total (d : FieldManyToManyDefn) (m : QMultiHash) (k : Z) (w : World) :
  cacheOwnsObjects w -> In k (map fst m) ->
  exists w',
    applyOtherKeys d m k w = Done tt w' /\
    cacheOwnsObjects w' /\ allObjects w' = allObjects w /\
    (allObjects w !! k = None ->
     w' = record (EvCritical (IgnoringRecord (m2mTableName d) k)) w).
Proof.
  intros Hown Hin. unfold applyOtherKeys.
  unfold bind at 1. unfold contains at 1.
  destruct (allObjects w !! k) as [h|] eqn:Hk.
  - rewrite bool_decide_eq_true_2 by eauto. simpl.
    unfold bind at 1. unfold getById at 1. rewrite Hk.
    unfold bind at 1. simpl.
    destruct (Hown k h Hk) as [o Ho].
    pose proof (values_nonempty m k Hin) as Hne.
    destruct (assumeMaxOneEntry d).
    + destruct (values k m) as [|first others]; [congruence|].
      unfold setProperty. rewrite Ho.
      eexists. split; [reflexivity|]. split; [|split; [reflexivity | discriminate]].
      apply cacheOwnsObjects_setProperty. exact Hown.
    + unfold setProperty. rewrite Ho.
      eexists. split; [reflexivity|]. split; [|split; [reflexivity | discriminate]].
      apply cacheOwnsObjects_setProperty. exact Hown.
  - rewrite bool_decide_eq_false_2 by (intros [? ?]; discriminate). simpl.
    eexists. split; [reflexivity|]. split; [|split; [reflexivity | auto]].
    exact Hown.
Qed.

Lemma forEachKey_total (d : FieldManyToManyDefn) (m : QMultiHash) (keys : list Z) :
  forall w, cacheOwnsObjects w ->
    (forall k, In k keys -> In k (map fst m)) ->
    exists w', forEachKey d m keys w = Done tt w' /\
               cacheOwnsObjects w' /\ allObjects w' = allObjects w.
Proof.
  induction keys as [|k keys IH]; intros w Hown Hkeys; simpl.
  - exists w. auto.
  - destruct (applyOtherKeys_total d m k w Hown) as (w1 & H1 & Hown1 & Hc1 & _).
    { apply Hkeys. simpl. auto. }
    rewrite (bind_eq_Done _ _ _ _ _ H1).
    destruct (IH w1 Hown1) as (w' & H' & Hown' & Hc').
    { intros k' Hk'. apply Hkeys. simpl. auto. }
    exists w'. split; [exact H'|]. split; [exact Hown' | congruence].
Qed.

(** Loading the junction tables never stops the load and never touches the
    cache map. *)
Lemma loadJunctionTables_total (defns : list FieldManyToManyDefn) :
  forall w, cacheOwnsObjects w ->
    exists finished w',
      loadJunctionTables defns w = Done finished w' /\
      cacheOwnsObjects w' /\ allObjects w' = allObjects w.
Proof.
  induction defns as [|d defns IH]; intros w Hown; simpl.
  - exists true, w. auto.
  - destruct (exec_total (junctionSelectQuery d) [] w) as (r & w1 & Hx).
    rewrite (bind_eq_Done _ _ _ _ _ Hx).
    apply exec_Done in Hx as (_ & Hc1 & Hh1 & _ & _).
    assert (cacheOwnsObjects w1) as Hown1.
    { intros id h. rewrite Hc1, Hh1. apply Hown. }
    destruct r as [res|].
    + destruct (forEachKey_total d (readJunctionRows d (resRows res))
                  (uniqueKeys (readJunctionRows d (resRows res))) w1 Hown1)
        as (w2 & H2 & Hown2 & Hc2).
      { intros k. apply uniqueKeys_In. }
      rewrite (bind_eq_Done _ _ _ _ _ H2).
      destruct (IH w2 Hown2) as (finished & w' & H' & Hown' & Hc').
      exists finished, w'. split; [exact H'|]. split; [exact Hown' | congruence].
    + eexists false, _. split; [reflexivity|]. split; [exact Hown1 | exact Hc1].
Qed.

Lemma exec_answer q b (w : World) :
  exists w', exec q b w = Done (execAnswer q b w) w'.
Proof.
  unfold exec, execAnswer, takeFault.
  destruct (faults w) as [|[] rest]; simpl; eauto.
  - destruct (execQuery q b (database w)); eauto.
  - destruct (execQuery q b (database w)); eauto.
Qed.

(** [loadAll] on a well-formed schema.  It either completes or stops at the
    duplicate-key assertion, and it stops there exactly when the SELECT over
    the main table succeeded and two of its rows have the same key, or a row
    has a key that the cache holds already.  When it completes after a
    successful SELECT the cache has gained exactly one entry per row. *)
Lemma loadAll_outcome (st : impl) (w : World) :
  wellFormed st -> cacheOwnsObjects w ->
  match loadAll st w with
  | Done _ w' =>
      match mainRows st w with
      | Some rows =>
          freshKeys (allObjects w) (map (rowKey st) rows) /\
          dom (allObjects w') = dom (allObjects w) ∪ list_to_set (map (rowKey st) rows) /\
          size (allObjects w') = (size (allObjects w) + length rows)%nat
      | None => allObjects w' = allObjects w
      end
  | Aborted why =>
      why = AssertKeyNotLoaded /\
      exists rows, mainRows st w = Some rows /\
                   ~ freshKeys (allObjects w) (map (rowKey st) rows)
  end.
Proof.
  intros Hwf Hown. unfold loadAll, DbTransaction.
  set (w1 := record EvTransaction (setSavepoint (Some (default (database w) (savepoint w))) w)).
  rewrite (bind_eq_Done DbTransaction_ctor _ w w1 tt eq_refl).
  destruct (exec_answer (mainSelectQuery st) [] w1) as (w2 & Hx).
  assert (mainRows st w = resRows <$> execAnswer (mainSelectQuery st) [] w1) as Hrows
    by reflexivity.
  rewrite Hrows.
  unfold bind at 1. unfold bind at 1. rewrite Hx.
  apply exec_Done in Hx as (_ & Hc2 & Hh2 & _ & _).
  destruct (execAnswer (mainSelectQuery st) [] w1) as [res|]; simpl.
  - assert (cacheOwnsObjects w2) as Hown2.
    { intros id h. rewrite Hc2, Hh2. apply Hown. }
    pose proof (loadRows_outcome st (resRows res) Hwf w2 Hown2) as Hload.
    unfold bind at 1.
    destruct (loadRows st (resRows res) w2) as [[] w3|why].
    + destruct Hload as (Hfresh & Hown3 & Hdom & Hsize & _).
      rewrite Hc2 in Hfresh, Hdom, Hsize. simpl in Hfresh, Hdom, Hsize.
      destruct (loadJunctionTables_total (fieldManyToManyDefns st) w3 Hown3)
        as (finished & w4 & Hj & _ & Hc4).
      rewrite (bind_eq_Done _ _ _ _ _ Hj).
      assert (forall c w5 w',
                (if finished then commitConnection else ret false) w4 = Done c w5 ->
                (if c then ret tt else rollback) w5 = Done tt w' ->
                allObjects w' = allObjects w3) as Hend.
      { intros c w5 w' H5 H'.
        assert (allObjects w5 = allObjects w4) as Hc5.
        { destruct finished.
          - apply commitConnection_Done in H5 as (_ & Hc5 & _). exact Hc5.
          - injection H5 as _ <-. reflexivity. }
        destruct c.
        - injection H' as <-. congruence.
        - apply rollback_Done in H' as (Hc' & _). congruence. }
      destruct ((if finished then commitConnection else ret false) w4) as [c w5|why] eqn:E5.
      2:{ destruct finished; [|discriminate].
          exfalso. exact (abortsIn_commitConnection (fun _ => False) w4 why E5). }
      destruct ((if c then ret tt else rollback) w5) as [[] w'|why] eqn:E'.
      2:{ destruct c; [discriminate|].
          exfalso. exact (abortsIn_rollback (fun _ => False) w5 why E'). }
      rewrite (Hend c w5 w' eq_refl E').
      split; [exact Hfresh|]. split; [exact Hdom | exact Hsize].
    + destruct Hload as (-> & Hnot). split; [reflexivity|].
      exists (resRows res). split; [reflexivity|].
      rewrite Hc2 in Hnot. exact Hnot.
  - destruct (rollback _) as [[] w'|why] eqn:E'.
    + apply rollback_Done in E' as (Hc' & _). rewrite Hc'. exact Hc2.
    + exfalso. exact (abortsIn_rollback (fun _ => False) _ why E').
Qed.

Lemma appendColumNames_all (defns : list FieldSimpleDefn) (skipped : bool) :
  appendColumNames defns true skipped = map columnName defns.
Proof. induction defns as [|fd defns IH]; simpl; [reflexivity | rewrite IH; reflexivity]. Qed.

Lemma resultValue_project (cols : list string) (r : Row) (c : string) :
  In c cols -> resultValue c (project cols r) = toSql (rowValue c r).
Proof.
  unfold project. induction cols as [|c0 cols IH]; simpl; [tauto|].
  intros [-> | Hin].
  - rewrite String.eqb_refl. reflexivity.
  - destruct (String.eqb c0 c) eqn:E; [apply String.eqb_eq in E as ->; reflexivity | auto].
Qed.

Lemma toSql_valid (v : QVariant) : isValid (toSql v) = true.
Proof. destruct v; reflexivity. Qed.

Lemma toInt_toSql (v : QVariant) : toInt (toSql v) = toInt v.
Proof. destruct v; reflexivity. Qed.

(** C2.  Take a store with a well-formed schema whose first declared column
    is not an enum, an empty cache, and a database in which the SELECT over
    the main table succeeds (the table has the declared columns, no fault is
    due).  If the integer values of the first declared column are pairwise
    different over the rows of the main table, [loadAll] completes and the
    cache holds exactly one entry per row, under that value as key.  If two
    rows give the same value, [loadAll] stops at the duplicate-key assertion:
    nothing is overwritten in silence. *)
Theorem loadAll_one_entry_per_row (st : impl) (keyDefn : FieldSimpleDefn)
    (rest : list FieldSimpleDefn) (t : Table) (w : World) :
  wellFormed st ->
  fieldSimpleDefns st = keyDefn :: rest ->
  fieldType keyDefn <> FtEnum ->
  allObjects w = ∅ ->
  hd false (faults w) = false ->
  database w !! tableName st = Some t ->
  forallb (hasColumn t) (map columnName (fieldSimpleDefns st)) = true ->
  let keys := map (fun r => toInt (rowValue (columnName keyDefn) r)) (tblRows t) in
  (NoDup keys ->
   exists w', loadAll st w = Done tt w' /\
              dom (allObjects w') = list_to_set keys /\
              size (allObjects w') = length (tblRows t)) /\
  (~ NoDup keys -> loadAll st w = Aborted AssertKeyNotLoaded).
Proof.
  intros Hwf Hdefns Hty Hempty Hfault Ht Hcols keys.
  assert (cacheOwnsObjects w) as Hown.
  { intros id h. rewrite Hempty, lookup_empty. discriminate. }
  assert (mainRows st w
          = Some (map (project (map columnName (fieldSimpleDefns st))) (tblRows t)))
    as Hrows.
  { unfold mainRows, execAnswer, mainSelectQuery. rewrite Hfault. simpl.
    rewrite Ht, appendColumNames_all, Hcols, Hdefns. reflexivity. }
  assert (map (rowKey st) (map (project (map columnName (fieldSimpleDefns st))) (tblRows t))
          = keys) as Hkeys.
  { rewrite map_map. apply map_ext. intros r. unfold rowKey. rewrite Hdefns.
    cbv zeta. rewrite resultValue_project by (simpl; auto).
    rewrite toSql_valid. simpl.
    destruct (FieldType_eqb (fieldType keyDefn) FtEnum) eqn:E.
    - apply FieldType_eqb_eq in E. contradiction.
    - apply toInt_toSql. }
  assert (freshKeys (allObjects w) keys <-> NoDup keys) as Hfresh.
  { unfold freshKeys. rewrite Hempty. split; [tauto|]. intros H. split; [exact H|].
    apply Forall_forall. intros k _. apply lookup_empty. }
  pose proof (loadAll_outcome st w Hwf Hown) as Hout.
  rewrite Hrows, Hkeys in Hout.
  destruct (loadAll st w) as [[] w'|why].
  - destruct Hout as (Hf & Hdom & Hsize). split.
    + intros _. exists w'. split; [reflexivity|].
      rewrite Hempty in Hdom, Hsize. rewrite Hdom, Hsize.
      rewrite dom_empty_L, map_size_empty, length_map. split; [set_solver | lia].
    + intros Hnd. exfalso. apply Hnd, Hfresh, Hf.
  - destruct Hout as (-> & rows & [= <-] & Hnot). split.
    + intros Hnd. exfalso. apply Hnot. rewrite Hkeys. apply Hfresh, Hnd.
    + reflexivity.
Qed.


(** ** The order of the loaded relation *)




(** * All or nothing: the transaction scopes of the write operations *)


Lemma stepOk_insertJunctionRows d pk l : forall n b, stepOk (insertJunctionRows d pk n b l).
Proof.
  induction l as [|v l IH]; intros n b w r w' H; simpl in H.
  - injection H as <- <-. split; [reflexivity|]. exists []. rewrite app_nil_r. auto.
  - apply bind_Done in H as (x & w1 & Hx & H).
    apply exec_Done in Hx as (Hs1 & _ & _ & _ & Hr).
    destruct x as [res|].
    + destruct Hr as (_ & _ & Ht1).
      apply IH in H as (Hs & evs & Ht & Hall & Hsucc).
      split; [congruence|]. eexists (_ :: evs). split.
      * rewrite Ht, Ht1, <- app_assoc. reflexivity.
      * simpl. split; [exact Hall | exact Hsucc].
    + destruct Hr as (_ & Ht1).
      apply bind_Done in H as ([] & w2 & [= <-] & [= <- <-]).
      split; [exact Hs1|]. eexists [_; _]. split.
      * simpl. rewrite Ht1, <- app_assoc. reflexivity.
      * split; [reflexivity | discriminate].
Qed.

Lemma stepOk_insertIntoFieldManyToManyDefn d h pk :
  stepOk (insertIntoFieldManyToManyDefn d h pk).
Proof.
  intros w r w' H. unfold insertIntoFieldManyToManyDefn in H.
  apply bind_Done in H as (v & w1 & Hp & H).
  apply property_Done in Hp as [-> _].
  exact (stepOk_insertJunctionRows _ _ _ _ _ _ _ _ H).
Qed.


Lemma stepOk_ret_false : stepOk (ret false).
Proof.
  intros w r w' [= <- <-]. split; [reflexivity|].
  exists []. rewrite app_nil_r. split; [reflexivity|]. split; [reflexivity | discriminate].
Qed.











(** * The example store at work *)

Lemma enum_round_trip_witness :
  (let* s := enumToString Sample.typeField (VInt (native Sample.lager)) in
   stringToEnum Sample.typeField (VString s)) (Sample.startup ∅)
  = Done (native Sample.lager) (Sample.startup ∅).
Proof.
  apply (enum_round_trip Sample.typeField Sample.typeMapping Sample.lager).
  - reflexivity.
  - reflexivity.
  - split; compute_done.
  - simpl. auto.
  - unfold int_range. simpl. lia.
Defined.

Ltac sample_wellFormed :=
  split; [compute_done | repeat constructor; simpl; try discriminate; eauto].

Lemma insert_requires_unset_key_witness :
  let w := Sample.world (Sample.brewery [] []) (Sample.ipa 5 (VList [])) [] in
  heap w !! 0%nat = Some (Sample.ipa 5 (VList [])) /\
  0 < primaryKeyOf (Sample.recipes false) (Sample.ipa 5 (VList [])) /\
  (insert (Sample.recipes false) 0%nat w = Aborted AssertKeyUnset \/
   insert (Sample.recipes false) 0%nat w = Aborted AssertEnumMappingSet \/
   insert (Sample.recipes false) 0%nat w = Aborted AssertEnumMatch).
Proof.
  intros w.
  assert (heap w !! 0%nat = Some (Sample.ipa 5 (VList []))) as Hh by reflexivity.
  assert (0 < primaryKeyOf (Sample.recipes false) (Sample.ipa 5 (VList []))) as Hpos
    by (vm_compute; reflexivity).
  split; [exact Hh|]. split; [exact Hpos|].
  exact (proj1 (insert_requires_unset_key (Sample.recipes false) 0%nat
                  (Sample.ipa 5 (VList [])) w Hh) Hpos).
Defined.

Lemma insert_notifies_before_commit_witness :
  let st := Sample.recipes false in
  let w := Sample.world (Sample.brewery [] []) (Sample.ipa 0 (VList [VInt 10]))
                        [false; false; true] in
  let w' := Sample.worldAfter (insert st 0%nat w) w in
  savepoint w = None /\
  insert st 0%nat w = Done tt w' /\
  exists b res evs,
    execAnswer (insertQuery st) b w = Some res /\
    trace w' = trace w ++ [EvTransaction; EvExec (insertQuery st) b true] ++ evs
                 ++ [EvObjectInserted (toInt (resLastInsertId res)); EvCommit false]
                 ++ [EvRollback] /\
    database w' = database w.
Proof.
  intros st w w'.
  assert (insert st 0%nat w = Done tt w') as H by (vm_compute; reflexivity).
  split; [reflexivity|]. split; [exact H|].
  destruct (insert_notifies_before_commit st 0%nat w w' eq_refl H)
    as [(b & Hnone & _) | (b & res & evs & ok & Hans & _ & Ht & Hd)].
  - vm_compute in Hnone. discriminate Hnone.
  - destruct ok.
    + apply (f_equal (@last Event)) in Ht.
      rewrite app_nil_r, !app_assoc, last_app_two in Ht.
      vm_compute in Ht. discriminate Ht.
    + exists b, res, evs. split; [exact Hans|]. split; [exact Ht | exact (Hd eq_refl)].
Defined.

Lemma update_keeps_cache_witness :
  let st := Sample.recipes false in
  let w := Sample.keeping (Sample.brewery [Sample.recipeRow 1 "IPA" "Lager"]
                                          [Sample.hopRow 1 10 1])
                          (Sample.ipa 1 (VList [VInt 40])) in
  let w' := Sample.worldAfter (update st 0%nat w) w in
  update st 0%nat w = Done tt w' /\
  allObjects w' = allObjects w /\
  forall id,
    (exists b, contains id w = Done b w /\ contains id w' = Done b w') /\
    (exists p, getById id w = Done p w /\ getById id w' = Done p w').
Proof.
  intros st w w'.
  assert (update st 0%nat w = Done tt w') as H by (vm_compute; reflexivity).
  split; [exact H|].
  exact (update_keeps_cache st 0%nat w w' (or_introl H)).
Defined.

Lemma update_resyncs_junction_rows_witness :
  let st := Sample.recipes false in
  let o := Sample.ipa 1 (VList [VInt 40]) in
  let w := Sample.keeping
             (Sample.brewery [Sample.recipeRow 1 "IPA" "Lager"]
                [Sample.hopRow 1 10 1; Sample.hopRow 1 20 2; Sample.hopRow 2 5 1;
                 Sample.hopRow 1 30 3]) o in
  let w' := Sample.worldAfter (update st 0%nat w) w in
  update st 0%nat w = Done tt w' /\
  last (trace w') = Some (EvCommit true) /\
  exists t t',
    database w !! m2mTableName (Sample.hops false) = Some t /\
    database w' !! m2mTableName (Sample.hops false) = Some t' /\
    resynced (Sample.hops false) (VInt 1) o t t' /\
    (forall x, relationList (Sample.hops false) o = [x] ->
       exists row, junctionRowsOf (Sample.hops false) (VInt 1) t' = [row] /\
                   rowValue (otherPrimaryKeyColumn (Sample.hops false)) row = toSql x).
Proof.
  intros st o w w'.
  assert (update st 0%nat w = Done tt w') as H by (vm_compute; reflexivity).
  assert (last (trace w') = Some (EvCommit true)) as Hlast by (vm_compute; reflexivity).
  split; [exact H|]. split; [exact Hlast|].
  refine (update_resyncs_junction_rows st 0%nat o Sample.keyField
            [Sample.nameField; Sample.typeField] 1 w w' _ _ _ _ H Hlast
            (Sample.hops false) _).
  - reflexivity.
  - reflexivity.
  - reflexivity.
  - compute_done.
  - simpl. auto.
Defined.

Lemma loadAll_one_entry_per_row_witness :
  let st := Sample.recipes false in
  let rows := [Sample.recipeRow 1 "IPA" "Lager"; Sample.recipeRow 2 "Porter" "Ale"] in
  let w := Sample.startup (Sample.brewery rows [Sample.hopRow 1 10 1]) in
  let keys := map (fun r => toInt (rowValue "id" r)) rows in
  NoDup keys /\
  exists w', loadAll st w = Done tt w' /\
             dom (allObjects w') = list_to_set keys /\
             size (allObjects w') = length rows.
Proof.
  intros st rows w keys.
  assert (NoDup keys) as Hnd by compute_done.
  split; [exact Hnd|].
  refine (proj1 (loadAll_one_entry_per_row st Sample.keyField
                   [Sample.nameField; Sample.typeField] (Sample.recipeTable rows) w
                   _ _ _ _ _ _ _) Hnd).
  - sample_wellFormed.
  - reflexivity.
  - discriminate.
  - reflexivity.
  - reflexivity.
  - reflexivity.
  - reflexivity.
Defined.


(** C1 (the code departs from the claim).  [insert] does not look at the
    result of [insertIntoFieldManyToManyDefn]: here the statement for the
    main table succeeds and the first junction insert fails, yet [insert]
    goes on to notify and to commit.  The new main-table row is made
    permanent although its junction rows are missing; nothing is rolled
    back, and the run is none of the ways an all-or-nothing operation can
    end ([allOrNothing], which [update], [updateProperty] and [hardDelete]
    satisfy). *)
Theorem insert_commits_after_failed_junction_insert :
  let st := Sample.recipes false in
  let w := Sample.world (Sample.brewery [] [])
                        (Sample.ipa 0 (VList [VInt 10; VInt 20])) [false; true] in
  exists w',
    insert st 0%nat w = Done tt w' /\
    trace w' = [EvTransaction;
                EvExec (insertQuery st)
                       [("name", VString "IPA"); ("type", VString "Lager")] true;
                EvExec (junctionInsertQuery (Sample.hops false))
                       [("recipe_id", VInt 1); ("hop_id", VInt 10);
                        ("hop_number", VInt 1)] false;
                EvCritical (ErrorExecuting (junctionInsertQuery (Sample.hops false)));
                EvObjectInserted 1;
                EvCommit true] /\
    tblRows <$> database w !! "recipe" = Some [] /\
    tblRows <$> database w' !! "recipe" = Some [Sample.recipeRow 1 "IPA" "Lager"] /\
    tblRows <$> database w' !! "hop_in_recipe" = Some [] /\
    ~ allOrNothing w w'.
Proof.
  intros st w. exists (Sample.worldAfter (insert st 0%nat w) w).
  repeat (split; [vm_compute; reflexivity|]).
  set (w' := Sample.worldAfter (insert st 0%nat w) w).
  assert (trace w' =
          [EvTransaction;
           EvExec (insertQuery st)
                  [("name", VString "IPA"); ("type", VString "Lager")] true]
          ++ [EvExec (junctionInsertQuery (Sample.hops false))
                     [("recipe_id", VInt 1); ("hop_id", VInt 10);
                      ("hop_number", VInt 1)] false;
              EvCritical (ErrorExecuting (junctionInsertQuery (Sample.hops false)));
              EvObjectInserted 1]
          ++ [EvCommit true]) as Htrace by (vm_compute; reflexivity).
  assert (trace w = []) as Hstart by reflexivity.
  intros (evs & Hall & Hcases). rewrite Htrace, Hstart in Hcases. simpl in Hcases.
  destruct Hcases as [(Hsucc & Ht) | [(_ & Ht & _) | (Ht & _)]].
  - injection Ht as Ht.
    change (?a :: ?b :: ?c :: ?d :: [EvCommit true])
      with ([a; b; c; d] ++ [EvCommit true]) in Ht.
    apply app_inj_tail in Ht as [<- _]. discriminate Hsucc.
  - injection Ht as Ht.
    change (?a :: ?b :: ?c :: ?d :: [EvCommit true])
      with ([a; b; c; d] ++ [EvCommit true]) in Ht.
    change (evs ++ [EvCommit false; EvRollback])
      with (evs ++ [EvCommit false] ++ [EvRollback]) in Ht.
    rewrite app_assoc in Ht. apply app_inj_tail in Ht as [_ Ht]. discriminate Ht.
  - injection Ht as Ht.
    change (?a :: ?b :: ?c :: ?d :: [EvCommit true])
      with ([a; b; c; d] ++ [EvCommit true]) in Ht.
    apply app_inj_tail in Ht as [_ Ht]. discriminate Ht.
Qed.

(** C5 (the code departs from the claim).  With [assumeMaxOneEntry], and
    with two junction rows for recipe 1 that the query delivers in the order
    10, 20, [loadAll] gives the object the hop 20: [QMultiHash::values] lists
    the most recently inserted value first, so [first()] is the last row
    read, not the first.  The same happens when the two rows were written by
    [insert] itself for the relation list [[10, 20]].  On the writing side
    [assumeMaxOneEntry] wraps the property value, whatever it is, into a
    one-element list, so one junction row is written. *)
Theorem loadAll_assumeMaxOneEntry_applies_last_row :
  (let w := Sample.startup (Sample.brewery [Sample.recipeRow 1 "IPA" "Lager"]
                              [Sample.hopRow 1 10 1; Sample.hopRow 1 20 2]) in
   exists w' o,
     loadAll (Sample.recipes true) w = Done tt w' /\
     allObjects w' !! 1 = Some 0%nat /\ heap w' !! 0%nat = Some o /\
     o !! "hopIds" = Some (VInt 20)) /\
  (let stored :=
     Sample.worldAfter
       (insert (Sample.recipes false) 0%nat
          (Sample.world (Sample.brewery [] [])
                        (Sample.ipa 0 (VList [VInt 10; VInt 20])) []))
       (Sample.startup ∅) in
   tblRows <$> database stored !! "hop_in_recipe"
     = Some [Sample.hopRow 1 10 1; Sample.hopRow 1 20 2] /\
   exists w' o,
     loadAll (Sample.recipes true) (Sample.startup (database stored)) = Done tt w' /\
     allObjects w' !! 1 = Some 0%nat /\ heap w' !! 0%nat = Some o /\
     o !! "hopIds" = Some (VInt 20)) /\
  (let w := Sample.world (Sample.brewery [] [])
                         (Sample.ipa 0 (VList [VInt 10; VInt 20])) [] in
   exists w',
     insert (Sample.recipes true) 0%nat w = Done tt w' /\
     tblRows <$> database w' !! "hop_in_recipe"
       = Some [[("recipe_id", VInt 1); ("hop_id", VList [VInt 10; VInt 20]);
                ("hop_number", VInt 1)]]).
Proof.
  split; [|split].
  - intros w.
    exists (Sample.worldAfter (loadAll (Sample.recipes true) w) w).
    exists (default ∅ (heap (Sample.worldAfter (loadAll (Sample.recipes true) w) w) !! 0%nat)).
    repeat (split; [vm_compute; reflexivity|]); vm_compute; reflexivity.
  - intros stored. split; [vm_compute; reflexivity|].
    set (w := Sample.startup (database stored)).
    exists (Sample.worldAfter (loadAll (Sample.recipes true) w) w).
    exists (default ∅ (heap (Sample.worldAfter (loadAll (Sample.recipes true) w) w) !! 0%nat)).
    repeat (split; [vm_compute; reflexivity|]); vm_compute; reflexivity.
  - intros w.
    exists (Sample.worldAfter (insert (Sample.recipes true) 0%nat w) w).
    repeat (split; [vm_compute; reflexivity|]); vm_compute; reflexivity.
Qed.

(** * Further properties of the record store *)

(** ** The write operations that check their statements *)




(** ** [findMatching] *)

(** X4.  [findMatching] changes nothing.  What it returns is a cached object that
    the match function accepts, and it returns nothing exactly when the match
    function accepts no cached object. *)
Theorem findMatching_finds_cached_match (matchFunction : Handle -> World -> bool)
    (w : World) :
  exists result,
    findMatching matchFunction w = Done result w /\
    (forall h, result = Some h ->
       matchFunction h w = true /\ exists id, allObjects w !! id = Some h) /\
    (result = None <->
     forall id h, allObjects w !! id = Some h -> matchFunction h w = false).
Proof.
  unfold findMatching. eexists. split; [reflexivity|].
  destruct (List.find _ _) as [[id h]|] eqn:E; simpl.
  - apply List.find_some in E as [Hin Hm]. simpl in Hm. split.
    + intros h' [= <-]. split; [exact Hm|]. exists id.
      apply elem_of_map_to_list, list_elem_of_In. exact Hin.
    + split; [discriminate|]. intros Hnone. exfalso.
      apply list_elem_of_In, elem_of_map_to_list in Hin.
      specialize (Hnone id h Hin). congruence.
  - split; [discriminate|]. split; [|reflexivity]. intros _ id h Hl.
    apply elem_of_map_to_list, list_elem_of_In in Hl.
    exact (List.find_none _ _ E (id, h) Hl).
Qed.

(** ** [softDelete] on an id that is not cached, and twice *)

(** X5.  [softDelete] of an id that the cache does not hold leaves the world as
    it is; hence a second [softDelete] of the same id changes nothing. *)
Theorem softDelete_missing_id (id : Z) (w : World) :
  (allObjects w !! id = None -> softDelete id w = Done tt w) /\
  (let* _ := softDelete id in softDelete id) w = softDelete id w.
Proof.
  split.
  - intros Hnone. unfold softDelete, cacheRemove. rewrite delete_id by exact Hnone.
    destruct w. reflexivity.
  - unfold bind, softDelete, cacheRemove, setAllObjects. simpl.
    rewrite delete_delete_eq. reflexivity.
Qed.

Lemma softDelete_missing_id_witness :
  softDelete 7 (Sample.startup ∅) = Done tt (Sample.startup ∅).
Proof.
  apply (proj1 (softDelete_missing_id 7 (Sample.startup ∅))). reflexivity.
Defined.

(** ** Enum codec: the other round trip, and its two failure modes *)

(** X6.  For an enum field whose mapping is bijective and for every pair of the
    mapping, decoding the database string and encoding the result gives the
    database string back, and nothing is logged. *)
Theorem enum_string_round_trip (fieldDefn : FieldSimpleDefn)
    (mapping : list EnumAndItsDbString) (e : EnumAndItsDbString) (w : World) :
  fieldType fieldDefn = FtEnum ->
  enumMapping fieldDefn = Some mapping ->
  bijective mapping ->
  In e mapping ->
  int_range (native e) ->
  (let* n := stringToEnum fieldDefn (VString (dbString e)) in
   enumToString fieldDefn (VInt n)) w = Done (dbString e) w.
Proof.
  intros Hty Hmap [Hnat Hstr] Hin Hrange.
  unfold bind, enumToString, stringToEnum, bind, Q_ASSERT.
  rewrite Hty, Hmap. simpl.
  destruct (find_first_of (fun ii => String.eqb (dbString e) (dbString ii)) mapping e Hin
              (String.eqb_refl _)) as (e2 & -> & Hin2 & Heq2).
  apply String.eqb_eq in Heq2.
  assert (e2 = e) as -> by (apply (NoDup_map_injective dbString mapping); auto).
  simpl. rewrite (wrap32_small _ Hrange).
  destruct (find_first_of (fun ii => Z.eqb (native e) (native ii)) mapping e Hin
              (Z.eqb_refl _)) as (e1 & -> & Hin1 & Heq1).
  apply Z.eqb_eq in Heq1.
  assert (e1 = e) as -> by (apply (NoDup_map_injective native mapping); auto).
  reflexivity.
Qed.

Lemma enum_string_round_trip_witness :
  (let* n := stringToEnum Sample.typeField (VString (dbString Sample.lager)) in
   enumToString Sample.typeField (VInt n)) (Sample.startup ∅)
  = Done (dbString Sample.lager) (Sample.startup ∅).
Proof.
  apply (enum_string_round_trip Sample.typeField Sample.typeMapping Sample.lager).
  - reflexivity.
  - reflexivity.
  - split; compute_done.
  - simpl. auto.
  - unfold int_range. simpl. lia.
Defined.

(** X7.  The two directions of the codec fail differently.  Encoding stops at an
    assertion exactly when the native value has no entry in the mapping;
    decoding never stops, whatever the database holds. *)
Theorem enum_codec_failure_modes (fieldDefn : FieldSimpleDefn)
    (mapping : list EnumAndItsDbString) (v : QVariant) (w : World) :
  fieldType fieldDefn = FtEnum ->
  enumMapping fieldDefn = Some mapping ->
  (enumToString fieldDefn v w = Aborted AssertEnumMatch <->
   ~ In (toInt v) (map native mapping)) /\
  (In (toInt v) (map native mapping) -> exists s, enumToString fieldDefn v w = Done s w) /\
  (exists n w', stringToEnum fieldDefn v w = Done n w' /\ sameButTrace w w').
Proof.
  intros Hty Hmap. split; [|split].
  - unfold enumToString, bind, Q_ASSERT. rewrite Hty, Hmap. simpl.
    destruct (List.find _ mapping) as [found|] eqn:E.
    + split; [discriminate|]. intros Hnot. exfalso. apply Hnot.
      apply List.find_some in E as [Hin Heq]. apply Z.eqb_eq in Heq.
      rewrite Heq. apply in_map. exact Hin.
    + split; [|reflexivity]. intros _ Hin.
      apply in_map_iff in Hin as (e & He & Hin).
      pose proof (List.find_none _ _ E e Hin) as Hf. simpl in Hf.
      rewrite He, Z.eqb_refl in Hf. discriminate.
  - intros Hin. unfold enumToString, bind, Q_ASSERT. rewrite Hty, Hmap. simpl.
    destruct (List.find _ mapping) as [found|] eqn:E; [eauto|].
    exfalso. apply in_map_iff in Hin as (e & He & Hin).
    pose proof (List.find_none _ _ E e Hin) as Hf. simpl in Hf.
    rewrite He, Z.eqb_refl in Hf. discriminate.
  - destruct (stringToEnum_total fieldDefn v w Hty) as (w' & H & Hsame).
    { rewrite Hmap. eauto. }
    eauto.
Qed.

Lemma enum_codec_failure_modes_witness :
  enumToString Sample.typeField (VInt 9) (Sample.startup ∅) = Aborted AssertEnumMatch.
Proof.
  apply (proj1 (enum_codec_failure_modes Sample.typeField Sample.typeMapping (VInt 9)
                  (Sample.startup ∅) eq_refl eq_refl)).
  simpl. intros [H | [H | []]]; discriminate.
Defined.

(** ** [insert]: the cache and the object *)

Lemma insertJunctionTables_objects defns h pk (w w' : World) a :
  insertJunctionTables defns h pk w = Done a w' ->
  allObjects w' = allObjects w /\ heap w' = heap w.
Proof.
  intros H.
  refine (keeps_insertJunctionTables
            (fun x => allObjects x = allObjects w /\ heap x = heap w)
            _ _ _ defns h pk w a w' _ H); auto.
Qed.

Lemma insertRecorded_objects st h name res (w w' : World) ok :
  insertRecorded st h name res w = Done ok w' ->
  allObjects w !! toInt (resLastInsertId res) = None /\
  allObjects w' = <[toInt (resLastInsertId res) := h]> (allObjects w) /\
  exists o, heap w !! h = Some o /\
    heap w' = match name with
              | Some n => <[h := <[n := resLastInsertId res]> o]> (heap w)
              | None => heap w
              end.
Proof.
  unfold insertRecorded. intros H.
  apply bind_Done in H as (hf & w1 & [= <- <-] & H).
  apply bind_Done in H as ([] & w2 & H2 & H). apply Q_ASSERT_Done in H2 as [_ ->].
  apply bind_Done in H as ([] & w3 & H3 & H).
  apply setProperty_Done in H3 as (_ & _ & Hc3 & _ & _ & o & Ho & Hh3).
  apply bind_Done in H as (known & w4 & [= <- <-] & H).
  apply bind_Done in H as ([] & w5 & H5 & H). apply Q_ASSERT_Done in H5 as [Hk ->].
  apply bind_Done in H as ([] & w6 & [= <-] & H).
  apply bind_Done in H as ([] & w7 & H7 & H).
  apply insertJunctionTables_objects in H7 as (Hc7 & Hh7).
  apply bind_Done in H as ([] & w8 & [= <-] & H).
  apply commitConnection_Done in H as (_ & Hc & Hh & _).
  simpl in *. split; [|split].
  - apply negb_true_iff, bool_decide_eq_false in Hk.
    rewrite Hc3 in Hk. destruct (allObjects w !! _); [exfalso; eauto | reflexivity].
  - rewrite Hc, Hc7, Hc3. reflexivity.
  - exists o. split; [exact Ho|]. rewrite Hh, Hh7. exact Hh3.
Qed.

(** X8.  Whenever [insert] gets past the statement for the main table, and
    whatever happens to the junction rows and to the commit afterwards, the
    object has been given the key that the database assigned and is cached
    under it, so that [getById] answers with it; the key was not cached
    before.  When the statement for the main table fails, the cache and the
    objects are as before, and so is the database when [insert] was called
    with no transaction open. *)
Theorem insert_caches_object (st : impl) (object : Handle) (w w' : World) :
  insert st object w = Done tt w' ->
  (allObjects w' = allObjects w /\ heap w' = heap w /\
   (savepoint w = None -> database w' = database w) /\
   exists b, execAnswer (insertQuery st) b w = None)
  \/
  (exists b res o,
     execAnswer (insertQuery st) b w = Some res /\
     heap w !! object = Some o /\
     allObjects w !! toInt (resLastInsertId res) = None /\
     allObjects w' = <[toInt (resLastInsertId res) := object]> (allObjects w) /\
     heap w' = match firstPropertyName false None (fieldSimpleDefns st) with
               | Some n => <[object := <[n := resLastInsertId res]> o]> (heap w)
               | None => heap w
               end /\
     getById (toInt (resLastInsertId res)) w' = Done (Some object) w').
Proof.
  unfold insert, DbTransaction. intros H.
  apply bind_Done in H as ([] & w1 & [= <-] & H).
  apply bind_Done in H as (committed & w2 & Hscope & Hend).
  apply bind_Done in Hscope as (bound & w1' & Hb & Hscope).
  apply bindInsertValues_Done in Hb as [-> Hname].
  apply bind_Done in Hscope as (current & w1' & Hp & Hscope).
  apply property_Done in Hp as [-> _].
  apply bind_Done in Hscope as ([] & w1' & Ha & Hscope).
  apply Q_ASSERT_Done in Ha as [_ ->].
  apply bind_Done in Hscope as (r & w3 & Hx & Hscope).
  destruct (exec_answer (insertQuery st) (fst bound)
              (record EvTransaction (setSavepoint (Some (default (database w) (savepoint w))) w))) as (w3' & Hans).
  rewrite Hans in Hx. injection Hx as <- <-.
  change (execAnswer (insertQuery st) (fst bound)
            (record EvTransaction (setSavepoint (Some (default (database w) (savepoint w))) w)))
    with (execAnswer (insertQuery st) (fst bound) w) in *.
  apply exec_Done in Hans as (Hs3 & Hc3 & Hh3 & _ & Hr).
  simpl in Hs3, Hc3, Hh3.
  destruct (execAnswer (insertQuery st) (fst bound) w) as [res|] eqn:Eans.
  - right. apply insertRecorded_objects in Hscope as (Hnone & Hc2 & o & Ho & Hh2).
    assert (allObjects w' = allObjects w2 /\ heap w' = heap w2) as [Hc' Hh'].
    { destruct committed.
      - injection Hend as <-. auto.
      - apply rollback_Done in Hend as (Hc' & Hh' & _). auto. }
    exists (fst bound), res, o.
    split; [exact Eans|]. split; [rewrite <- Hh3; exact Ho|].
    split; [rewrite <- Hc3; exact Hnone|].
    assert (allObjects w' = <[toInt (resLastInsertId res) := object]> (allObjects w))
      as Hcache by (rewrite Hc', Hc2, Hc3; reflexivity).
    split; [exact Hcache|]. split.
    + rewrite Hh', Hh2, Hname, Hh3. reflexivity.
    + unfold getById. rewrite Hcache, lookup_insert_eq. reflexivity.
  - left. destruct Hr as (Hd3 & _).
    apply bind_Done in Hscope as ([] & w4 & [= <-] & [= <- <-]).
    apply rollback_Done in Hend as (Hc' & Hh' & _ & Hd).
    split; [rewrite Hc'; exact Hc3|]. split; [rewrite Hh'; exact Hh3|].
    split; [|exists (fst bound); exact Eans].
    intros Hclosed. apply Hd. simpl. rewrite Hs3, Hclosed. reflexivity.
Qed.

Lemma insert_caches_object_witness :
  let st := Sample.recipes false in
  let w := Sample.world (Sample.brewery [] []) (Sample.ipa 0 (VList [VInt 10]))
                        [false; false; true] in
  let w' := Sample.worldAfter (insert st 0%nat w) w in
  let v := Sample.world (Sample.brewery [] []) (Sample.ipa 0 (VList [VInt 10]))
                        [true] in
  let v' := Sample.worldAfter (insert st 0%nat v) v in
  (insert st 0%nat w = Done tt w' /\
   exists b res o,
     execAnswer (insertQuery st) b w = Some res /\
     heap w !! 0%nat = Some o /\
     allObjects w !! toInt (resLastInsertId res) = None /\
     allObjects w' = <[toInt (resLastInsertId res) := 0%nat]> (allObjects w) /\
     heap w' = match firstPropertyName false None (fieldSimpleDefns st) with
               | Some n => <[0%nat := <[n := resLastInsertId res]> o]> (heap w)
               | None => heap w
               end /\
     getById (toInt (resLastInsertId res)) w' = Done (Some 0%nat) w') /\
  (insert st 0%nat v = Done tt v' /\
   savepoint v = None /\
   allObjects v' = allObjects v /\ heap v' = heap v /\ database v' = database v).
Proof.
  intros st w w' v v'.
  assert (insert st 0%nat w = Done tt w') as H by (vm_compute; reflexivity).
  assert (insert st 0%nat v = Done tt v') as G by (vm_compute; reflexivity).
  split.
  - split; [exact H|].
    destruct (insert_caches_object st 0%nat w w' H) as [(_ & _ & _ & b & Hnone) | Hdone].
    + vm_compute in Hnone. discriminate Hnone.
    + exact Hdone.
  - split; [exact G|]. split; [reflexivity|].
    destruct (insert_caches_object st 0%nat v v' G)
      as [(Hc & Hh & Hd & _) | (b & res & _ & Hsome & _)].
    + split; [exact Hc|]. split; [exact Hh | exact (Hd eq_refl)].
    + vm_compute in Hsome. discriminate Hsome.
Defined.

(** ** [hardDelete] *)

Lemma deleteFromFieldManyToManyDefn_Done (d : FieldManyToManyDefn) (pk : QVariant)
    (w w' : World) (r : bool) :
  deleteFromFieldManyToManyDefn d pk w = Done r w' ->
  allObjects w' = allObjects w /\ heap w' = heap w /\ savepoint w' = savepoint w /\
  (r = false ->
   database w' = database w /\
   exists b, trace w' = trace w ++ [EvExec (junctionDeleteQuery d) b false;
                                    EvCritical (ErrorExecuting (junctionDeleteQuery d))]).
Proof.
  unfold deleteFromFieldManyToManyDefn. intros H.
  apply bind_Done in H as (x & w1 & Hx & H).
  apply exec_Done in Hx as (Hs1 & Hc1 & Hh1 & _ & Hr).
  destruct x as [res|].
  - injection H as <- <-. split; [assumption|]. split; [assumption|]. split; [assumption|]. discriminate.
  - destruct Hr as (Hd1 & Ht1).
    apply bind_Done in H as ([] & w2 & [= <-] & [= <- <-]). simpl.
    split; [assumption|]. split; [assumption|]. split; [assumption|]. intros _. split; [exact Hd1|].
    eexists. rewrite Ht1, <- app_assoc. reflexivity.
Qed.

(** The loop of [hardDelete] over the junction tables: what a [false]
    answer means. *)
Lemma deleteJunctionTables_false (defns : list FieldManyToManyDefn) (pk : QVariant) :
  forall (w w' : World) (r : bool),
    deleteJunctionTables defns pk w = Done r w' ->
    allObjects w' = allObjects w /\ heap w' = heap w /\ savepoint w' = savepoint w /\
    (r = false ->
     exists pre q b, trace w' = pre ++ [EvExec q b false; EvCritical (ErrorExecuting q)]).
Proof.
  induction defns as [|d defns IH]; intros w w' r H; simpl in H.
  - injection H as <- <-. split; [reflexivity|]. split; [reflexivity|]. split; [reflexivity|]. discriminate.
  - apply bind_Done in H as (deleted & w1 & Hdel & H).
    apply deleteFromFieldManyToManyDefn_Done in Hdel as (Hc1 & Hh1 & Hs1 & Hfalse).
    destruct deleted; simpl in H.
    + apply IH in H as (Hc & Hh & Hs & Hf).
      split; [congruence|]. split; [congruence|]. split; [congruence|]. exact Hf.
    + injection H as <- <-. split; [assumption|]. split; [assumption|]. split; [assumption|]. intros _.
      destruct (Hfalse eq_refl) as (_ & b & Ht). eauto.
Qed.



Lemma deleteJunctionTables_true (pk : QVariant) (defns : list FieldManyToManyDefn) :
  forall (w w' : World),
    NoDup (map m2mTableName defns) ->
    deleteJunctionTables defns pk w = Done true w' ->
    (forall T, ~ In T (map m2mTableName defns) -> database w' !! T = database w !! T) /\
    forall d, In d defns ->
      exists t t',
        database w !! m2mTableName d = Some t /\
        database w' !! m2mTableName d = Some t' /\
        tblRows t' = otherRowsOf d pk t.
Proof.
  induction defns as [|d defns IH]; intros w w' Hnd H.
  - simpl in H. injection H as <-. split; [auto | intros d []].
  - simpl in H. inversion Hnd as [|? ? Hnotin Hnd']; subst.
    apply bind_Done in H as (deleted & wa & Hdel & H).
    destruct deleted; simpl in H; [|discriminate].
    apply deleteFromFieldManyToManyDefn_true in Hdel as (_ & Hframe & t & t' & Ht & Ht' & Hrows).
    destruct (IH wa w' Hnd' H) as (Hframe' & Hrest).
    split.
    + intros T HT. simpl in HT.
      rewrite Hframe' by tauto. apply Hframe. intros ->. tauto.
    + intros d' [<- | Hin].
      * exists t, t'. split; [exact Ht|]. split; [|exact Hrows].
        rewrite Hframe'; [exact Ht'|]. rewrite <- list_elem_of_In. exact Hnotin.
      * destruct (Hrest d' Hin) as (t1 & t1' & Ht1 & Ht1' & Hres1).
        exists t1, t1'. split; [|auto].
        rewrite <- Ht1. symmetry. apply Hframe. intros Heq.
        apply Hnotin. rewrite <- Heq. apply list_elem_of_In, in_map. exact Hin.
Qed.

(** X10.  When [hardDelete] commits, and the tables of the store have pairwise
    different names, the main table has lost exactly the rows whose key
    column equals the id, every junction table has lost exactly the rows of
    that id, and the cache entry of the id is gone. *)
Theorem hardDelete_removes_record (st : impl) (keyDefn : FieldSimpleDefn)
    (rest : list FieldSimpleDefn) (id : Z) (w w' : World) :
  fieldSimpleDefns st = keyDefn :: rest ->
  NoDup (tableName st :: map m2mTableName (fieldManyToManyDefns st)) ->
  hardDelete st id w = Done tt w' ->
  last (trace w') = Some (EvCommit true) ->
  allObjects w' = delete id (allObjects w) /\
  (exists t t',
     database w !! tableName st = Some t /\
     database w' !! tableName st = Some t' /\
     tblRows t' = List.filter
                    (fun r => negb (sqlEq (rowValue (columnName keyDefn) r) (VInt id)))
                    (tblRows t)) /\
  forall d, In d (fieldManyToManyDefns st) ->
    exists t t',
      database w !! m2mTableName d = Some t /\
      database w' !! m2mTableName d = Some t' /\
      tblRows t' = otherRowsOf d (VInt id) t.
Proof.
  intros Hdefns Hnd H Hlast.
  unfold hardDelete, DbTransaction in H. rewrite Hdefns in H.
  apply bind_Done in H as ([] & w1 & [= <-] & H).
  apply bind_Done in H as (committed & w2 & Hscope & Hend).
  destruct committed.
  2:{ apply rollback_Done in Hend as (_ & _ & Ht & _).
      rewrite Ht, last_snoc in Hlast. discriminate. }
  injection Hend as <-.
  apply bind_Done in Hscope as (r & w3 & Hx & Hscope).
  apply exec_Done in Hx as (_ & Hc3 & _ & _ & Hr). simpl in Hc3.
  destruct r as [res|].
  2:{ apply bind_Done in Hscope as ([] & w4 & _ & [=]). }
  destruct Hr as (Hq & Hd3 & _). simpl database in Hq.
  apply execQuery_DeleteFrom in Hq as (t & Ht & Hres).
  apply bind_Done in Hscope as (finished & w4 & Hj & Hscope).
  destruct finished; simpl in Hscope; [|discriminate].
  apply bind_Done in Hscope as ([] & w5 & [= <-] & Hscope).
  apply commitConnection_Done in Hscope as (Hd2 & Hc2 & _). simpl in Hd2, Hc2.
  inversion Hnd as [|? ? Hnotin Hnd']; subst.
  pose proof (deleteJunctionTables_false _ _ _ _ _ Hj) as (Hc4 & _).
  destruct (deleteJunctionTables_true (VInt id) _ w3 w4 Hnd' Hj) as (Hframe & Hall).
  split; [congruence|]. split.
  - exists t, (deleteRows t (columnName keyDefn)
                 (bindValue (columnName keyDefn) (VInt id) [])).
    split; [exact Ht|]. split.
    + rewrite Hd2, Hframe by (rewrite <- list_elem_of_In; exact Hnotin).
      rewrite Hd3, Hres. apply lookup_insert_eq.
    + unfold deleteRows. simpl. rewrite String.eqb_refl. reflexivity.
  - intros d Hd. destruct (Hall d Hd) as (t1 & t1' & Ht1 & Ht1' & Hrows).
    exists t1, t1'. split; [|split; [|exact Hrows]].
    + rewrite <- Ht1, Hd3, Hres. symmetry. apply lookup_insert_ne.
      intros Heq. apply Hnotin. rewrite Heq. apply list_elem_of_In, in_map. exact Hd.
    + rewrite Hd2. exact Ht1'.
Qed.

Lemma hardDelete_removes_record_witness :
  let st := Sample.recipes false in
  let w := Sample.keeping
             (Sample.brewery [Sample.recipeRow 1 "IPA" "Lager"; Sample.recipeRow 2 "Porter" "Ale"]
                [Sample.hopRow 1 10 1; Sample.hopRow 2 5 1; Sample.hopRow 1 30 2])
             (Sample.ipa 1 (VList [VInt 10; VInt 30])) in
  let w' := Sample.worldAfter (hardDelete st 1 w) w in
  hardDelete st 1 w = Done tt w' /\
  last (trace w') = Some (EvCommit true) /\
  allObjects w' = delete 1 (allObjects w) /\
  (exists t t',
     database w !! tableName st = Some t /\
     database w' !! tableName st = Some t' /\
     tblRows t' = List.filter
                    (fun r => negb (sqlEq (rowValue (columnName Sample.keyField) r) (VInt 1)))
                    (tblRows t)) /\
  forall d, In d (fieldManyToManyDefns st) ->
    exists t t',
      database w !! m2mTableName d = Some t /\
      database w' !! m2mTableName d = Some t' /\
      tblRows t' = otherRowsOf d (VInt 1) t.
Proof.
  intros st w w'.
  assert (hardDelete st 1 w = Done tt w') as H by (vm_compute; reflexivity).
  assert (last (trace w') = Some (EvCommit true)) as Hlast by (vm_compute; reflexivity).
  split; [exact H|]. split; [exact Hlast|].
  refine (hardDelete_removes_record st Sample.keyField
            [Sample.nameField; Sample.typeField] 1 w w' _ _ H Hlast).
  - reflexivity.
  - compute_done.
Defined.

(** ** [loadAll] only reads the database *)

Section FrameObjects.
Variable I : World -> Prop.
Hypothesis I_record : forall e w, I w -> I (record e w).
Hypothesis I_setHeap : forall h n w, I w -> I (setHeap h n w).
Hypothesis I_setAllObjects : forall c w, I w -> I (setAllObjects c w).

Lemma keeps_readFields table defns row :
  forall bundle pk read, keeps I (readFields table defns row bundle pk read).
Proof.
  induction defns as [|fd defns IH]; intros bundle pk read; simpl; [apply keeps_ret|].
  destruct (negb (isValid _)).
  - apply keeps_bind; [|intros; apply keeps_ret].
    intros w a w' Hw [= _ <-]. auto.
  - apply keeps_bind.
    + destruct (FieldType_eqb _ _); [|apply keeps_ret].
      apply keeps_bind; [|intros; apply keeps_ret].
      apply keeps_stringToEnum. auto.
    + intros v. apply keeps_bind; [apply keeps_assert | intros _; apply IH].
Qed.

Lemma keeps_loadRows st rows : keeps I (loadRows st rows).
Proof.
  induction rows as [|row rows IH]; simpl; [apply keeps_ret|].
  apply keeps_bind; [apply keeps_readFields|intros read].
  apply keeps_bind; [intros w a w' Hw [= _ <-]; auto|intros object].
  apply keeps_bind; [apply keeps_contains|intros known].
  apply keeps_bind; [apply keeps_assert|intros _].
  apply keeps_bind; [intros w a w' Hw [= _ <-]; auto | intros _; exact IH].
Qed.

Lemma keeps_setProperty h name v : keeps I (setProperty h name v).
Proof.
  intros w a w' Hw. unfold setProperty.
  destruct (heap w !! h); [|discriminate].
  destruct name; intros [= _ <-]; auto.
Qed.

Lemma keeps_applyOtherKeys d m k : keeps I (applyOtherKeys d m k).
Proof.
  unfold applyOtherKeys. apply keeps_bind; [apply keeps_contains|intros known].
  destruct known; simpl.
  - apply keeps_bind; [apply keeps_getById|intros p].
    apply keeps_bind; [destruct p; [apply keeps_ret | apply keeps_abort]|intros h].
    destruct (assumeMaxOneEntry d); [|apply keeps_setProperty].
    destruct (values k m); [apply keeps_abort | apply keeps_setProperty].
  - intros w a w' Hw [= _ <-]. auto.
Qed.

Lemma keeps_forEachKey d m keys : keeps I (forEachKey d m keys).
Proof.
  induction keys as [|k keys IH]; simpl; [apply keeps_ret|].
  apply keeps_bind; [apply keeps_applyOtherKeys | intros _; exact IH].
Qed.
End FrameObjects.

Lemma loadJunctionTables_database (defns : list FieldManyToManyDefn) :
  forall (w w' : World) (finished : bool),
    loadJunctionTables defns w = Done finished w' ->
    database w' = database w /\ savepoint w' = savepoint w.
Proof.
  induction defns as [|d defns IH]; intros w w' finished H; simpl in H.
  - injection H as _ <-. auto.
  - apply bind_Done in H as (r & w1 & Hx & H).
    apply exec_Done in Hx as (Hs1 & _ & _ & _ & Hr).
    destruct r as [res|].
    + destruct Hr as (Hq & Hd1 & _).
      assert (resDatabase res = database w) as Hsame.
      { unfold junctionSelectQuery in Hq. simpl in Hq.
        destruct (database w !! m2mTableName d); [|discriminate].
        destruct (_ && _); [|discriminate]. injection Hq as <-. reflexivity. }
      apply bind_Done in H as ([] & w2 & H2 & H).
      apply (keeps_forEachKey
               (fun x => database x = database w1 /\ savepoint x = savepoint w1)) in H2;
        auto.
      apply IH in H as (Hd & Hs). destruct H2 as (Hd2 & Hs2).
      split; congruence.
    + destruct Hr as (Hd1 & _).
      apply bind_Done in H as ([] & w2 & [= <-] & [= _ <-]). simpl. auto.
Qed.

(** X11.  Let [loadAll] be called with no transaction open.  However it
    ends, the database is as it was before: the statements it runs are
    SELECTs, and what it commits or rolls back is nothing. *)
Theorem loadAll_leaves_database (st : impl) (w w' : World) :
  savepoint w = None ->
  loadAll st w = Done tt w' -> database w' = database w.
Proof.
  unfold loadAll, DbTransaction. intros Hclosed H.
  apply bind_Done in H as ([] & w1 & [= <-] & H).
  apply bind_Done in H as (committed & w2 & Hscope & Hend).
  assert (database w2 = database w /\
          (committed = false -> savepoint w2 = Some (database w))) as [Hd2 Hs2].
  { apply bind_Done in Hscope as (r & w3 & Hx & Hscope).
    apply exec_Done in Hx as (Hs3 & _ & _ & _ & Hr). simpl in Hs3.
    rewrite Hclosed in Hs3. simpl in Hs3.
    destruct r as [res|].
    - destruct Hr as (Hq & Hd3 & _). simpl database in Hq.
      assert (resDatabase res = database w) as Hsame.
      { unfold mainSelectQuery in Hq. simpl in Hq.
        destruct (database w !! tableName st); [|discriminate].
        destruct (_ && _); [|discriminate]. injection Hq as <-. reflexivity. }
      apply bind_Done in Hscope as ([] & w4 & H4 & Hscope).
      apply (keeps_loadRows
               (fun x => database x = database w3 /\ savepoint x = savepoint w3)) in H4;
        auto.
      destruct H4 as (Hd4 & Hs4).
      apply bind_Done in Hscope as (finished & w5 & H5 & Hscope).
      apply loadJunctionTables_database in H5 as (Hd5 & Hs5).
      destruct finished.
      + apply commitConnection_Done in Hscope as (Hd & _ & _ & _ & Hs).
        split; [congruence|]. intros ->. congruence.
      + injection Hscope as <- <-. split; [congruence|]. intros _. congruence.
    - destruct Hr as (Hd3 & _).
      apply bind_Done in Hscope as ([] & w4 & [= <-] & [= <- <-]). simpl. auto. }
  destruct committed.
  - injection Hend as <-. exact Hd2.
  - apply rollback_Done in Hend as (_ & _ & _ & Hd). apply Hd, Hs2. reflexivity.
Qed.

Lemma loadAll_leaves_database_witness :
  let st := Sample.recipes false in
  let w := Sample.startup (Sample.brewery [Sample.recipeRow 1 "IPA" "Stout"]
                             [Sample.hopRow 7 10 1; Sample.hopRow 1 20 2]) in
  let w' := Sample.worldAfter (loadAll st w) w in
  loadAll st w = Done tt w' /\ database w' = database w.
Proof.
  intros st w w'.
  assert (loadAll st w = Done tt w') as H by (vm_compute; reflexivity).
  split; [exact H|]. exact (loadAll_leaves_database st w w' eq_refl H).
Defined.

(** ** The order in which the other keys reach the object *)



(** ** [updateProperty] *)

(** X13.  [updateProperty] stops at an assertion when the name is that of no
    simple field and of no many-to-many field.  It also stops there when the
    name is that of a simple field by its text but the pointer handed in is
    not the pointer of any field definition, because the second search
    (line 807) compares pointers where the first compares texts. *)
Theorem updateProperty_rejects_unknown_property (st : impl) (object : Handle)
    (o : Object) (keyDefn : FieldSimpleDefn) (rest : list FieldSimpleDefn)
    (propertyToUpdateInDb : string) (samePointer : FieldSimpleDefn -> bool) (w : World) :
  fieldSimpleDefns st = keyDefn :: rest ->
  heap w !! object = Some o ->
  (List.find (fun fd => String.eqb (propertyName fd) propertyToUpdateInDb)
             (fieldSimpleDefns st) = None ->
   List.find (fun jt => String.eqb (m2mPropertyName jt) propertyToUpdateInDb)
             (fieldManyToManyDefns st) = None ->
   updateProperty st object propertyToUpdateInDb samePointer w
   = Aborted AssertPropertyKnown) /\
  (List.find (fun fd => String.eqb (propertyName fd) propertyToUpdateInDb)
             (fieldSimpleDefns st) <> None ->
   List.find samePointer (fieldSimpleDefns st) = None ->
   updateProperty st object propertyToUpdateInDb samePointer w
   = Aborted AssertPropertyKnown).
Proof.
  intros Hdefns Hh.
  set (w1 := record EvTransaction (setSavepoint (Some (default (database w) (savepoint w))) w)).
  assert (heap w1 !! object = Some o) as Hh1 by exact Hh.
  split.
  - intros Hsimple Hrel. unfold updateProperty, DbTransaction.
    rewrite (bind_eq_Done DbTransaction_ctor _ w w1 tt eq_refl).
    rewrite Hsimple, Hrel, Hdefns.
    unfold bind at 1.
    rewrite (bind_eq_Done _ _ _ _ _ (property_of_object object _ w1 o Hh1)).
    reflexivity.
  - intros Hsimple Hptr. unfold updateProperty, DbTransaction.
    rewrite (bind_eq_Done DbTransaction_ctor _ w w1 tt eq_refl).
    rewrite Hptr.
    destruct (List.find _ (fieldSimpleDefns st)) as [matching|]; [|congruence].
    rewrite Hdefns. unfold bind at 1.
    rewrite (bind_eq_Done _ _ _ _ _ (property_of_object object _ w1 o Hh1)).
    rewrite (bind_eq_Done _ _ _ _ _ (property_of_object object _ w1 o Hh1)).
    reflexivity.
Qed.

Lemma updateProperty_rejects_unknown_property_witness :
  let w := Sample.keeping (Sample.brewery [Sample.recipeRow 1 "IPA" "Lager"] [])
                          (Sample.ipa 1 (VList [])) in
  updateProperty (Sample.recipes false) 0%nat "colour" (fun _ => false) w
  = Aborted AssertPropertyKnown /\
  updateProperty (Sample.recipes false) 0%nat "name" (fun _ => false) w
  = Aborted AssertPropertyKnown.
Proof.
  intros w.
  pose proof (updateProperty_rejects_unknown_property (Sample.recipes false) 0%nat
                (Sample.ipa 1 (VList [])) Sample.keyField
                [Sample.nameField; Sample.typeField] "colour" (fun _ => false) w
                eq_refl eq_refl) as [H1 _].
  pose proof (updateProperty_rejects_unknown_property (Sample.recipes false) 0%nat
                (Sample.ipa 1 (VList [])) Sample.keyField
                [Sample.nameField; Sample.typeField] "name" (fun _ => false) w
                eq_refl eq_refl) as [_ H2].
  split.
  - apply H1; reflexivity.
  - apply H2; [discriminate | reflexivity].
Defined.

(** X14.  [updateProperty] writes one table at most: the main table for the
    property of a simple field, the junction table of the property for that
    of a many-to-many field.  When it is called with no transaction open,
    every other table is as before, whether the update commits or is rolled
    back.  And when the update of a many-to-many property commits for an
    object of integer key [k], the junction rows of [k] in that one table are
    the object's relation list, those of other keys are as before. *)
Theorem updateProperty_writes_one_table (st : impl) (object : Handle) (o : Object)
    (keyDefn : FieldSimpleDefn) (rest : list FieldSimpleDefn)
    (propertyToUpdateInDb : string) (samePointer : FieldSimpleDefn -> bool)
    (w w' : World) :
  fieldSimpleDefns st = keyDefn :: rest ->
  heap w !! object = Some o ->
  updateProperty st object propertyToUpdateInDb samePointer w = Done tt w' ->
  (savepoint w = None ->
   forall T, tableOfProperty st propertyToUpdateInDb <> Some T ->
             database w' !! T = database w !! T) /\
  (forall d k,
     List.find (fun fd => String.eqb (propertyName fd) propertyToUpdateInDb)
               (fieldSimpleDefns st) = None ->
     List.find (fun jt => String.eqb (m2mPropertyName jt) propertyToUpdateInDb)
               (fieldManyToManyDefns st) = Some d ->
     o !! propertyName keyDefn = Some (VInt k) ->
     last (trace w') = Some (EvCommit true) ->
     exists t t',
       database w !! m2mTableName d = Some t /\
       database w' !! m2mTableName d = Some t' /\
       resynced d (VInt k) o t t').
Proof.
  intros Hdefns Hh H.
  unfold tableOfProperty. unfold updateProperty, DbTransaction in H.
  rewrite Hdefns in H |- *.
  destruct (List.find (fun fd => String.eqb (propertyName fd) propertyToUpdateInDb)
                      (keyDefn :: rest)) as [matching|] eqn:Hsimple.
  - (* a simple field: one UPDATE of the main table *)
    split; [|discriminate].
    intros Hclosed T HT. assert (T <> tableName st) as HT' by congruence. clear HT.
    apply bind_Done in H as ([] & w1 & [= <-] & H).
    apply bind_Done in H as (c & w2 & Hscope & Hend).
    apply bind_Done in Hscope as (pk & w1' & Hp & Hscope).
    apply property_Done in Hp as [-> _].
    apply bind_Done in Hscope as (v & w1' & Hp & Hscope).
    apply property_Done in Hp as [-> _].
    destruct (List.find samePointer _) as [fieldDefn|]; [|discriminate].
    apply bind_Done in Hscope as (v' & w1' & He & Hscope).
    apply encodeForDb_Done in He as ->.
    apply bind_Done in Hscope as (r & w3 & Hx & Hscope).
    apply exec_Done in Hx as (Hs3 & _ & _ & _ & Hr). simpl in Hs3.
    rewrite Hclosed in Hs3. simpl in Hs3.
    destruct r as [res|].
    + destruct Hr as (Hq & Hd3 & _).
      apply commitConnection_Done in Hscope as (Hd2 & _ & _ & _ & Hs2).
      destruct c.
      * injection Hend as <-. rewrite Hd2, Hd3.
        apply execQuery_UpdateSet in Hq as (t' & ->).
        apply lookup_insert_ne. congruence.
      * apply rollback_Done in Hend as (_ & _ & _ & Hback).
        rewrite (Hback (database w)); [reflexivity | congruence].
    + apply bind_Done in Hscope as ([] & w4 & [= <-] & [= <- <-]).
      apply rollback_Done in Hend as (_ & _ & _ & Hback).
      rewrite (Hback (database w)); [reflexivity | exact Hs3].
  - (* a many-to-many field: its junction table, deleted from and refilled *)
    apply bind_Done in H as ([] & w1 & [= <-] & H).
    apply bind_Done in H as (c & w2 & Hscope & Hend).
    apply bind_Done in Hscope as (pk & w1' & Hp & Hscope).
    apply property_Done in Hp as [-> (o' & Ho' & ->)].
    simpl in Ho'. rewrite Hh in Ho'. injection Ho' as <-.
    destruct (List.find _ (fieldManyToManyDefns st)) as [d|]; [|discriminate].
    apply bind_Done in Hscope as (deleted & wa & Hdel & Hscope).
    pose proof (deleteFromFieldManyToManyDefn_Done _ _ _ _ _ Hdel) as (_ & Hha & Hsa & _).
    simpl in Hsa, Hha.
    assert (forall wz, savepoint wz = Some (default (database w) (savepoint w)) ->
                       rollback wz = Done tt w' ->
            (savepoint w = None -> database w' = database w) /\
            last (trace w') = Some EvRollback) as Hrolled.
    { intros wz Hsz Hz. apply rollback_Done in Hz as (_ & _ & Ht & Hback).
      split; [|rewrite Ht; apply last_snoc].
      intros Hclosed. rewrite (Hback _ Hsz), Hclosed. reflexivity. }
    destruct deleted; simpl in Hscope.
    2:{ injection Hscope as <- <-.
        destruct (Hrolled _ Hsa Hend) as (Hsame & Hlast). split.
        - intros Hclosed T _. rewrite (Hsame Hclosed). reflexivity.
        - intros d' k _ _ _ Hcommitted. rewrite Hlast in Hcommitted. discriminate. }
    apply bind_Done in Hscope as (inserted & wb & Hins & Hscope).
    pose proof (stepOk_insertIntoFieldManyToManyDefn _ _ _ _ _ _ Hins) as (Hsb & _).
    destruct inserted; simpl in Hscope.
    2:{ injection Hscope as <- <-.
        destruct (Hrolled wb) as (Hsame & Hlast); [congruence | exact Hend |]. split.
        - intros Hclosed T _. rewrite (Hsame Hclosed). reflexivity.
        - intros d' k _ _ _ Hcommitted. rewrite Hlast in Hcommitted. discriminate. }
    apply commitConnection_Done in Hscope as (Hd2 & _ & _ & _ & Hs2).
    destruct c.
    2:{ destruct (Hrolled w2) as (Hsame & Hlast); [congruence | exact Hend |]. split.
        - intros Hclosed T _. rewrite (Hsame Hclosed). reflexivity.
        - intros d' k _ _ _ Hcommitted. rewrite Hlast in Hcommitted. discriminate. }
    injection Hend as <-. split.
    + intros _ T HT. assert (T <> m2mTableName d) as HT' by (simpl in HT; congruence).
      pose proof (deleteFromFieldManyToManyDefn_true _ _ _ _ Hdel)
        as (_ & Hfa & t & ta & _ & Hta & _).
      unfold insertIntoFieldManyToManyDefn in Hins.
      apply bind_Done in Hins as (bindValues & wa' & Hp & Hins).
      apply property_Done in Hp as [-> _].
      destruct (insertJunctionRows_true _ _ _ _ _ _ _ ta Hins Hta) as (_ & Hfb & _).
      rewrite Hd2, (Hfb T HT'). exact (Hfa T HT').
    + intros d' k _ [= <-] Hkey _. rewrite Hkey in Hdel, Hins.
      change (default Invalid (Some (VInt k))) with (VInt k) in Hdel, Hins.
      destruct (resync_one d object o k
                  (record EvTransaction (setSavepoint (Some (default (database w) (savepoint w))) w))
                  wa wb Hh Hdel Hins)
        as (_ & _ & t & t' & Ht & Ht' & Hres).
      exists t, t'. split; [exact Ht|]. split; [|exact Hres].
      rewrite Hd2. exact Ht'.
Qed.

Lemma updateProperty_writes_one_table_witness :
  let st := Sample.recipes false in
  let o := Sample.ipa 1 (VList [VInt 40; VInt 50]) in
  let w := Sample.world (Sample.brewery [Sample.recipeRow 1 "IPA" "Lager"]
                                        [Sample.hopRow 1 10 1; Sample.hopRow 2 20 1])
                        o [] in
  let w' := Sample.worldAfter (updateProperty st 0%nat "hopIds" (fun _ => false) w) w in
  updateProperty st 0%nat "hopIds" (fun _ => false) w = Done tt w' /\
  database w' !! tableName st = database w !! tableName st /\
  exists t t',
    database w !! m2mTableName (Sample.hops false) = Some t /\
    database w' !! m2mTableName (Sample.hops false) = Some t' /\
    resynced (Sample.hops false) (VInt 1) o t t'.
Proof.
  intros st o w w'.
  assert (updateProperty st 0%nat "hopIds" (fun _ => false) w = Done tt w') as H
    by (vm_compute; reflexivity).
  destruct (updateProperty_writes_one_table st 0%nat o Sample.keyField
              [Sample.nameField; Sample.typeField] "hopIds" (fun _ => false) w w'
              eq_refl eq_refl H) as [Hframe Hsync].
  split; [exact H|]. split.
  - apply Hframe; [reflexivity|]. vm_compute. discriminate.
  - apply (Hsync (Sample.hops false) 1); vm_compute; reflexivity.
Defined.

(** ** The row [update] writes *)

Lemma encodeForDb_any_world fd v (w w' w2 : World) v' :
  encodeForDb fd v w = Done v' w' -> encodeForDb fd v w2 = Done v' w2.
Proof.
  unfold encodeForDb. destruct (FieldType_eqb _ _) eqn:E.
  - unfold enumToString, bind, Q_ASSERT. rewrite E. simpl.
    destruct (enumMapping fd); [|discriminate].
    destruct (List.find _ _); [|discriminate].
    intros [= <- _]. reflexivity.
  - intros [= <- _]. reflexivity.
Qed.

Lemma bindUpdateValues_bound (defns : list FieldSimpleDefn) (h : Handle) (o : Object) :
  forall (b : Binds) (w w' : World) (b' : Binds),
    heap w !! h = Some o ->
    bindUpdateValues defns h b w = Done b' w' ->
    NoDup (map columnName defns) ->
    (forall fd, In fd defns ->
       exists v, encodeForDb fd (default Invalid (o !! propertyName fd)) w = Done v w /\
                 boundValue (columnName fd) b' = v) /\
    (forall c, ~ In c (map columnName defns) -> boundValue c b' = boundValue c b).
Proof.
  induction defns as [|fd defns IH]; intros b w w' b' Hh H Hnd; simpl in H.
  - injection H as <- <-. split; [intros fd [] | auto].
  - apply bind_Done in H as (v & w1 & Hp & H).
    rewrite (property_of_object h _ w o Hh) in Hp. injection Hp as <- <-.
    apply bind_Done in H as (v' & w2 & He & H).
    pose proof (encodeForDb_Done _ _ _ _ _ He) as ->.
    inversion Hnd as [|? ? Hnotin Hnd']; subst.
    rewrite list_elem_of_In in Hnotin.
    destruct (IH _ _ _ _ Hh H Hnd') as (Hin & Hout).
    split.
    + intros fd' [<- | Hfd'].
      * exists v'. split; [exact He|].
        rewrite (Hout _ Hnotin). apply rowValue_rowSet_eq.
      * exact (Hin fd' Hfd').
    + intros c Hc. simpl in Hc.
      rewrite Hout by tauto. apply rowValue_rowSet_ne. intros ->. tauto.
Qed.

Lemma foldl_rowSet (b : Binds) (cols : list string) :
  forall (r : Row) (c : string),
    rowValue c (foldl (fun r' c' => rowSet c' (toSql (boundValue c' b)) r') r cols)
    = if existsb (String.eqb c) cols then toSql (boundValue c b) else rowValue c r.
Proof.
  induction cols as [|c0 cols IH]; intros r c; simpl; [reflexivity|].
  rewrite IH. destruct (String.eqb_spec c c0) as [->|Hne]; simpl.
  - rewrite rowValue_rowSet_eq. destruct (existsb _ _); reflexivity.
  - rewrite (rowValue_rowSet_ne _ _ _ _ Hne). reflexivity.
Qed.

Lemma appendColumNames_skipped (defns : list FieldSimpleDefn) :
  appendColumNames defns false true = map columnName defns.
Proof. induction defns as [|fd defns IH]; simpl; [reflexivity | rewrite IH; reflexivity]. Qed.

Lemma execQuery_UpdateSet_rows table cols whereCol b (db : Database) res :
  execQuery (UpdateSet table cols whereCol) b db = Some res ->
  exists t, db !! table = Some t /\
            resDatabase res = <[table := updateRows t cols whereCol b]> db.
Proof.
  simpl. destruct (db !! table) as [t|]; [|discriminate].
  destruct (_ && _); [|discriminate].
  intros [= <-]. eauto.
Qed.

Lemma Forall2_map_right {A B : Type} (P : A -> B -> Prop) (f : A -> B) (l : list A) :
  (forall x, P x (f x)) -> Forall2 P l (map f l).
Proof. intros H. induction l; simpl; constructor; auto. Qed.

(** X15.  When [update] commits for an object of integer key [k], in a schema whose
    columns have different names and whose key is no enum field, the main
    table has the rows it had, in the same order, and rewritten as follows.
    A row of another key is untouched.  A row of key [k] holds, in the column
    of every field but the first, the object's property as [encodeForDb]
    renders it (an unset property as NULL), and keeps every other column,
    the key column among them. *)
Theorem update_writes_main_row (st : impl) (object : Handle) (o : Object)
    (keyDefn : FieldSimpleDefn) (rest : list FieldSimpleDefn) (k : Z) (w w' : World) :
  fieldSimpleDefns st = keyDefn :: rest ->
  heap w !! object = Some o ->
  o !! propertyName keyDefn = Some (VInt k) ->
  fieldType keyDefn <> FtEnum ->
  NoDup (map columnName (keyDefn :: rest)) ->
  NoDup (tableName st :: map m2mTableName (fieldManyToManyDefns st)) ->
  update st object w = Done tt w' ->
  last (trace w') = Some (EvCommit true) ->
  exists t t',
    database w !! tableName st = Some t /\
    database w' !! tableName st = Some t' /\
    Forall2 (fun r r' =>
               if sqlEq (rowValue (columnName keyDefn) r) (VInt k)
               then (forall fd, In fd rest ->
                       exists v,
                         encodeForDb fd (default Invalid (o !! propertyName fd)) w
                         = Done v w /\
                         rowValue (columnName fd) r' = toSql v) /\
                    (forall c, ~ In c (map columnName rest) ->
                               rowValue c r' = rowValue c r)
               else r' = r)
            (tblRows t) (tblRows t').
Proof.
  intros Hdefns Hh Hkey Hnoenum Hcols Hnd H Hlast.
  unfold update, DbTransaction in H. rewrite Hdefns in H.
  apply bind_Done in H as ([] & w1 & [= <-] & H).
  apply bind_Done in H as (committed & w2 & Hscope & Hend).
  destruct committed.
  2:{ apply rollback_Done in Hend as (_ & _ & Ht & _).
      rewrite Ht, last_snoc in Hlast. discriminate. }
  injection Hend as <-.
  apply bind_Done in Hscope as (pk & w1' & Hp & Hscope).
  apply property_Done in Hp as [-> (o' & Ho' & ->)].
  simpl in Ho'. rewrite Hh in Ho'. injection Ho' as <-.
  rewrite Hkey in Hscope.
  change (default Invalid (Some (VInt k))) with (VInt k) in Hscope.
  apply bind_Done in Hscope as (binds & w1' & Hb & Hscope).
  pose proof (bindUpdateValues_Done _ _ _ _ _ _ Hb) as ->.
  assert (heap (record EvTransaction (setSavepoint (Some (default (database w) (savepoint w))) w)) !! object
          = Some o) as Hh1 by exact Hh.
  destruct (bindUpdateValues_bound _ _ o _ _ _ _ Hh1 Hb Hcols) as (Hbound & _).
  apply bind_Done in Hscope as (r & w3 & Hx & Hscope).
  apply exec_Done in Hx as (_ & _ & Hh3 & _ & Hr).
  destruct r as [res|].
  2:{ apply bind_Done in Hscope as ([] & w4 & _ & [=]). }
  destruct Hr as (Hq & Hd3 & _).
  unfold updateQuery in Hq. rewrite Hdefns in Hq. simpl in Hq.
  rewrite appendColumNames_skipped in Hq.
  apply (execQuery_UpdateSet_rows (tableName st)) in Hq as (t & Ht & Hres).
  apply bind_Done in Hscope as (finished & w4 & Hj & Hscope).
  destruct finished; [|discriminate].
  apply commitConnection_Done in Hscope as (Hd2 & _).
  inversion Hnd as [|? ? Hnotin Hnd']; subst.
  assert (heap w3 !! object = Some o) as Hh' by (rewrite Hh3; exact Hh).
  destruct (updateJunctionTables_true object o k _ w3 w4 Hh' Hnd' Hj) as (Hframe & _).
  exists t, (updateRows t (map columnName rest) (columnName keyDefn) binds).
  split; [exact Ht|]. split.
  { rewrite Hd2, Hframe, Hd3, Hres.
    - apply lookup_insert_eq.
    - rewrite <- list_elem_of_In. exact Hnotin. }
  simpl. apply Forall2_map_right. intros row.
  destruct (Hbound keyDefn (or_introl eq_refl)) as (kv & Hkv & Hkb).
  rewrite Hkey in Hkv. unfold encodeForDb in Hkv.
  destruct (FieldType_eqb (fieldType keyDefn) FtEnum) eqn:E.
  { apply FieldType_eqb_eq in E. contradiction. }
  injection Hkv as <-. rewrite Hkb.
  destruct (sqlEq _ _); [|reflexivity].
  split.
  - intros fd Hfd. destruct (Hbound fd (or_intror Hfd)) as (v & Hv & Hvb).
    exists v. split; [exact (encodeForDb_any_world _ _ _ _ w _ Hv)|].
    rewrite foldl_rowSet, Hvb.
    replace (existsb _ _) with true; [reflexivity|].
    symmetry. apply existsb_eqb_In, in_map. exact Hfd.
  - intros c Hc. rewrite foldl_rowSet.
    destruct (existsb _ _) eqn:E'; [|reflexivity].
    apply existsb_eqb_In in E'. contradiction.
Qed.

Lemma update_writes_main_row_witness :
  let st := Sample.recipes false in
  let o := Sample.ipa 2 (VList [VInt 40]) in
  let w := Sample.world (Sample.brewery [Sample.recipeRow 1 "Stout" "Ale";
                                         Sample.recipeRow 2 "Pils" "Ale"]
                                        [Sample.hopRow 2 10 1])
                        o [] in
  let w' := Sample.worldAfter (update st 0%nat w) w in
  update st 0%nat w = Done tt w' /\
  exists t t',
    database w !! tableName st = Some t /\
    database w' !! tableName st = Some t' /\
    Forall2 (fun r r' =>
               if sqlEq (rowValue (columnName Sample.keyField) r) (VInt 2)
               then (forall fd, In fd [Sample.nameField; Sample.typeField] ->
                       exists v,
                         encodeForDb fd (default Invalid (o !! propertyName fd)) w
                         = Done v w /\
                         rowValue (columnName fd) r' = toSql v) /\
                    (forall c, ~ In c (map columnName [Sample.nameField; Sample.typeField]) ->
                               rowValue c r' = rowValue c r)
               else r' = r)
            (tblRows t) (tblRows t').
Proof.
  intros st o w w'.
  assert (update st 0%nat w = Done tt w') as H by (vm_compute; reflexivity).
  split; [exact H|].
  apply (update_writes_main_row st 0%nat o Sample.keyField
           [Sample.nameField; Sample.typeField] 2 w w' eq_refl eq_refl).
  - vm_compute. reflexivity.
  - discriminate.
  - compute_done.
  - compute_done.
  - exact H.
  - vm_compute. reflexivity.
Defined.

(** ** The row [insert] writes *)

Lemma bindInsertValues_bound (defns : list FieldSimpleDefn) (h : Handle) (o : Object) :
  forall pk (b : Binds) (w w' : World) r,
    heap w !! h = Some o ->
    bindInsertValues defns h true pk b w = Done r w' ->
    distinctNames (map columnName defns) = true ->
    (forall fd, In fd defns ->
       exists v, encodeForDb fd (default Invalid (o !! propertyName fd)) w = Done v w /\
                 boundValue (columnName fd) (fst r) = v) /\
    (forall c, ~ In c (map columnName defns) -> boundValue c (fst r) = boundValue c b).
Proof.
  induction defns as [|fd defns IH]; intros pk b w w' r Hh H Hd; simpl in H.
  - injection H as <- <-. split; [intros fd [] | auto].
  - apply bind_Done in H as (v & w1 & Hp & H).
    rewrite (property_of_object h _ w o Hh) in Hp. injection Hp as <- <-.
    apply bind_Done in H as (v' & w2 & He & H).
    pose proof (encodeForDb_Done _ _ _ _ _ He) as ->.
    simpl in Hd. apply andb_true_iff in Hd as [Hnotin Hd].
    apply negb_true_iff in Hnotin.
    assert (~ In (columnName fd) (map columnName defns)) as Hnotin'.
    { intros Hin. apply existsb_eqb_In in Hin. congruence. }
    destruct (IH _ _ _ _ _ Hh H Hd) as (Hin & Hout).
    split.
    + intros fd' [<- | Hfd'].
      * exists v'. split; [exact He|].
        rewrite (Hout _ Hnotin'). apply rowValue_rowSet_eq.
      * exact (Hin fd' Hfd').
    + intros c Hc. simpl in Hc.
      rewrite Hout by tauto. apply rowValue_rowSet_ne. intros ->. tauto.
Qed.

Lemma insertRow_row (t : Table) cols b :
  exists row, tblRows (insertRow t cols b) = tblRows t ++ [row] /\
    (forall c, In c cols -> rowValue c row = toSql (boundValue c b)) /\
    (forall key, tblAutoKey t = Some key -> ~ In key cols ->
                 rowValue key row = VInt (tblNextId t)).
Proof.
  unfold insertRow. simpl.
  destruct (tblAutoKey t) as [k|].
  - destruct (existsb (String.eqb k) cols) eqn:E.
    + eexists. split; [reflexivity|]. split.
      * intros c Hc. apply (rowValue_given (fun c' => toSql (boundValue c' b))). exact Hc.
      * intros key [= <-] Hkey. apply existsb_eqb_In in E. contradiction.
    + eexists. split; [reflexivity|]. split.
      * intros c Hc. simpl. destruct (String.eqb k c) eqn:Ek.
        -- apply String.eqb_eq in Ek as ->. apply existsb_eqb_In in Hc. congruence.
        -- apply (rowValue_given (fun c' => toSql (boundValue c' b))). exact Hc.
      * intros key [= <-] _. simpl. rewrite String.eqb_refl. reflexivity.
  - eexists. split; [reflexivity|]. split.
    + intros c Hc. apply (rowValue_given (fun c' => toSql (boundValue c' b))). exact Hc.
    + discriminate.
Qed.

Lemma execQuery_InsertInto_id table cols b (db : Database) res :
  execQuery (InsertInto table cols) b db = Some res ->
  exists t, db !! table = Some t /\ distinctNames cols = true /\
            resDatabase res = <[table := insertRow t cols b]> db /\
            resLastInsertId res = VInt (tblNextId t).
Proof.
  simpl. destruct (db !! table) as [t|]; [|discriminate].
  destruct (negb (isEmptyList cols)); [|discriminate].
  destruct (distinctNames cols); [|discriminate]. simpl.
  destruct (forallb _ _); [|discriminate].
  intros [= <-]. eauto.
Qed.

Lemma insertJunctionRows_frame (d : FieldManyToManyDefn) (pk : QVariant)
    (l : list QVariant) :
  forall (n : Z) (b : Binds) (w w' : World) (r : bool),
    insertJunctionRows d pk n b l w = Done r w' ->
    forall T, T <> m2mTableName d -> database w' !! T = database w !! T.
Proof.
  induction l as [|cur l IH]; intros n b w w' r H T HT; simpl in H.
  - injection H as _ <-. reflexivity.
  - apply bind_Done in H as (x & w1 & Hx & H).
    apply exec_Done in Hx as (_ & _ & _ & _ & Hr).
    destruct x as [res|].
    + destruct Hr as (Hq & Hd1 & _).
      apply execQuery_InsertInto in Hq as (t & _ & _ & Hres).
      rewrite (IH _ _ _ _ _ H T HT), Hd1, Hres.
      apply lookup_insert_ne. congruence.
    + destruct Hr as (Hd1 & _).
      apply bind_Done in H as ([] & w2 & [= <-] & [= _ <-]).
      simpl. rewrite Hd1. reflexivity.
Qed.

Lemma insertJunctionTables_frame (defns : list FieldManyToManyDefn) (h : Handle)
    (pk : QVariant) :
  forall (w w' : World) a,
    insertJunctionTables defns h pk w = Done a w' ->
    forall T, ~ In T (map m2mTableName defns) -> database w' !! T = database w !! T.
Proof.
  induction defns as [|d defns IH]; intros w w' a H T HT; simpl in H.
  - injection H as _ <-. reflexivity.
  - simpl in HT.
    apply bind_Done in H as (r & w1 & H1 & H).
    unfold insertIntoFieldManyToManyDefn in H1.
    apply bind_Done in H1 as (v & w0 & Hp & H1).
    apply property_Done in Hp as [-> _].
    rewrite (IH _ _ _ H T) by tauto.
    apply (insertJunctionRows_frame _ _ _ _ _ _ _ _ H1). intros ->. tauto.
Qed.

(** X16.  When [insert] commits, the main table has gained exactly one row, after
    the rows it had.  The row holds, in the column of every field but the
    first, the object's property as [encodeForDb] renders it (an unset
    property as NULL).  Where the first field's column is the table's
    generated key, the row holds the generated key there, and the object's
    key property has been set to that same value. *)
Theorem insert_appends_main_row (st : impl) (object : Handle) (o : Object)
    (keyDefn : FieldSimpleDefn) (rest : list FieldSimpleDefn) (w w' : World) :
  fieldSimpleDefns st = keyDefn :: rest ->
  heap w !! object = Some o ->
  ~ In (tableName st) (map m2mTableName (fieldManyToManyDefns st)) ->
  insert st object w = Done tt w' ->
  last (trace w') = Some (EvCommit true) ->
  exists t t' row,
    database w !! tableName st = Some t /\
    database w' !! tableName st = Some t' /\
    tblRows t' = tblRows t ++ [row] /\
    (forall fd, In fd rest ->
       exists v,
         encodeForDb fd (default Invalid (o !! propertyName fd)) w = Done v w /\
         rowValue (columnName fd) row = toSql v) /\
    (tblAutoKey t = Some (columnName keyDefn) ->
     ~ In (columnName keyDefn) (map columnName rest) ->
     rowValue (columnName keyDefn) row = VInt (tblNextId t) /\
     heap w' !! object = Some (<[propertyName keyDefn := VInt (tblNextId t)]> o)).
Proof.
  intros Hdefns Hh Hmain H Hlast.
  unfold insert, DbTransaction in H. rewrite Hdefns in H.
  apply bind_Done in H as ([] & w1 & [= <-] & H).
  apply bind_Done in H as (committed & w2 & Hscope & Hend).
  destruct committed.
  2:{ apply rollback_Done in Hend as (_ & _ & Ht & _).
      rewrite Ht, last_snoc in Hlast. discriminate. }
  injection Hend as <-.
  apply bind_Done in Hscope as (bound & w1' & Hb & Hscope).
  pose proof (bindInsertValues_Done _ _ _ _ _ _ _ _ Hb) as [-> Hname].
  simpl in Hb, Hname.
  apply bind_Done in Hscope as (current & w1' & Hp & Hscope).
  apply property_Done in Hp as [-> _].
  apply bind_Done in Hscope as ([] & w1' & Ha & Hscope).
  apply Q_ASSERT_Done in Ha as [_ ->].
  apply bind_Done in Hscope as (r & w3 & Hx & Hscope).
  apply exec_Done in Hx as (_ & _ & Hh3 & _ & Hr). simpl in Hh3.
  destruct r as [res|].
  2:{ apply bind_Done in Hscope as ([] & w4 & _ & [=]). }
  destruct Hr as (Hq & Hd3 & _).
  unfold insertQuery in Hq. rewrite Hdefns in Hq. simpl in Hq.
  rewrite appendColumNames_skipped in Hq.
  apply (execQuery_InsertInto_id (tableName st)) in Hq as (t & Ht & Hdistinct & Hres & Hid).
  assert (heap (record EvTransaction (setSavepoint (Some (default (database w) (savepoint w))) w)) !! object
          = Some o) as Hh1 by exact Hh.
  destruct (bindInsertValues_bound _ _ o _ _ _ _ _ Hh1 Hb Hdistinct) as (Hbound & _).
  destruct (insertRow_row t (map columnName rest) (fst bound))
    as (row & Hrows & Hgiven & Hauto).
  pose proof (insertRecorded_objects _ _ _ _ _ _ _ Hscope) as (_ & _ & o' & Ho' & Hheap).
  rewrite Hh3, Hh in Ho'. injection Ho' as <-.
  rewrite Hname, Hid, Hh3 in Hheap.
  assert (database w2 !! tableName st = database w3 !! tableName st) as Hsame.
  { unfold insertRecorded in Hscope.
    apply bind_Done in Hscope as (hf & w4 & [= <- <-] & Hscope).
    apply bind_Done in Hscope as ([] & w4 & H4 & Hscope).
    apply Q_ASSERT_Done in H4 as [_ ->].
    apply bind_Done in Hscope as ([] & w5 & H5 & Hscope).
    apply setProperty_Done in H5 as (Hd5 & _).
    apply bind_Done in Hscope as (known & w6 & [= <- <-] & Hscope).
    apply bind_Done in Hscope as ([] & w6 & H6 & Hscope).
    apply Q_ASSERT_Done in H6 as [_ ->].
    apply bind_Done in Hscope as ([] & w7 & [= <-] & Hscope).
    apply bind_Done in Hscope as ([] & w8 & H8 & Hscope).
    apply (insertJunctionTables_frame _ _ _ _ _ _ H8 (tableName st)) in Hmain.
    apply bind_Done in Hscope as ([] & w9 & [= <-] & Hscope).
    apply commitConnection_Done in Hscope as (Hd9 & _).
    rewrite Hd9. simpl. rewrite Hmain. simpl. rewrite Hd5. reflexivity. }
  exists t, (insertRow t (map columnName rest) (fst bound)), row.
  split; [exact Ht|]. split.
  { rewrite Hsame, Hd3, Hres. apply lookup_insert_eq. }
  split; [exact Hrows|]. split.
  - intros fd Hfd. destruct (Hbound fd Hfd) as (v & Hv & Hvb).
    exists v. split; [exact (encodeForDb_any_world _ _ _ _ w _ Hv)|].
    rewrite Hgiven, Hvb; [reflexivity | apply in_map; exact Hfd].
  - intros Hkey Hnotin. split; [exact (Hauto _ Hkey Hnotin)|].
    rewrite Hheap. apply lookup_insert_eq.
Qed.

Lemma insert_appends_main_row_witness :
  let st := Sample.recipes false in
  let o := Sample.ipa 0 (VList [VInt 10; VInt 20]) in
  let w := Sample.world (Sample.brewery [Sample.recipeRow 1 "Stout" "Ale"] []) o [] in
  let w' := Sample.worldAfter (insert st 0%nat w) w in
  insert st 0%nat w = Done tt w' /\
  exists t t' row,
    database w !! tableName st = Some t /\
    database w' !! tableName st = Some t' /\
    tblRows t' = tblRows t ++ [row] /\
    (forall fd, In fd [Sample.nameField; Sample.typeField] ->
       exists v,
         encodeForDb fd (default Invalid (o !! propertyName fd)) w = Done v w /\
         rowValue (columnName fd) row = toSql v) /\
    (tblAutoKey t = Some (columnName Sample.keyField) ->
     ~ In (columnName Sample.keyField)
          (map columnName [Sample.nameField; Sample.typeField]) ->
     rowValue (columnName Sample.keyField) row = VInt (tblNextId t) /\
     heap w' !! 0%nat
     = Some (<[propertyName Sample.keyField := VInt (tblNextId t)]> o)).
Proof.
  intros st o w w'.
  assert (insert st 0%nat w = Done tt w') as H by (vm_compute; reflexivity).
  split; [exact H|].
  apply (insert_appends_main_row st 0%nat o Sample.keyField
           [Sample.nameField; Sample.typeField] w w' eq_refl eq_refl).
  - vm_compute. intros [H1 | []]. discriminate H1.
  - exact H.
  - vm_compute. reflexivity.
Defined.

(** ** The junction rows of one relation *)

(** X17.  What [insertIntoFieldManyToManyDefn] writes when it reports success.  For
    a relation of at most one entry it writes exactly one row, whatever the
    property holds: an unset property gives a row whose other key is NULL.
    Otherwise it writes one row per entry of the list the property holds, in
    the order of the list; a property that holds no list, or an empty one,
    makes it report success without running any statement. *)
Theorem insertIntoFieldManyToManyDefn_rows (d : FieldManyToManyDefn) (object : Handle)
    (o : Object) (pk : QVariant) (w w' : World) (t : Table) :
  heap w !! object = Some o ->
  database w !! m2mTableName d = Some t ->
  insertIntoFieldManyToManyDefn d object pk w = Done true w' ->
  let held := default Invalid (o !! m2mPropertyName d) in
  exists t' news,
    database w' !! m2mTableName d = Some t' /\
    tblRows t' = tblRows t ++ news /\
    Forall (fun r => rowValue (thisPrimaryKeyColumn d) r = toSql pk) news /\
    (assumeMaxOneEntry d = true ->
     exists row, news = [row] /\ rowValue (otherPrimaryKeyColumn d) row = toSql held) /\
    (assumeMaxOneEntry d = false ->
     map (rowValue (otherPrimaryKeyColumn d)) news = map toSql (toList held) /\
     (toList held = [] -> w' = w)).
Proof.
  intros Hh Ht H held.
  unfold insertIntoFieldManyToManyDefn in H.
  rewrite (bind_eq_Done _ _ _ _ _ (property_of_object object _ w o Hh)) in H.
  fold held in H.
  destruct (insertJunctionRows_true _ _ _ _ _ _ _ t H Ht)
    as (_ & _ & t' & news & Ht' & Hrows & Hthis & Hother & _).
  exists t', news. split; [exact Ht'|]. split; [exact Hrows|]. split; [exact Hthis|].
  split.
  - intros Hone. rewrite Hone in Hother. simpl in Hother.
    destruct news as [|row [|row' news]]; try discriminate.
    exists row. split; [reflexivity|]. injection Hother as ->. reflexivity.
  - intros Hmany. rewrite Hmany in Hother, H. split; [exact Hother|].
    intros Hnil. rewrite Hnil in H. injection H as <-. reflexivity.
Qed.

Lemma insertIntoFieldManyToManyDefn_rows_witness :
  let d := Sample.hops true in
  let o : Object := <["key" := VInt 1]> ∅ in
  let w := Sample.world (Sample.brewery [] [Sample.hopRow 2 20 1]) o [] in
  let w' := Sample.worldAfter (insertIntoFieldManyToManyDefn d 0%nat (VInt 1) w) w in
  insertIntoFieldManyToManyDefn d 0%nat (VInt 1) w = Done true w' /\
  exists t' news,
    database w' !! m2mTableName d = Some t' /\
    tblRows t' = [Sample.hopRow 2 20 1] ++ news /\
    Forall (fun r => rowValue (thisPrimaryKeyColumn d) r = toSql (VInt 1)) news /\
    (assumeMaxOneEntry d = true ->
     exists row, news = [row] /\
                 rowValue (otherPrimaryKeyColumn d) row
                 = toSql (default Invalid (o !! m2mPropertyName d))) /\
    (assumeMaxOneEntry d = false ->
     map (rowValue (otherPrimaryKeyColumn d)) news
     = map toSql (toList (default Invalid (o !! m2mPropertyName d))) /\
     (toList (default Invalid (o !! m2mPropertyName d)) = [] -> w' = w)).
Proof.
  intros d o w w'.
  assert (insertIntoFieldManyToManyDefn d 0%nat (VInt 1) w = Done true w') as H
    by (vm_compute; reflexivity).
  split; [exact H|].
  exact (insertIntoFieldManyToManyDefn_rows d 0%nat o (VInt 1) w w'
           (Sample.hopTable [Sample.hopRow 2 20 1]) eq_refl eq_refl H).
Defined.
